(** * Bayesian diagnosis: sequential evidence fusion

    A shallow embedding of [bayesian_diagnosis.py] (class
    [BayesianDiagnosis]) and the properties of its [update] method.

    The Python code is duck-typed over its numbers: it only uses the
    literal [1], the operators [-], [*], [+] and [/], and it is run by the
    script on binary64 [float] values.  The embedding is therefore written
    once over a small interface of numeric operations ([PyNumber]) and
    instantiated twice: with Rocq's primitive binary64 floats, which
    compute bit for bit what CPython computes, and with canonical
    rationals, which are what the same code computes on
    [fractions.Fraction] values.

    Statements that hold whatever the numbers are (what is returned, what
    is raised, how the history grows) are proved once for every instance.
    Statements about magnitudes are proved on floats from the standard
    library's specification of the primitive operations, and identities
    that rounding breaks are proved on the rationals.

    The last part follows the code past single calls: sessions of calls
    on one instance, the special values of float arithmetic (NaN, zero
    and one), the accuracy of a call against Bayes' rule on the reals,
    [plot_convergence] as the calls it makes to the plotting library, and
    the script at the end of the module with the lines it prints. *)

From Stdlib Require Import List Bool ZArith QArith Qcanon Field Reals Lra.
From Stdlib Require Import Floats Lia.
From Stdlib Require Import Permutation.
From Stdlib Require Lqa DecimalString String Ascii.
Import ListNotations.

Set Warnings "-inexact-float".

(** ** Exceptions and results *)

(** The exceptions a call can end with.  [ZeroDivisionError] and
    [IndexError] are the built-ins the operators of the source raise.  The
    last three are the error classes named by the design document; no
    statement of the source defines or raises them, they are listed so that
    statements about them can be written down. *)
Inductive exception : Set :=
| ZeroDivisionError
| IndexError
| InvalidProbabilityError
| EmptyEvidenceError
| DegenerateEvidenceError.

(** What evaluating a Python expression gives: a value or a raised
    exception. *)
Inductive outcome (A : Type) : Type :=
| Return (a : A)
| Raise (e : exception).
Arguments Return {A} a.
Arguments Raise {A} e.

(** ** The numbers of the program *)

(** The operations [update] applies to its numbers.  [num_quot] is the
    quotient for a divisor that is not zero; [num_is_zero] is the test
    [y == 0] on which Python's [/] raises.  [num_zero] and [num_le] are not
    used by the source: they serve to state ranges. *)
Class PyNumber (T : Type) : Type := {
  num_one : T;
  num_zero : T;
  num_add : T -> T -> T;
  num_sub : T -> T -> T;
  num_mul : T -> T -> T;
  num_quot : T -> T -> T;
  num_is_zero : T -> bool;
  num_le : T -> T -> bool
}.

Declare Scope py_scope.
Delimit Scope py_scope with py.
Notation "1" := num_one : py_scope.
Notation "0" := num_zero : py_scope.
Infix "+" := num_add : py_scope.
Infix "-" := num_sub : py_scope.
Infix "*" := num_mul : py_scope.

(** Python's [float]: IEEE 754 binary64, round to nearest even.  The int
    literal [1] meets a float in every operation of [update] and is
    converted to [1.0] exactly.  [x / y] raises when [y == 0.0], which holds
    for both signed zeros and not for NaN. *)
#[export] Instance float_number : PyNumber float := {
  num_one := 1%float;
  num_zero := 0%float;
  num_add := PrimFloat.add;
  num_sub := PrimFloat.sub;
  num_mul := PrimFloat.mul;
  num_quot := PrimFloat.div;
  num_is_zero := fun y => PrimFloat.eqb y 0%float;
  num_le := PrimFloat.leb
}.

(** Python's [fractions.Fraction]: exact rationals kept in lowest terms. *)
#[export] Instance fraction_number : PyNumber Qc := {
  num_one := 1%Qc;
  num_zero := 0%Qc;
  num_add := Qcplus;
  num_sub := Qcminus;
  num_mul := Qcmult;
  num_quot := Qcdiv;
  num_is_zero := fun y => Qc_eq_bool y 0%Qc;
  num_le := fun x y => Qle_bool (this x) (this y)
}.

(** Python's [zip] on two lists: pairs up to the shorter one. *)
Fixpoint zip {A B : Type} (xs : list A) (ys : list B) : list (A * B) :=
  match xs, ys with
  | x :: xs', y :: ys' => (x, y) :: zip xs' ys'
  | _, _ => []
  end.

(** [l[-1]]: the last element, [IndexError] on the empty list. *)
Fixpoint getitem_last {A : Type} (l : list A) : outcome A :=
  match l with
  | [] => Raise IndexError
  | [x] => Return x
  | _ :: l' => getitem_last l'
  end.

Section BayesianDiagnosis.

Context {T : Type} `{PyNumber T}.
Local Open Scope py_scope.

(** [x / y] *)
Definition truediv (x y : T) : outcome T :=
  if num_is_zero y then Raise ZeroDivisionError else Return (num_quot x y).

(** ** The class *)

(** The two attributes an instance carries. *)
Record BayesianDiagnosis : Type := {
  prior : T;
  posterior_history : list T
}.

(** [BayesianDiagnosis(prior)] *)
Definition __init__ (prior : T) : outcome BayesianDiagnosis :=
  Return {| prior := prior; posterior_history := [prior] |}.

(** [self.posterior_history.append(posterior)] *)
Definition append_posterior (self : BayesianDiagnosis) (posterior : T)
  : BayesianDiagnosis :=
  {| prior := prior self;
     posterior_history := posterior_history self ++ [posterior] |}.

(** One pass of the [for] loop of [update], on the pair of running
    likelihoods. *)
Definition loop_body (acc : T * T) (item : (T * T) * bool) : T * T :=
  let '(likelihood_given_D, likelihood_given_notD) := acc in
  let '((P_pos_given_D, P_pos_given_notD), res) := item in
  if res
  then (likelihood_given_D * P_pos_given_D,
        likelihood_given_notD * P_pos_given_notD)
  else (likelihood_given_D * (1 - P_pos_given_D),
        likelihood_given_notD * (1 - P_pos_given_notD)).

(** The whole loop, from the two likelihoods set to [1]. *)
Definition likelihoods (tests : list (T * T)) (results : list bool) : T * T :=
  fold_left loop_body (zip tests results) (1, 1).

(** [self.update(tests, results)]: the value returned or the exception
    raised, and the instance after the call. *)
Definition update (self : BayesianDiagnosis)
    (tests : list (T * T)) (results : list bool)
  : outcome T * BayesianDiagnosis :=
  match getitem_last (posterior_history self) with
  | Raise e => (Raise e, self)
  | Return P_D =>
      let P_notD := 1 - P_D in
      let '(likelihood_given_D, likelihood_given_notD) :=
        likelihoods tests results in
      let P_all := P_D * likelihood_given_D + P_notD * likelihood_given_notD in
      match truediv (P_D * likelihood_given_D) P_all with
      | Raise e => (Raise e, self)
      | Return posterior => (Return posterior, append_posterior self posterior)
      end
  end.

End BayesianDiagnosis.

Arguments BayesianDiagnosis T : clear implicits.

(** ** The fusion rule as the design document words it *)

Section FusionRule.

Context {T : Type} `{PyNumber T}.
Local Open Scope py_scope.

(** One piece of evidence: a test's two rates and the observed outcome. *)
Record Evidence : Type := {
  sensitivity : T;
  false_positive_rate : T;
  outcome_positive : bool
}.

(** The evidence items a call [update(tests, results)] fuses. *)
Definition evidence_list (tests : list (T * T)) (results : list bool)
  : list Evidence :=
  map (fun item : (T * T) * bool =>
         {| sensitivity := fst (fst item);
            false_positive_rate := snd (fst item);
            outcome_positive := snd item |})
      (zip tests results).

(** The factor an item contributes under the hypothesis and under its
    negation. *)
Definition factor_d (e : Evidence) : T :=
  if outcome_positive e then sensitivity e else 1 - sensitivity e.

Definition factor_not_d (e : Evidence) : T :=
  if outcome_positive e then false_positive_rate e
  else 1 - false_positive_rate e.

(** The product of a list, taken from the left, starting at [1]. *)
Definition product (l : list T) : T := fold_left num_mul l 1.

Definition likelihood_d (ev : list Evidence) : T := product (map factor_d ev).

Definition likelihood_not_d (ev : list Evidence) : T :=
  product (map factor_not_d ev).

Definition p_evidence (p_d : T) (ev : list Evidence) : T :=
  p_d * likelihood_d ev + (1 - p_d) * likelihood_not_d ev.

Definition bayes_posterior (p_d : T) (ev : list Evidence) : T :=
  num_quot (p_d * likelihood_d ev) (p_evidence p_d ev).

(** The closed interval [[0,1]]. *)
Definition in_unit (x : T) : bool := num_le 0 x && num_le x 1.

(** A call whose test rates all lie in [[0,1]]. *)
Definition valid_tests (tests : list (T * T)) : Prop :=
  Forall (fun t => in_unit (fst t) = true /\ in_unit (snd t) = true) tests.

(** A session: a sequence of [update] calls on one instance.  A call that
    raises is caught by the caller and the session goes on with the
    instance as the call left it. *)
Fixpoint run_updates (self : BayesianDiagnosis T)
    (calls : list (list (T * T) * list bool)) : BayesianDiagnosis T :=
  match calls with
  | [] => self
  | (tests, results) :: rest =>
      run_updates (snd (update self tests results)) rest
  end.

(** What the range argument asks of the arithmetic: no operation of
    [update], rounded or not, carries its result across an end of
    [[0,1]]. *)
Class UnitIntervalLaws : Prop := {
  unit_one : in_unit 1 = true;
  unit_sub : forall x, in_unit x = true -> in_unit (1 - x) = true;
  unit_mul : forall x y,
    in_unit x = true -> in_unit y = true -> in_unit (x * y) = true;
  unit_quot : forall a b,
    in_unit a = true -> in_unit b = true ->
    num_is_zero (a + b) = false ->
    in_unit (num_quot a (a + b)) = true
}.

End FusionRule.

Arguments Evidence T : clear implicits.
Arguments UnitIntervalLaws T {_}.

(** [abs(x - y) <= tol] on floats, the comparison a test of the script's
    output makes. *)
Definition close_to (x y tol : float) : bool :=
  PrimFloat.leb (PrimFloat.abs (PrimFloat.sub x y)) tol.

(** ** Specification floats

    The vocabulary of the two arguments on binary64, the range of the
    history and the rounding errors of one call: shift records that lie
    below one, the number one and the unit interval on specification
    floats, the order of two dyadic numbers, the real value of a float. *)

(** A shift record whose round or sticky bit is set stands for a value
    strictly above its mantissa. *)
Definition inexact (mrs : shr_record) : bool := shr_r mrs || shr_s mrs.

(** The value a shift record stands for at exponent [e] is at most one. *)
Definition below_one (mrs : shr_record) (e : Z) : Prop :=
  (0 <= shr_m mrs)%Z /\
  ((e <= 0)%Z ->
   (shr_m mrs <= 2 ^ (- e))%Z /\
   (inexact mrs = true -> (shr_m mrs < 2 ^ (- e))%Z)).

(** [1.0]: mantissa [2^52], exponent [-52]. *)
Definition SF_one : spec_float := S754_finite false 4503599627370496 (-52).

Definition sf_in_unit (x : spec_float) : bool :=
  SFleb (S754_zero false) x && SFleb x SF_one.

(** The order of two positive dyadic numbers [m1 * 2^e1] and
    [m2 * 2^e2], taken on their common exponent. *)
Definition dyadic_le (m1 : positive) (e1 : Z) (m2 : positive) (e2 : Z) : Prop :=
  (Zpos m1 * 2 ^ (e1 - Z.min e1 e2) <= Zpos m2 * 2 ^ (e2 - Z.min e1 e2))%Z.

(** *** Values and rounding errors *)

(** Powers of two as reals. *)
Definition pow2 (e : Z) : R := powerRZ 2 e.

(** The real number [m * 2^e]. *)
Definition F2R (m e : Z) : R := (IZR m * pow2 e)%R.

(** The real number a specification float stands for; the infinities and
    NaN are given the value zero. *)
Definition SF2R (x : spec_float) : R :=
  match x with
  | S754_finite s m e => if s then (- F2R (Zpos m) e)%R else F2R (Zpos m) e
  | _ => 0%R
  end.

(** The real number a float stands for. *)
Definition float_value (x : float) : R := SF2R (Prim2SF x).

(** A float that is a positive finite number of value [X]. *)
Definition positive_float (x : float) (X : R) : Prop :=
  exists (m : positive) (e : Z),
    Prim2SF x = S754_finite false m e /\ X = F2R (Zpos m) e.

(** Two positive reals, each at most [k] times the other. *)
Definition within_factor (k a x : R) : Prop :=
  (0 < x /\ 0 < a /\ x <= k * a /\ a <= k * x)%R.

(** The factor one rounding costs: [1 + 2^-51]. *)
Definition kappa : R := (1 + 2 * / 4503599627370496)%R.

(** The factor one call costs: [1 + 1e-14]. *)
Definition call_factor : R := (1 + / 100000000000000)%R.

(** Bayes' rule on reals: the posterior of a belief [P] under the
    likelihoods [D] and [N]. *)
Definition bayes (P D N : R) : R := (P * D / (P * D + (1 - P) * N))%R.



(** ** Sessions and callers *)

Section SessionVocabulary.
Context {T : Type} `{PyNumber T}.

(** The posteriors a session's calls return, in call order; a call that
    raises returns nothing. *)
Fixpoint returned_posteriors (self : BayesianDiagnosis T)
    (calls : list (list (T * T) * list bool)) : list T :=
  match calls with
  | [] => []
  | (tests, results) :: rest =>
      match update self tests results with
      | (Return posterior, self') =>
          posterior :: returned_posteriors self' rest
      | (Raise _, self') => returned_posteriors self' rest
      end
  end.

(** The calls of a caller that applies the tests one call at a time. *)
Definition one_by_one (tests : list (T * T)) (results : list bool)
  : list (list (T * T) * list bool) :=
  map (fun item : (T * T) * bool => ([fst item], [snd item]))
      (zip tests results).

End SessionVocabulary.

(** ** Bayes' rule on the values of the inputs *)

(** A float of [[2^-40, 1]]. *)
Definition plausible (x : float) : bool :=
  PrimFloat.leb 0x1p-40%float x && PrimFloat.leb x 1%float.

(** An evidence item whose two factors are floats of [[2^-40, 1]]. *)
Definition plausible_evidence (e : Evidence float) : bool :=
  plausible (factor_d e) && plausible (factor_not_d e).

(** The factor the loop multiplies by for the rate [rate] of an item:
    [factor_d] for the sensitivity, [factor_not_d] for the false-positive
    rate. *)
Definition factor_of (rate : Evidence float -> float) (e : Evidence float)
  : float :=
  if outcome_positive e then rate e else (1 - rate e)%float.

(** The factor of an item in real arithmetic, on the value of its rate:
    the rate for a positive outcome, its complement for a negative one. *)
Definition real_factor (rate : Evidence float -> float) (e : Evidence float)
  : R :=
  if outcome_positive e then float_value (rate e)
  else (1 - float_value (rate e))%R.

Definition real_product (l : list R) : R := fold_right Rmult 1%R l.

(** Bayes' rule in real arithmetic on the values of the belief and of the
    rates. *)
Definition exact_posterior (p_d : float) (ev : list (Evidence float)) : R :=
  bayes (float_value p_d)
        (real_product (map (real_factor sensitivity) ev))
        (real_product (map (real_factor false_positive_rate) ev)).

(** ** Printing and plotting *)

(** [l[i]] for an index [0 <= i]: [IndexError] past the end. *)
Definition getitem {A : Type} (l : list A) (i : nat) : outcome A :=
  match nth_error l i with
  | Some x => Return x
  | None => Raise IndexError
  end.

Module Printing.

Import Stdlib.Strings.String Stdlib.Strings.Ascii.
Local Open Scope string_scope.

(** [str(n)] for an int [n >= 0]. *)
Definition str_nat (n : nat) : string :=
  DecimalString.NilZero.string_of_uint (Nat.to_uint n).

Definition str_Z (n : Z) : string :=
  DecimalString.NilZero.string_of_uint (N.to_uint (Z.to_N n)).

Definition digit (d : Z) : string :=
  String (ascii_of_N (48 + Z.to_N d)) EmptyString.

(** The integer nearest to [num / den], ties to the even one. *)
Definition round_half_even (num den : Z) : Z :=
  let q := (num / den)%Z in
  let r := (num mod den)%Z in
  match (2 * r ?= den)%Z with
  | Lt => q
  | Gt => (q + 1)%Z
  | Eq => if Z.even q then q else (q + 1)%Z
  end.

(** [n] ten-thousandths, written with four decimals. *)
Definition fixed4 (n : Z) : string :=
  str_Z (n / 10000) ++ "." ++
  digit (n / 1000 mod 10) ++ digit (n / 100 mod 10) ++
  digit (n / 10 mod 10) ++ digit (n mod 10).

(** [format(x, '.4f')] on a float: the decimal with four digits after the
    point that is nearest to the exact value of [x], ties to even. *)
Definition format_4f (x : float) : string :=
  match Prim2SF x with
  | S754_nan => "nan"
  | S754_infinity s => if s then "-inf" else "inf"
  | S754_zero s => (if s then "-" else "") ++ "0.0000"
  | S754_finite s m e =>
      (if s then "-" else "") ++
      fixed4 (if (0 <=? e)%Z
              then (Zpos m * 2 ^ e * 10000)%Z
              else round_half_even (Zpos m * 10000) (2 ^ (- e)))
  end.

(** The line the script prints after test [i] (counted from 0). *)
Definition print_line (i : nat) (res : bool) (posterior : float) : string :=
  "After Test " ++ str_nat (i + 1) ++
  " (" ++ (if res then "Positive" else "Negative") ++
  "): Posterior = " ++ format_4f posterior.

(** The calls a function makes to [matplotlib.pyplot], with their
    arguments. *)
Inductive plt_call (T : Type) : Type :=
| plt_figure (figsize : Z * Z)
| plt_plot (xs : list nat) (ys : list T) (fmt : string) (color : string)
| plt_xlabel (label : string) (fontsize : Z)
| plt_ylabel (label : string) (fontsize : Z)
| plt_title (label : string) (fontsize : Z) (fontweight : string)
| plt_grid (visible : bool) (linestyle : string) (alpha : float)
| plt_ylim (bottom top : Z)
| plt_show.

Arguments plt_figure {T} figsize.
Arguments plt_plot {T} xs ys fmt color.
Arguments plt_xlabel {T} label fontsize.
Arguments plt_ylabel {T} label fontsize.
Arguments plt_title {T} label fontsize fontweight.
Arguments plt_grid {T} visible linestyle alpha.
Arguments plt_ylim {T} bottom top.
Arguments plt_show {T}.

(** [self.plot_convergence()]: the calls it makes; the instance is only
    read. *)
Definition plot_convergence {T : Type} (self : BayesianDiagnosis T)
  : list (plt_call T) :=
  [ plt_figure (8, 5)%Z;
    plt_plot (seq 0 (List.length (posterior_history self)))
             (posterior_history self) "o-" "purple";
    plt_xlabel "Number of updates / tests" 12;
    plt_ylabel "Posterior Probability P(D|data)" 12;
    plt_title "Bayesian Posterior Probability Convergence" 14 "bold";
    plt_grid true "--" 0.7%float;
    plt_ylim 0 1;
    plt_show ].

(** What a run of the script leaves behind: the lines printed, the calls
    made to the plotting library, the exception that ended the run if one
    did, and the instance. *)
Record script_run : Type := {
  stdout : list string;
  figure : list (plt_call float);
  raised : option exception;
  diagnosis : BayesianDiagnosis float
}.

(** The [for] loop of the script over the indices still to come: the
    outcome, the lines printed so far and the instance. *)
Fixpoint script_loop (tests : list (float * float)) (results : list bool)
    (indices : list nat) (diagnosis : BayesianDiagnosis float)
    (out : list string)
  : outcome unit * list string * BayesianDiagnosis float :=
  match indices with
  | [] => (Return tt, out, diagnosis)
  | i :: rest =>
      match getitem tests i with
      | Raise e => (Raise e, out, diagnosis)
      | Return test =>
          match getitem results i with
          | Raise e => (Raise e, out, diagnosis)
          | Return res =>
              match update diagnosis [test] [res] with
              | (Raise e, diagnosis') => (Raise e, out, diagnosis')
              | (Return posterior, diagnosis') =>
                  match getitem results i with
                  | Raise e => (Raise e, out, diagnosis')
                  | Return res' =>
                      script_loop tests results rest diagnosis'
                        (out ++ [print_line i res' posterior])%list
                  end
              end
          end
      end
  end.

(** The script, as a function of the three values it starts from. *)
Definition example_usage (prior : float) (tests : list (float * float))
    (results : list bool) : outcome script_run :=
  match __init__ prior with
  | Raise e => Raise e
  | Return diagnosis0 =>
      let '(end_of_loop, out, diagnosis1) :=
        script_loop tests results (seq 0 (List.length tests)) diagnosis0 [] in
      Return
        match end_of_loop with
        | Raise e =>
            {| stdout := out; figure := []; raised := Some e;
               diagnosis := diagnosis1 |}
        | Return _ =>
            {| stdout := out; figure := plot_convergence diagnosis1;
               raised := None; diagnosis := diagnosis1 |}
        end
  end.

(** The script with the values it is written with. *)
Definition script : outcome script_run :=
  example_usage 0.001%float
    [(0.95, 0.02); (0.90, 0.05); (0.92, 0.03)]%float [true; true; false].

End Printing.

(** * Properties *)

Section Properties.

Context {T : Type} `{PyNumber T}.
Local Open Scope py_scope.

Lemma zip_firstn {A B : Type} (xs : list A) (ys : list B) :
  zip xs ys =
  zip (firstn (Nat.min (length xs) (length ys)) xs)
      (firstn (Nat.min (length xs) (length ys)) ys).
Proof.
  revert ys; induction xs as [|x xs IH]; intros [|y ys]; simpl; trivial.
  now rewrite <- IH.
Qed.

Lemma zip_length {A B : Type} (xs : list A) (ys : list B) :
  length (zip xs ys) = Nat.min (length xs) (length ys).
Proof.
  revert ys; induction xs as [|x xs IH]; intros [|y ys]; simpl; trivial.
  now rewrite IH.
Qed.

(** The loop keeps the two running products apart: each is the left fold
    of its own factors. *)
Lemma loop_products (items : list ((T * T) * bool)) (a b : T) :
  fold_left loop_body items (a, b) =
  (fold_left num_mul
     (map (fun item => factor_d
        {| sensitivity := fst (fst item);
           false_positive_rate := snd (fst item);
           outcome_positive := snd item |}) items) a,
   fold_left num_mul
     (map (fun item => factor_not_d
        {| sensitivity := fst (fst item);
           false_positive_rate := snd (fst item);
           outcome_positive := snd item |}) items) b).
Proof.
  revert a b; induction items as [|[[s f] res] items IH]; intros a b.
  - reflexivity.
  - simpl fold_left at 1.
    destruct res; simpl loop_body; rewrite IH; reflexivity.
Qed.

Lemma likelihoods_products (tests : list (T * T)) (results : list bool) :
  likelihoods tests results =
  (likelihood_d (evidence_list tests results),
   likelihood_not_d (evidence_list tests results)).
Proof.
  unfold likelihoods, likelihood_d, likelihood_not_d, product, evidence_list.
  rewrite loop_products, !map_map. reflexivity.
Qed.

(** [update], case by case, in the words of the fusion rule. *)
Lemma update_cases (self : BayesianDiagnosis T)
    (tests : list (T * T)) (results : list bool) (p_d : T) :
  getitem_last (posterior_history self) = Return p_d ->
  update self tests results =
  let ev := evidence_list tests results in
  if num_is_zero (p_evidence p_d ev)
  then (Raise ZeroDivisionError, self)
  else (Return (bayes_posterior p_d ev),
        append_posterior self (bayes_posterior p_d ev)).
Proof.
  intros Hlast. unfold update. rewrite Hlast, likelihoods_products.
  cbv zeta. unfold truediv, bayes_posterior, p_evidence.
  destruct (num_is_zero _); reflexivity.
Qed.

Lemma update_empty_history (self : BayesianDiagnosis T)
    (tests : list (T * T)) (results : list bool) :
  posterior_history self = [] ->
  update self tests results = (Raise IndexError, self).
Proof. intros E. unfold update. rewrite E. reflexivity. Qed.

Lemma getitem_last_cases {A : Type} (l : list A) :
  (l = [] /\ getitem_last l = Raise IndexError) \/
  (exists x, getitem_last l = Return x /\ In x l).
Proof.
  induction l as [|x l IH]; [left; split; reflexivity|right].
  destruct IH as [[-> _]|[y [E Hy]]].
  - exists x. split; [reflexivity|now left].
  - exists y. split; [|now right].
    destruct l; [destruct Hy|exact E].
Qed.

Lemma getitem_last_app {A : Type} (l : list A) (x : A) :
  getitem_last (l ++ [x]) = Return x.
Proof.
  induction l as [|y l IH]; [reflexivity|].
  simpl app. destruct (l ++ [x]) eqn:E.
  - destruct l; discriminate E.
  - exact IH.
Qed.

(** A call either fails and leaves the instance as it was, or returns a
    value and appends exactly that value. *)
Lemma update_outcome (self : BayesianDiagnosis T)
    (tests : list (T * T)) (results : list bool) :
  (exists e, (e = ZeroDivisionError \/ e = IndexError) /\
             update self tests results = (Raise e, self)) \/
  (exists posterior,
     update self tests results =
     (Return posterior, append_posterior self posterior)).
Proof.
  destruct (getitem_last_cases (posterior_history self)) as [[E _]|[p [E _]]].
  - left. exists IndexError. split; [now right|].
    now apply update_empty_history.
  - rewrite (update_cases _ _ _ _ E). cbv zeta.
    destruct (num_is_zero _).
    + left. exists ZeroDivisionError. split; [now left|reflexivity].
    + right. eexists. reflexivity.
Qed.

(** C1. Whenever [update] returns, what it returns is
    [(p_d * likelihood_d) / (p_d * likelihood_d + (1 - p_d) * likelihood_not_d)]
    with [p_d = history[-1]] and the two likelihoods the left-to-right
    products over the evidence items; and it does return, appending that
    value, whenever the denominator is not zero. *)
Theorem update_returns_bayes_posterior (self : BayesianDiagnosis T)
    (tests : list (T * T)) (results : list bool) (p_d : T) :
  getitem_last (posterior_history self) = Return p_d ->
  (num_is_zero (p_evidence p_d (evidence_list tests results)) = false ->
   update self tests results =
   (Return (bayes_posterior p_d (evidence_list tests results)),
    append_posterior self
      (bayes_posterior p_d (evidence_list tests results)))) /\
  (forall posterior self',
     update self tests results = (Return posterior, self') ->
     posterior = bayes_posterior p_d (evidence_list tests results)).
Proof.
  intros Hlast. rewrite (update_cases _ _ _ _ Hlast). cbv zeta. split.
  - intros ->. reflexivity.
  - intros posterior self'. destruct (num_is_zero _); intros E.
    + discriminate E.
    + now injection E as <- _.
Qed.

(** C2, amended.  When the total evidence probability computes to exactly
    zero, [update] raises the built-in [ZeroDivisionError] and leaves the
    instance, its history included, as it was. *)
Theorem zero_evidence_raises_ZeroDivisionError (self : BayesianDiagnosis T)
    (tests : list (T * T)) (results : list bool) (p_d : T) :
  getitem_last (posterior_history self) = Return p_d ->
  num_is_zero (p_evidence p_d (evidence_list tests results)) = true ->
  update self tests results = (Raise ZeroDivisionError, self).
Proof.
  intros Hlast Hz. rewrite (update_cases _ _ _ _ Hlast). cbv zeta.
  now rewrite Hz.
Qed.

(** C5. A call that returns makes the history one element longer, however
    many evidence items it fused; a call that raises leaves its length as
    it was. *)
Theorem update_history_length (self : BayesianDiagnosis T)
    (tests : list (T * T)) (results : list bool) :
  match fst (update self tests results) with
  | Return _ =>
      length (posterior_history (snd (update self tests results))) =
      S (length (posterior_history self))
  | Raise _ =>
      length (posterior_history (snd (update self tests results))) =
      length (posterior_history self)
  end.
Proof.
  destruct (update_outcome self tests results) as [[e [_ ->]]|[p ->]]; simpl.
  - reflexivity.
  - rewrite length_app. simpl. lia.
Qed.

(** C6, amended.  With no evidence item to fuse, both likelihoods stay [1]
    and [update] goes on like any other call: it divides [p_d * 1] by
    [p_d * 1 + (1 - p_d) * 1], returns the quotient and appends it, or
    raises [ZeroDivisionError] when that sum is zero. *)
Theorem update_empty_evidence (self : BayesianDiagnosis T)
    (tests : list (T * T)) (results : list bool) (p_d : T) :
  getitem_last (posterior_history self) = Return p_d ->
  tests = [] \/ results = [] ->
  update self tests results =
  if num_is_zero (p_d * 1 + (1 - p_d) * 1)
  then (Raise ZeroDivisionError, self)
  else (Return (num_quot (p_d * 1) (p_d * 1 + (1 - p_d) * 1)),
        append_posterior self (num_quot (p_d * 1) (p_d * 1 + (1 - p_d) * 1))).
Proof.
  intros Hlast Hempty. rewrite (update_cases _ _ _ _ Hlast).
  assert (evidence_list tests results = []) as ->.
  { unfold evidence_list. destruct Hempty as [-> | ->]; [reflexivity|].
    destruct tests; reflexivity. }
  reflexivity.
Qed.

(** C7, amended.  Construction checks nothing: for every prior, inside
    [[0,1]] or not, it succeeds and stores the value as [prior] and as the
    one element of the history; and no later [update] raises
    [InvalidProbabilityError] either. *)
Theorem construction_never_raises :
  (forall prior0 : T,
     __init__ prior0 =
     Return {| prior := prior0; posterior_history := [prior0] |}) /\
  (forall (self : BayesianDiagnosis T) tests results,
     fst (update self tests results) <> Raise InvalidProbabilityError).
Proof.
  split; [reflexivity|].
  intros self tests results.
  destruct (update_outcome self tests results) as [[e [[-> | ->] ->]]|[p ->]];
    simpl; discriminate.
Qed.

(** C10, amended.  Sequences of different lengths raise no error of their
    own: the call is the call on the first [min(len(tests), len(results))]
    items of each.  It returns the posterior of these pairs and appends it,
    unless their evidence probability is zero, in which case it raises
    [ZeroDivisionError] and appends nothing. *)
Theorem update_truncates_to_shorter (self : BayesianDiagnosis T)
    (tests : list (T * T)) (results : list bool) (p_d : T) :
  getitem_last (posterior_history self) = Return p_d ->
  let n := Nat.min (length tests) (length results) in
  let ev := evidence_list (firstn n tests) (firstn n results) in
  length ev = n /\
  update self tests results = update self (firstn n tests) (firstn n results) /\
  update self tests results =
  if num_is_zero (p_evidence p_d ev)
  then (Raise ZeroDivisionError, self)
  else (Return (bayes_posterior p_d ev),
        append_posterior self (bayes_posterior p_d ev)).
Proof.
  intros Hlast n ev.
  assert (evidence_list tests results = ev) as Hev.
  { unfold ev, evidence_list, n. now rewrite <- zip_firstn. }
  split; [|split].
  - rewrite <- Hev. unfold evidence_list. rewrite length_map. apply zip_length.
  - rewrite !(update_cases _ _ _ _ Hlast). cbv zeta. fold ev. now rewrite Hev.
  - rewrite (update_cases _ _ _ _ Hlast). cbv zeta. now rewrite Hev.
Qed.

End Properties.

(** ** The range of the history *)

Section Range.

Context {T : Type} `{PyNumber T} `{!UnitIntervalLaws T}.
Local Open Scope py_scope.

Lemma product_in_unit (l : list T) (a : T) :
  in_unit a = true ->
  Forall (fun x => in_unit x = true) l ->
  in_unit (fold_left num_mul l a) = true.
Proof.
  intros Ha Hl. revert a Ha.
  induction Hl as [|x l Hx _ IH]; intros a Ha; simpl; trivial.
  apply IH. now apply unit_mul.
Qed.

Lemma factors_in_unit (tests : list (T * T)) (results : list bool) :
  valid_tests tests ->
  Forall (fun x => in_unit x = true)
         (map factor_d (evidence_list tests results)) /\
  Forall (fun x => in_unit x = true)
         (map factor_not_d (evidence_list tests results)).
Proof.
  intros Hv. revert results.
  induction Hv as [|[s f] tests [Hs Hf] _ IH]; intros results.
  - split; constructor.
  - destruct results as [|res results]; [split; constructor|].
    destruct (IH results) as [IHd IHn].
    unfold evidence_list; simpl.
    split; constructor; trivial; simpl in Hs, Hf.
    + unfold factor_d; simpl. destruct res; [exact Hs|now apply unit_sub].
    + unfold factor_not_d; simpl. destruct res; [exact Hf|now apply unit_sub].
Qed.

(** One call keeps every element of the history inside [[0,1]]. *)
Lemma update_keeps_range (self : BayesianDiagnosis T)
    (tests : list (T * T)) (results : list bool) :
  Forall (fun x => in_unit x = true) (posterior_history self) ->
  valid_tests tests ->
  Forall (fun x => in_unit x = true)
         (posterior_history (snd (update self tests results))).
Proof.
  intros Hhist Hv.
  destruct (getitem_last_cases (posterior_history self)) as [[E _]|[p [E Hin]]].
  - now rewrite (update_empty_history _ _ _ E).
  - rewrite (update_cases _ _ _ _ E). cbv zeta.
    destruct (num_is_zero _) eqn:Hz; simpl; trivial.
    apply Forall_app. split; trivial.
    constructor; [|constructor].
    assert (Hp : in_unit p = true)
      by (rewrite Forall_forall in Hhist; now apply Hhist).
    destruct (factors_in_unit tests results Hv) as [Hd Hn].
    unfold bayes_posterior, p_evidence in *.
    apply unit_quot; trivial.
    + apply unit_mul; trivial. apply product_in_unit; trivial. apply unit_one.
    + apply unit_mul; [now apply unit_sub|].
      apply product_in_unit; trivial. apply unit_one.
Qed.

(** C3. From a prior in [[0,1]], after any sequence of [update] calls whose
    test rates lie in [[0,1]], every element of the history lies in
    [[0,1]]. *)
Theorem history_stays_in_unit_interval (prior0 : T)
    (self : BayesianDiagnosis T)
    (calls : list (list (T * T) * list bool)) :
  in_unit prior0 = true ->
  __init__ prior0 = Return self ->
  Forall (fun call => valid_tests (fst call)) calls ->
  Forall (fun x => in_unit x = true)
         (posterior_history (run_updates self calls)).
Proof.
  intros Hp Hinit Hcalls.
  assert (Hself : Forall (fun x => in_unit x = true) (posterior_history self)).
  { injection Hinit as <-. simpl. now constructor. }
  clear Hinit. revert self Hself.
  induction Hcalls as [|[tests results] calls Hv _ IH]; intros self Hself.
  - exact Hself.
  - simpl. apply IH. now apply update_keeps_range.
Qed.

End Range.

(** ** Exact arithmetic *)

Section Fractions.

Local Open Scope Qc_scope.

Lemma fraction_is_zero (x : Qc) : num_is_zero x = true <-> x = 0.
Proof.
  simpl. split.
  - apply Qc_eq_bool_correct.
  - intros ->. reflexivity.
Qed.

Lemma fraction_not_zero (x : Qc) : num_is_zero x = false <-> x <> 0.
Proof.
  rewrite <- fraction_is_zero. destruct (num_is_zero x); split; congruence.
Qed.

Lemma fraction_in_unit (x : Qc) : in_unit x = true <-> 0 <= x /\ x <= 1.
Proof.
  unfold in_unit. simpl. rewrite andb_true_iff, !Qle_bool_iff. reflexivity.
Qed.

Lemma fraction_quot_in_unit (a c : Qc) :
  0 <= a -> a <= c -> c <> 0 -> 0 <= a / c /\ a / c <= 1.
Proof.
  intros Ha Hac Hc.
  assert (Hpos : 0 < c).
  { destruct (Qcle_lt_or_eq 0 c) as [Hlt|Heq]; trivial.
    - now apply Qcle_trans with a.
    - now elim Hc. }
  assert (Hinv : 0 <= / c).
  { apply Qcmult_lt_0_le_reg_r with c; trivial.
    rewrite Qcmult_0_l, Qcmult_inv_l; [discriminate|exact Hc]. }
  unfold Qcdiv. split.
  - rewrite <- (Qcmult_0_l (/ c)). now apply Qcmult_le_compat_r.
  - rewrite <- (Qcmult_inv_r c Hc). now apply Qcmult_le_compat_r.
Qed.

#[export] Instance fraction_unit_laws : UnitIntervalLaws Qc.
Proof.
  split.
  - reflexivity.
  - intros x. rewrite !fraction_in_unit. simpl. intros [H0 H1]. split.
    + now apply Qcle_minus_iff in H1.
    + apply Qcle_minus_iff. unfold Qcminus.
      replace (1 + - (1 + - x)) with x by ring. exact H0.
  - intros x y. rewrite !fraction_in_unit. simpl. intros [Hx0 Hx1] [Hy0 Hy1].
    split.
    + rewrite <- (Qcmult_0_l y). now apply Qcmult_le_compat_r.
    + apply Qcle_trans with (1 * y).
      * now apply Qcmult_le_compat_r.
      * now rewrite Qcmult_1_l.
  - intros a b. rewrite !fraction_in_unit, fraction_not_zero. simpl.
    intros [Ha0 _] [Hb0 _] Hz.
    apply fraction_quot_in_unit; trivial.
    rewrite <- (Qcplus_0_r a) at 1. rewrite !(Qcplus_comm a).
    now apply Qcplus_le_compat; [|apply Qcle_refl].
Qed.

(** The algebra behind the two identities below. *)
Lemma null_test_algebra (p l : Qc) :
  l <> 0 ->
  p * (1 * l) + (1 - p) * (1 * l) = l /\ p * (1 * l) / l = p.
Proof. intros Hl. split; [ring|field; exact Hl]. Qed.

Lemma two_step_algebra (a b d2 n2 : Qc) :
  a + b <> 0 ->
  a * d2 + b * n2 <> 0 ->
  let p1 := a / (a + b) in
  p1 * (1 * d2) + (1 - p1) * (1 * n2) <> 0 /\
  p1 * (1 * d2) / (p1 * (1 * d2) + (1 - p1) * (1 * n2)) =
  a * d2 / (a * d2 + b * n2).
Proof.
  intros H1 H12 p1.
  assert (HE2 : p1 * (1 * d2) + (1 - p1) * (1 * n2) =
                (a * d2 + b * n2) / (a + b))
    by (unfold p1; field; exact H1).
  rewrite HE2. split.
  - intros Hq. apply H12.
    rewrite <- (Qcmult_div_r (a * d2 + b * n2) (a + b) H1), Hq. ring.
  - unfold p1. field. split; assumption.
Qed.

(** The null test in exact arithmetic: a single test whose two rates are
    equal, observed with an outcome of non-zero likelihood, returns exactly
    the value the history ended with. *)
Lemma null_test_identity_exact (self : BayesianDiagnosis Qc)
    (rate : Qc) (res : bool) (p_d : Qc) :
  getitem_last (posterior_history self) = Return p_d ->
  (if res then rate else 1 - rate) <> 0 ->
  update self [(rate, rate)] [res] = (Return p_d, append_posterior self p_d).
Proof.
  intros Hlast Hl. rewrite (update_cases _ _ _ _ Hlast). cbv zeta.
  unfold bayes_posterior, p_evidence, likelihood_d, likelihood_not_d, product,
    evidence_list, factor_d, factor_not_d.
  simpl. destruct (null_test_algebra p_d _ Hl) as [E Q].
  rewrite E, Q.
  apply fraction_not_zero in Hl. simpl in Hl. now rewrite Hl.
Qed.

(** Two tests in exact arithmetic: when neither the first item alone
    nor the two items together have evidence probability zero, the two
    single-item calls in sequence and the one two-item call all return, and
    they end on the same posterior. *)
Theorem batched_equals_sequential_exact (self : BayesianDiagnosis Qc)
    (t1 t2 : Qc * Qc) (r1 r2 : bool) (p_d : Qc) :
  getitem_last (posterior_history self) = Return p_d ->
  p_evidence p_d (evidence_list [t1] [r1]) <> 0 ->
  p_evidence p_d (evidence_list [t1; t2] [r1; r2]) <> 0 ->
  exists p1 p2 : Qc,
    update self [t1] [r1] = (Return p1, append_posterior self p1) /\
    update (append_posterior self p1) [t2] [r2] =
      (Return p2, append_posterior (append_posterior self p1) p2) /\
    update self [t1; t2] [r1; r2] = (Return p2, append_posterior self p2).
Proof.
  intros Hlast H1 H12.
  exists (bayes_posterior p_d (evidence_list [t1] [r1])),
         (bayes_posterior p_d (evidence_list [t1; t2] [r1; r2])).
  assert (Hlast1 : getitem_last
            (posterior_history
               (append_posterior self
                  (bayes_posterior p_d (evidence_list [t1] [r1])))) =
          Return (bayes_posterior p_d (evidence_list [t1] [r1])))
    by apply getitem_last_app.
  rewrite !(update_cases _ _ _ _ Hlast), (update_cases _ _ _ _ Hlast1).
  cbv zeta.
  destruct t1 as [s1 f1], t2 as [s2 f2].
  unfold bayes_posterior, p_evidence, likelihood_d, likelihood_not_d, product,
    evidence_list, factor_d, factor_not_d in *.
  simpl in *.
  set (d1 := if r1 then s1 else 1 - s1) in *.
  set (n1 := if r1 then f1 else 1 - f1) in *.
  set (d2 := if r2 then s2 else 1 - s2) in *.
  set (n2 := if r2 then f2 else 1 - f2) in *.
  assert (Ed : p_d * (1 * d1 * d2) = p_d * (1 * d1) * d2) by ring.
  assert (En : (1 - p_d) * (1 * n1 * n2) = (1 - p_d) * (1 * n1) * n2) by ring.
  rewrite Ed, En in *.
  destruct (two_step_algebra _ _ d2 n2 H1 H12) as [HE2 Hp2].
  cbv zeta in HE2, Hp2. rewrite Hp2.
  apply fraction_not_zero in H1, H12, HE2. simpl in H1, H12, HE2.
  rewrite H1, H12, HE2. repeat split; reflexivity.
Qed.

End Fractions.

(** ** Binary64 arithmetic

    What rounding to nearest does to the operations of [update], from the
    specification of the primitive floats.  First the range: the product
    of two numbers of [[0,1]], the complement [1 - x] of one, and the
    quotient [a / (a + b)] of two stay inside the interval.  Then the
    error: in the normal range each operation returns its exact result up
    to a factor of [1 + 2^-52]. *)

Module Binary64.

Local Open Scope Z_scope.

(** The exponent function of binary64: 53 bits of precision, exponents
    from -1074. *)
Lemma fexp_eq (e : Z) : fexp prec emax e = Z.max (e - 53) (-1074).
Proof. reflexivity. Qed.

Lemma digits2_pos_bounds (p : positive) :
  2 ^ (Zpos (digits2_pos p) - 1) <= Zpos p < 2 ^ Zpos (digits2_pos p).
Proof.
  induction p as [p IH|p IH|]; simpl digits2_pos.
  - rewrite Pos2Z.inj_succ, (Pos2Z.inj_xI p).
    replace (Z.succ (Zpos (digits2_pos p)) - 1)
      with (Z.succ (Zpos (digits2_pos p) - 1)) by lia.
    rewrite !Z.pow_succ_r by lia. lia.
  - rewrite Pos2Z.inj_succ, (Pos2Z.inj_xO p).
    replace (Z.succ (Zpos (digits2_pos p)) - 1)
      with (Z.succ (Zpos (digits2_pos p) - 1)) by lia.
    rewrite !Z.pow_succ_r by lia. lia.
  - simpl. lia.
Qed.

Lemma Zdigits2_bounds (m : Z) :
  0 < m -> 2 ^ (Zdigits2 m - 1) <= m < 2 ^ Zdigits2 m.
Proof.
  destruct m as [|p|p]; try lia. intros _. apply digits2_pos_bounds.
Qed.

(** exponent comparisons through powers of two *)
Lemma pow2_lt_exp (a b : Z) : 0 <= b -> 2 ^ a < 2 ^ b -> a < b.
Proof.
  intros Hb H. destruct (Z_lt_le_dec a b) as [|Hle]; trivial.
  apply (Z.pow_le_mono_r 2) in Hle; lia.
Qed.

Lemma pow2_pos (a : Z) : 0 <= a -> 0 < 2 ^ a.
Proof. intros. apply Z.pow_pos_nonneg; lia. Qed.

(** canonical mantissas *)
Lemma bounded_facts (m : positive) (e : Z) :
  bounded prec emax m e = true ->
  -1074 <= e <= 971 /\ Zpos (digits2_pos m) <= 53 /\
  (-1074 < e -> Zpos (digits2_pos m) = 53) /\
  e = Z.max (Zpos (digits2_pos m) + e - 53) (-1074).
Proof.
  unfold bounded, canonical_mantissa. rewrite andb_true_iff, Z.eqb_eq, Z.leb_le.
  rewrite fexp_eq. change (emax - prec) with 971. lia.
Qed.

Lemma bounded_mantissa (m : positive) (e : Z) :
  bounded prec emax m e = true ->
  Zpos m < 2 ^ 53 /\ (-1074 < e -> 2 ^ 52 <= Zpos m).
Proof.
  intros Hb. destruct (bounded_facts m e Hb) as (_ & Hd & Hn & _).
  pose proof (digits2_pos_bounds m) as [Hlo Hhi]. split.
  - apply Z.lt_le_trans with (1 := Hhi). apply Z.pow_le_mono_r; lia.
  - intros He. rewrite (Hn He) in Hlo. exact Hlo.
Qed.

(** shl_align *)
Lemma iter_xO (d : positive) (m : positive) :
  Zpos (Pos.iter xO m d) = Zpos m * 2 ^ Zpos d.
Proof.
  induction d as [|d IH] using Pos.peano_ind.
  - simpl. lia.
  - rewrite Pos.iter_succ, Pos2Z.inj_succ, Z.pow_succ_r by lia.
    rewrite (Pos2Z.inj_xO (Pos.iter xO m d)), IH. ring.
Qed.

Lemma shl_align_spec (mx : positive) (ex ex' : Z) :
  let '(m, e) := shl_align mx ex ex' in
  e = Z.min ex ex' /\ Zpos m = Zpos mx * 2 ^ (ex - e).
Proof.
  unfold shl_align. destruct (ex' - ex) as [|d|d] eqn:E.
  - split; [lia|]. replace (ex - ex) with 0 by lia. simpl. lia.
  - split; [lia|]. replace (ex - ex) with 0 by lia. simpl. lia.
  - split; [lia|]. rewrite iter_xO. f_equal. f_equal. lia.
Qed.

(** right shifts *)
Lemma iter_pos_invariant {A : Type} (f : A -> A) (P : Z -> A -> Prop) :
  (forall k x, P k x -> P (k + 1) (f x)) ->
  forall (p : positive) (k : Z) (x : A),
    P k x -> P (k + Zpos p) (iter_pos f p x).
Proof.
  intros Hstep. induction p as [p IH|p IH|]; intros k x Hx; simpl iter_pos.
  - replace (k + Zpos p~1) with (k + 1 + Zpos p + Zpos p) by lia.
    apply IH, IH, Hstep, Hx.
  - replace (k + Zpos p~0) with (k + Zpos p + Zpos p) by lia.
    apply IH, IH, Hx.
  - apply Hstep, Hx.
Qed.

Lemma shr_1_fields (mrs : shr_record) :
  0 <= shr_m mrs ->
  shr_m (shr_1 mrs) = shr_m mrs / 2 /\
  shr_r (shr_1 mrs) = Z.odd (shr_m mrs) /\
  shr_s (shr_1 mrs) = shr_r mrs || shr_s mrs.
Proof.
  destruct mrs as [m r s]. simpl shr_m. intros Hm.
  destruct m as [|[p|p|]|p]; try lia; simpl; repeat split.
  - rewrite (Pos2Z.inj_xI p). apply Z.div_unique with 1; lia.
  - rewrite (Pos2Z.inj_xO p). apply Z.div_unique with 0; lia.
Qed.

Lemma iter_shr_1_floor (p : positive) (mrs : shr_record) :
  0 <= shr_m mrs ->
  shr_m (iter_pos shr_1 p mrs) = shr_m mrs / 2 ^ Zpos p.
Proof.
  intros Hm.
  pose (P := fun (k : Z) (x : shr_record) =>
               0 <= k /\ 0 <= shr_m x /\ shr_m x = shr_m mrs / 2 ^ k).
  assert (H0 : P 0 mrs).
  { unfold P. rewrite Z.pow_0_r, Z.div_1_r. lia. }
  apply (iter_pos_invariant shr_1 P) with (p := p) in H0.
  - apply H0.
  - clear. unfold P. intros k x (Hk & Hx & E).
    destruct (shr_1_fields x Hx) as (Em & _). rewrite Em.
    split; [lia|]. split; [apply Z.div_pos; lia|].
    rewrite E, Z.div_div by (try apply pow2_pos; lia).
    rewrite (Z.mul_comm (2 ^ k) 2), <- Z.pow_succ_r by lia. reflexivity.
Qed.

Lemma shr_1_below_one (mrs : shr_record) (e : Z) :
  below_one mrs e -> below_one (shr_1 mrs) (e + 1).
Proof.
  intros [Hm Hb]. destruct (shr_1_fields mrs Hm) as (Em & Er & Es).
  split; [rewrite Em; apply Z.div_pos; lia|].
  intros He. destruct Hb as [Hle Hlt]; [lia|].
  unfold inexact in *. rewrite Em, Er, Es.
  assert (E2 : 2 ^ (- e) = 2 * 2 ^ (- (e + 1))).
  { rewrite <- Z.pow_succ_r by lia. f_equal. lia. }
  rewrite E2 in *. set (K := 2 ^ (- (e + 1))) in *.
  pose proof (Z.div_mod (shr_m mrs) 2 ltac:(lia)) as Hdm.
  pose proof (Z.mod_pos_bound (shr_m mrs) 2 ltac:(lia)) as Hmod.
  split; [lia|].
  rewrite orb_true_iff. intros [Hodd|Hrs].
  - rewrite Zmod_odd, Hodd in Hdm. lia.
  - specialize (Hlt Hrs). lia.
Qed.

Lemma iter_shr_1_below_one (p : positive) (mrs : shr_record) (e : Z) :
  below_one mrs e -> below_one (iter_pos shr_1 p mrs) (e + Zpos p).
Proof.
  apply (iter_pos_invariant shr_1 (fun k x => below_one x k)).
  intros k x. apply shr_1_below_one.
Qed.

Lemma shr_record_of_loc_m (m : Z) (l : location) :
  shr_m (shr_record_of_loc m l) = m.
Proof. destruct l as [|[]]; reflexivity. Qed.

Lemma shr_record_of_loc_inexact (m : Z) (l : location) :
  inexact (shr_record_of_loc m l) = true -> l <> loc_Exact.
Proof. destruct l as [|[]]; unfold inexact; simpl; congruence. Qed.

(** [shr_fexp] keeps a value that is at most one at most one *)
Lemma shr_fexp_below_one (m e : Z) (l : location) :
  0 <= m -> e <= 0 -> m <= 2 ^ (- e) ->
  (l <> loc_Exact -> m < 2 ^ (- e)) ->
  snd (shr_fexp prec emax m e l) <= 0 /\
  below_one (fst (shr_fexp prec emax m e l)) (snd (shr_fexp prec emax m e l)).
Proof.
  intros Hm He Hle Hlt.
  assert (Hstart : below_one (shr_record_of_loc m l) e).
  { split; rewrite shr_record_of_loc_m; trivial. intros _. split; trivial.
    intros Hi. apply Hlt. now apply shr_record_of_loc_inexact in Hi. }
  unfold shr_fexp, shr. rewrite fexp_eq.
  destruct (Z.max (Zdigits2 m + e - 53) (-1074) - e) as [|p|p] eqn:En;
    simpl fst; simpl snd; try (split; trivial).
  - assert (Hd : Zdigits2 m + e - 53 <= 0).
    { destruct (Z.eq_dec m 0) as [->|Hnz]; [simpl; lia|].
      destruct (Zdigits2_bounds m ltac:(lia)) as [Hlo _].
      assert (2 ^ (Zdigits2 m - 1) < 2 ^ (- e + 1)).
      { rewrite Z.pow_add_r by lia. change (2 ^ 1) with 2.
        pose proof (pow2_pos (- e) ltac:(lia)). lia. }
      apply pow2_lt_exp in H; lia. }
    lia.
  - now apply iter_shr_1_below_one.
Qed.

(** [shr_fexp] never falls below a representable number under its input *)
Lemma shr_fexp_lower (m e : Z) (l : location) (ma : positive) (ea e0 : Z) :
  0 <= m -> bounded prec emax ma ea = true -> e0 <= e -> e0 <= ea ->
  Zpos ma * 2 ^ (ea - e0) <= m * 2 ^ (e - e0) ->
  0 <= shr_m (fst (shr_fexp prec emax m e l)) /\
  e <= snd (shr_fexp prec emax m e l) /\
  Zpos ma * 2 ^ (ea - e0) <=
  shr_m (fst (shr_fexp prec emax m e l)) *
  2 ^ (snd (shr_fexp prec emax m e l) - e0).
Proof.
  intros Hm Hb He0 Hea Hle.
  unfold shr_fexp, shr. rewrite fexp_eq.
  destruct (Z.max (Zdigits2 m + e - 53) (-1074) - e) as [|p|p] eqn:En;
    simpl fst; simpl snd; rewrite ?shr_record_of_loc_m; try lia.
  rewrite iter_shr_1_floor, shr_record_of_loc_m
    by (rewrite shr_record_of_loc_m; lia).
  pose proof (pow2_pos (Zpos p) ltac:(lia)) as Hp.
  pose proof (pow2_pos (e - e0) ltac:(lia)) as Hee.
  pose proof (pow2_pos (ea - e0) ltac:(lia)) as Hae.
  split; [apply Z.div_pos; lia|]. split; [lia|].
  assert (Hmpos : 0 < m) by nia.
  assert (Esplit : 2 ^ (e + Zpos p - e0) = 2 ^ Zpos p * 2 ^ (e - e0)).
  { rewrite <- Z.pow_add_r by lia. f_equal. lia. }
  destruct (Z_le_gt_dec (e + Zpos p) ea) as [Hgrid|Hbig].
  - (* the lower number lies on the coarser grid *)
    assert (Ea : 2 ^ (ea - e0) =
                 2 ^ (ea - (e + Zpos p)) * 2 ^ (e + Zpos p - e0)).
    { rewrite <- Z.pow_add_r by lia. f_equal. lia. }
    set (K := Zpos ma * 2 ^ (ea - (e + Zpos p))).
    assert (HK : K * 2 ^ Zpos p <= m).
    { unfold K. rewrite Ea, Esplit in Hle. nia. }
    assert (K <= m / 2 ^ Zpos p).
    { apply Z.div_le_lower_bound; lia. }
    rewrite Ea. fold K.
    replace (Zpos ma * (2 ^ (ea - (e + Zpos p)) * 2 ^ (e + Zpos p - e0)))
      with (K * 2 ^ (e + Zpos p - e0)) by (unfold K; ring).
    apply Z.mul_le_mono_nonneg_r; [|assumption].
    apply Z.lt_le_incl, pow2_pos. lia.
  - (* the result has a larger exponent, hence a larger value *)
    destruct (bounded_facts ma ea Hb) as ((Hemin & _) & _).
    destruct (bounded_mantissa ma ea Hb) as (Hma & _).
    destruct (Zdigits2_bounds m Hmpos) as [Hlo _].
    assert (Ep : Zpos p = Zdigits2 m - 53) by lia.
    assert (H52 : 2 ^ 52 <= m / 2 ^ Zpos p).
    { apply Z.div_le_lower_bound; [lia|].
      rewrite <- Z.pow_add_r by lia.
      replace (Zpos p + 52) with (Zdigits2 m - 1) by lia. exact Hlo. }
    assert (Ee : 2 ^ (e + Zpos p - e0) = 2 ^ (e + Zpos p - ea) * 2 ^ (ea - e0)).
    { rewrite <- Z.pow_add_r by lia. f_equal. lia. }
    assert (Hq : 2 ^ 1 <= 2 ^ (e + Zpos p - ea))
      by (apply Z.pow_le_mono_r; lia).
    change (2 ^ 1) with 2 in Hq. change (2 ^ 53) with (2 * 2 ^ 52) in Hma.
    rewrite Ee.
    apply Z.le_trans with (2 * 2 ^ 52 * 2 ^ (ea - e0)).
    + apply Z.mul_le_mono_nonneg_r; lia.
    + rewrite Z.mul_assoc. apply Z.mul_le_mono_nonneg_r; [lia|]. nia.
Qed.

Lemma round_nearest_even_bounds (mrs : shr_record) :
  shr_m mrs <= round_nearest_even (shr_m mrs) (loc_of_shr_record mrs)
            <= shr_m mrs + 1 /\
  (round_nearest_even (shr_m mrs) (loc_of_shr_record mrs) <> shr_m mrs ->
   inexact mrs = true).
Proof.
  destruct mrs as [m [] []]; unfold inexact; simpl;
    try destruct (Z.even m); split; try lia; congruence.
Qed.

(** rounding a value that is at most one *)
Lemma binary_round_aux_below_one (sx : bool) (mx ex : Z) (lx : location) :
  0 <= mx -> ex <= 0 -> mx <= 2 ^ (- ex) ->
  (lx <> loc_Exact -> mx < 2 ^ (- ex)) ->
  binary_round_aux prec emax sx mx ex lx = S754_zero sx \/
  exists (m : positive) (e : Z),
    binary_round_aux prec emax sx mx ex lx = S754_finite sx m e /\
    e <= 0 /\ Zpos m <= 2 ^ (- e).
Proof.
  intros Hm He Hle Hlt. unfold binary_round_aux.
  destruct (shr_fexp_below_one mx ex lx Hm He Hle Hlt) as [He1 [Hm1 Hb1]].
  destruct (shr_fexp prec emax mx ex lx) as [mrs1 e1]. simpl fst in *.
  simpl snd in *. destruct (Hb1 He1) as [Hle1 Hlt1].
  destruct (round_nearest_even_bounds mrs1) as [[Hr1 Hr2] Hr3].
  set (mr := round_nearest_even (shr_m mrs1) (loc_of_shr_record mrs1)) in *.
  assert (Hmr : mr <= 2 ^ (- e1)).
  { destruct (Z.eq_dec mr (shr_m mrs1)) as [->|Hne]; trivial.
    specialize (Hlt1 (Hr3 Hne)). lia. }
  destruct (shr_fexp_below_one mr e1 loc_Exact) as [He2 [Hm2 Hb2]];
    try lia; try congruence.
  destruct (shr_fexp prec emax mr e1 loc_Exact) as [mrs2 e2]. simpl fst in *.
  simpl snd in *. destruct (Hb2 He2) as [Hle2 _].
  destruct (shr_m mrs2) as [|m2|m2]; [now left| |lia].
  right. exists m2, e2.
  assert (Hov : (e2 <=? emax - prec) = true) by (apply Z.leb_le;
    change (emax - prec) with 971; lia).
  rewrite Hov. repeat split; trivial.
Qed.

(** rounding a value that is at least a representable number *)
Lemma binary_round_aux_lower (sx : bool) (mx ex : Z) (lx : location)
    (ma : positive) (ea e0 : Z) :
  0 <= mx -> bounded prec emax ma ea = true -> e0 <= ex -> e0 <= ea ->
  Zpos ma * 2 ^ (ea - e0) <= mx * 2 ^ (ex - e0) ->
  binary_round_aux prec emax sx mx ex lx = S754_infinity sx \/
  exists (m : positive) (e : Z),
    binary_round_aux prec emax sx mx ex lx = S754_finite sx m e /\
    e0 <= e /\ Zpos ma * 2 ^ (ea - e0) <= Zpos m * 2 ^ (e - e0).
Proof.
  intros Hm Hb He0 Hea Hle. unfold binary_round_aux.
  destruct (shr_fexp_lower mx ex lx ma ea e0 Hm Hb He0 Hea Hle)
    as (Hm1 & He1 & Hle1).
  destruct (shr_fexp prec emax mx ex lx) as [mrs1 e1]. simpl fst in *.
  simpl snd in *.
  destruct (round_nearest_even_bounds mrs1) as [[Hr1 Hr2] _].
  set (mr := round_nearest_even (shr_m mrs1) (loc_of_shr_record mrs1)) in *.
  assert (Hle1' : Zpos ma * 2 ^ (ea - e0) <= mr * 2 ^ (e1 - e0)).
  { apply Z.le_trans with (1 := Hle1).
    apply Z.mul_le_mono_nonneg_r; [|lia].
    apply Z.lt_le_incl, pow2_pos. lia. }
  destruct (shr_fexp_lower mr e1 loc_Exact ma ea e0) as (Hm2 & He2 & Hle2);
    try lia; trivial.
  destruct (shr_fexp prec emax mr e1 loc_Exact) as [mrs2 e2]. simpl fst in *.
  simpl snd in *.
  pose proof (pow2_pos (ea - e0) ltac:(lia)) as Hae.
  destruct (shr_m mrs2) as [|m2|m2]; try lia.
  destruct (e2 <=? emax - prec); [right|now left].
  exists m2, e2. repeat split; trivial. lia.
Qed.

(** comparison of two positive finite numbers *)
Lemma SFleb_finite (m1 : positive) (e1 : Z) (m2 : positive) (e2 : Z) :
  SFleb (S754_finite false m1 e1) (S754_finite false m2 e2) = true <->
  e1 < e2 \/ (e1 = e2 /\ Zpos m1 <= Zpos m2).
Proof.
  unfold SFleb. simpl.
  change (Pos.compare_cont Eq m1 m2) with (Pos.compare m1 m2).
  destruct (Z.compare_spec e1 e2) as [->|Hlt|Hgt].
  - destruct (Pos.compare_spec m1 m2) as [->|Hlt|Hgt].
    + split; [intros _; right; split; [reflexivity|lia]|reflexivity].
    + split; [intros _; right; split; [reflexivity|lia]|reflexivity].
    + split; [discriminate|intros [?|[_ ?]]; lia].
  - split; [intros _; now left|reflexivity].
  - split; [discriminate|intros [?|[? _]]; lia].
Qed.

(** a float of [[0,1]] is a zero or a positive number at most one *)
Lemma sf_in_unit_cases (x : spec_float) :
  valid_binary x = true -> sf_in_unit x = true ->
  (exists s, x = S754_zero s) \/
  (exists m e, x = S754_finite false m e /\ bounded prec emax m e = true /\
               e <= 0 /\ Zpos m <= 2 ^ (- e)).
Proof.
  unfold sf_in_unit. rewrite andb_true_iff.
  destruct x as [s|s| |s m e]; intros Hv [H0 H1].
  - left. now exists s.
  - destruct s; [discriminate H0|discriminate H1].
  - discriminate H0.
  - right. exists m, e. destruct s; [discriminate H0|].
    unfold SF_one in H1. apply SFleb_finite in H1.
    change (Zpos 4503599627370496) with (2 ^ 52) in H1.
    simpl valid_binary in Hv.
    destruct (bounded_mantissa m e Hv) as [Hm _].
    repeat split; trivial; [lia|].
    destruct H1 as [Hlt|[-> Hle]]; [|exact Hle].
    apply Z.lt_le_incl, Z.lt_le_trans with (1 := Hm).
    apply Z.pow_le_mono_r; lia.
Qed.

Lemma sf_in_unit_finite (m : positive) (e : Z) :
  bounded prec emax m e = true -> e <= 0 -> Zpos m <= 2 ^ (- e) ->
  sf_in_unit (S754_finite false m e) = true.
Proof.
  intros Hb He Hle. unfold sf_in_unit. apply andb_true_iff. split; trivial.
  unfold SF_one. apply SFleb_finite.
  change (Zpos 4503599627370496) with (2 ^ 52).
  destruct (bounded_facts m e Hb) as (_ & _ & _ & Hcanon).
  destruct (digits2_pos_bounds m) as [Hlo _].
  assert (Hd : Zpos (digits2_pos m) - 1 < - e + 1).
  { apply pow2_lt_exp; [lia|]. rewrite (Z.pow_add_r 2 (- e) 1) by lia.
    pose proof (pow2_pos (- e) ltac:(lia)). change (2 ^ 1) with 2. lia. }
  destruct (Z.eq_dec e (-52)) as [->|Hne]; [right|left; lia].
  split; trivial.
Qed.

(** order of values and order of exponents, for canonical mantissas *)
Lemma value_le_exponent (m1 : positive) (e1 : Z) (m2 : positive) (e2 e0 : Z) :
  bounded prec emax m1 e1 = true -> bounded prec emax m2 e2 = true ->
  e0 <= e1 -> e0 <= e2 ->
  Zpos m1 * 2 ^ (e1 - e0) <= Zpos m2 * 2 ^ (e2 - e0) ->
  e1 <= e2.
Proof.
  intros Hb1 Hb2 H1 H2 Hle.
  destruct (Z_le_gt_dec e1 e2) as [|Hgt]; trivial. exfalso.
  destruct (bounded_facts m2 e2 Hb2) as ((Hmin & _) & _).
  destruct (bounded_mantissa m1 e1 Hb1) as (_ & Hn1).
  destruct (bounded_mantissa m2 e2 Hb2) as (Hm2 & _).
  specialize (Hn1 ltac:(lia)).
  assert (E : 2 ^ (e1 - e0) = 2 ^ (e1 - e2) * 2 ^ (e2 - e0)).
  { rewrite <- Z.pow_add_r by lia. f_equal. lia. }
  assert (Hq : 2 ^ 1 <= 2 ^ (e1 - e2)) by (apply Z.pow_le_mono_r; lia).
  change (2 ^ 1) with 2 in Hq. change (2 ^ 53) with (2 * 2 ^ 52) in Hm2.
  pose proof (pow2_pos (e2 - e0) ltac:(lia)) as Hp.
  rewrite E, Z.mul_assoc in Hle.
  apply Z.mul_le_mono_pos_r in Hle; [|exact Hp]. nia.
Qed.

Lemma dyadic_le_base (m1 : positive) (e1 : Z) (m2 : positive) (e2 e0 : Z) :
  e0 <= e1 -> e0 <= e2 ->
  dyadic_le m1 e1 m2 e2 <->
  Zpos m1 * 2 ^ (e1 - e0) <= Zpos m2 * 2 ^ (e2 - e0).
Proof.
  intros H1 H2. unfold dyadic_le. set (k := Z.min e1 e2).
  assert (E1 : 2 ^ (e1 - e0) = 2 ^ (e1 - k) * 2 ^ (k - e0)).
  { rewrite <- Z.pow_add_r by lia. f_equal. lia. }
  assert (E2 : 2 ^ (e2 - e0) = 2 ^ (e2 - k) * 2 ^ (k - e0)).
  { rewrite <- Z.pow_add_r by lia. f_equal. lia. }
  pose proof (pow2_pos (k - e0) ltac:(lia)) as Hp.
  rewrite E1, E2, !Z.mul_assoc. split; intros H.
  - apply Z.mul_le_mono_nonneg_r; lia.
  - apply Z.mul_le_mono_pos_r in H; trivial.
Qed.

Lemma binary_round_below_one (sx : bool) (m : positive) (e : Z) :
  e <= 0 -> Zpos m <= 2 ^ (- e) ->
  binary_round prec emax sx m e = S754_zero sx \/
  exists (m' : positive) (e' : Z),
    binary_round prec emax sx m e = S754_finite sx m' e' /\
    e' <= 0 /\ Zpos m' <= 2 ^ (- e').
Proof.
  intros He Hle. unfold binary_round.
  pose proof (shl_align_spec m e (fexp prec emax (Zpos (digits2_pos m) + e)))
    as Hal.
  destruct (shl_align m e _) as [mz ez]. destruct Hal as [Ez Em].
  apply binary_round_aux_below_one; try lia; try congruence.
  rewrite Em. replace (- ez) with (- e + (e - ez)) by lia.
  rewrite Z.pow_add_r by lia.
  apply Z.mul_le_mono_nonneg_r; [|exact Hle].
  apply Z.lt_le_incl, pow2_pos. lia.
Qed.

Lemma binary_round_lower (sx : bool) (m : positive) (e : Z)
    (ma : positive) (ea : Z) :
  bounded prec emax ma ea = true -> e <= ea ->
  Zpos ma * 2 ^ (ea - e) <= Zpos m ->
  binary_round prec emax sx m e = S754_infinity sx \/
  exists (m' : positive) (e' : Z),
    binary_round prec emax sx m e = S754_finite sx m' e' /\
    dyadic_le ma ea m' e'.
Proof.
  intros Hb Hea Hle. unfold binary_round.
  pose proof (shl_align_spec m e (fexp prec emax (Zpos (digits2_pos m) + e)))
    as Hal.
  destruct (shl_align m e _) as [mz ez]. destruct Hal as [Ez Em].
  destruct (binary_round_aux_lower sx (Zpos mz) ez loc_Exact ma ea ez)
    as [Hinf|(m' & e' & E & He' & Hv)]; trivial; try lia.
  - rewrite Z.sub_diag, Z.mul_1_r, Em.
    replace (ea - ez) with (ea - e + (e - ez)) by lia.
    rewrite Z.pow_add_r, Z.mul_assoc by lia.
    apply Z.mul_le_mono_nonneg_r; [|exact Hle].
    apply Z.lt_le_incl, pow2_pos. lia.
  - now left.
  - right. exists m', e'. split; trivial.
    apply (dyadic_le_base ma ea m' e' ez); trivial. lia.
Qed.

(** *** The four operations of [update] on [[0,1]] *)

Lemma SFmul_in_unit (x y : spec_float) :
  valid_binary x = true -> valid_binary y = true ->
  sf_in_unit x = true -> sf_in_unit y = true ->
  valid_binary (SF64mul x y) = true ->
  sf_in_unit (SF64mul x y) = true.
Proof.
  intros Hvx Hvy Hx Hy.
  destruct (sf_in_unit_cases x Hvx Hx)
    as [[sx ->]|(mx & ex & -> & Hbx & Hex & Hmx)];
  destruct (sf_in_unit_cases y Hvy Hy)
    as [[sy ->]|(my & ey & -> & Hby & Hey & Hmy)];
    try (intros _; reflexivity).
  unfold SF64mul, SFmul. simpl xorb.
  destruct (binary_round_aux_below_one false (Zpos (mx * my)) (ex + ey)
              loc_Exact)
    as [->|(m & e & -> & He & Hm)]; try lia; try congruence.
  - rewrite Pos2Z.inj_mul. replace (- (ex + ey)) with (- ex + - ey) by lia.
    rewrite Z.pow_add_r by lia. apply Z.mul_le_mono_nonneg; lia.
  - intros _. reflexivity.
  - intros Hv. now apply sf_in_unit_finite.
Qed.

Lemma SFsub_one_in_unit (x : spec_float) :
  valid_binary x = true -> sf_in_unit x = true ->
  valid_binary (SF64sub SF_one x) = true ->
  sf_in_unit (SF64sub SF_one x) = true.
Proof.
  intros Hvx Hx.
  destruct (sf_in_unit_cases x Hvx Hx)
    as [[sx ->]|(mx & ex & -> & Hbx & Hex & Hmx)];
    [intros _; reflexivity|].
  unfold SF64sub, SFsub, SF_one. simpl cond_Zopp.
  set (ez := Z.min (-52) ex).
  pose proof (shl_align_spec 4503599627370496 (-52) ez) as H1.
  pose proof (shl_align_spec mx ex ez) as H2.
  destruct (shl_align 4503599627370496 (-52) ez) as [m1 e1].
  destruct (shl_align mx ex ez) as [m2 e2].
  destruct H1 as [E1 Em1], H2 as [E2 Em2]. simpl fst.
  assert (Hone : Zpos m1 = 2 ^ (- ez)).
  { rewrite Em1. change (Zpos 4503599627370496) with (2 ^ 52).
    rewrite <- Z.pow_add_r by lia. f_equal. lia. }
  assert (Hx2 : Zpos m2 <= 2 ^ (- ez)).
  { rewrite Em2. replace (- ez) with (- ex + (ex - e2)) by lia.
    rewrite Z.pow_add_r by lia. apply Z.mul_le_mono_nonneg_r; [|exact Hmx].
    apply Z.lt_le_incl, pow2_pos. lia. }
  destruct (Zpos m1 - Zpos m2) as [|d|d] eqn:Ed; try lia.
  - intros _. reflexivity.
  - unfold binary_normalize.
    destruct (binary_round_below_one false d ez)
      as [->|(m & e & -> & He & Hm)]; try lia.
    + intros _. reflexivity.
    + intros Hv. now apply sf_in_unit_finite.
Qed.

Lemma SFadd_lower (ma : positive) (ea : Z) (mb : positive) (eb : Z) :
  bounded prec emax ma ea = true ->
  SF64add (S754_finite false ma ea) (S754_finite false mb eb) =
    S754_infinity false \/
  exists (mc : positive) (ec : Z),
    SF64add (S754_finite false ma ea) (S754_finite false mb eb) =
      S754_finite false mc ec /\
    dyadic_le ma ea mc ec.
Proof.
  intros Hb. unfold SF64add, SFadd. simpl cond_Zopp.
  set (ez := Z.min ea eb).
  pose proof (shl_align_spec ma ea ez) as H1.
  pose proof (shl_align_spec mb eb ez) as H2.
  destruct (shl_align ma ea ez) as [m1 e1].
  destruct (shl_align mb eb ez) as [m2 e2].
  destruct H1 as [E1 Em1], H2 as [E2 Em2]. simpl fst.
  change (Zpos m1 + Zpos m2) with (Zpos (m1 + m2)). unfold binary_normalize.
  apply binary_round_lower; trivial; [lia|].
  rewrite Pos2Z.inj_add, Em1. replace (ea - e1) with (ea - ez) by lia. lia.
Qed.

Lemma new_location_exact (nb_steps k : Z) :
  new_location nb_steps k <> loc_Exact -> k <> 0.
Proof.
  intros H ->. apply H. unfold new_location, new_location_even,
    new_location_odd. destruct (Z.even nb_steps); reflexivity.
Qed.

Lemma SFdiv_core_binary_below_one (ma : positive) (ea : Z)
    (mc : positive) (ec : Z) :
  bounded prec emax ma ea = true -> bounded prec emax mc ec = true ->
  dyadic_le ma ea mc ec ->
  let '(q, e', l) := SFdiv_core_binary prec emax (Zpos ma) ea (Zpos mc) ec in
  0 <= q /\ e' <= 0 /\ q <= 2 ^ (- e') /\ (l <> loc_Exact -> q < 2 ^ (- e')).
Proof.
  intros Hba Hbc Hle. unfold SFdiv_core_binary. simpl Zdigits2.
  rewrite fexp_eq.
  assert (Hexp : ea <= ec).
  { apply (value_le_exponent ma ea mc ec (Z.min ea ec)); trivial; lia. }
  destruct (bounded_facts ma ea Hba) as (_ & Hda & _).
  pose proof (Pos2Z.is_pos (digits2_pos mc)) as Hdc.
  set (e' := Z.min (Z.max (Zpos (digits2_pos ma) + ea -
                           (Zpos (digits2_pos mc) + ec) - 53) (-1074))
                   (ea - ec)).
  assert (He' : e' <= 0) by (unfold e'; lia).
  assert (Hs : 0 <= ea - ec - e') by (unfold e'; lia).
  set (m' := match ea - ec - e' with
             | 0 => Zpos ma
             | Zpos _ => Z.shiftl (Zpos ma) (ea - ec - e')
             | Zneg _ => 0
             end).
  assert (Em' : m' = Zpos ma * 2 ^ (ea - ec - e')).
  { unfold m'. destruct (ea - ec - e') as [|s|s] eqn:Es; try lia.
    apply Z.shiftl_mul_pow2. lia. }
  assert (Hm' : m' <= Zpos mc * 2 ^ (- e')).
  { rewrite Em'.
    apply (dyadic_le_base ma ea mc ec (ec + e')) in Hle; try lia.
    replace (ea - (ec + e')) with (ea - ec - e') in Hle by lia.
    replace (ec - (ec + e')) with (- e') in Hle by lia. exact Hle. }
  assert (Hm'0 : 0 <= m').
  { rewrite Em'. pose proof (pow2_pos (ea - ec - e') Hs). lia. }
  pose proof (Z.div_mod m' (Zpos mc) ltac:(lia)) as Hdm.
  pose proof (Z.mod_pos_bound m' (Zpos mc) ltac:(lia)) as Hmod.
  unfold Z.div, Z.modulo in Hdm, Hmod.
  destruct (Z.div_eucl m' (Zpos mc)) as [q r]. simpl fst in *. simpl snd in *.
  pose proof (pow2_pos (- e') ltac:(lia)) as Hp.
  repeat split; trivial.
  - nia.
  - nia.
  - intros Hl. apply new_location_exact in Hl. nia.
Qed.

Lemma SFdiv_in_unit (ma : positive) (ea : Z) (mc : positive) (ec : Z) :
  bounded prec emax ma ea = true -> bounded prec emax mc ec = true ->
  dyadic_le ma ea mc ec ->
  valid_binary (SF64div (S754_finite false ma ea) (S754_finite false mc ec))
    = true ->
  sf_in_unit (SF64div (S754_finite false ma ea) (S754_finite false mc ec))
    = true.
Proof.
  intros Hba Hbc Hle. unfold SF64div, SFdiv. simpl xorb.
  pose proof (SFdiv_core_binary_below_one ma ea mc ec Hba Hbc Hle) as H.
  destruct (SFdiv_core_binary prec emax (Zpos ma) ea (Zpos mc) ec)
    as [[q e'] l].
  destruct H as (Hq & He' & Hqle & Hqlt).
  destruct (binary_round_aux_below_one false q e' l Hq He' Hqle Hqlt)
    as [->|(m & e & -> & He & Hm)].
  - intros _. reflexivity.
  - intros Hv. now apply sf_in_unit_finite.
Qed.

Lemma dyadic_le_refl (m : positive) (e : Z) : dyadic_le m e m e.
Proof. unfold dyadic_le. lia. Qed.

(** the quotient [a / (a + b)] *)
Lemma SFquot_in_unit (a b : spec_float) :
  valid_binary a = true -> valid_binary b = true ->
  sf_in_unit a = true -> sf_in_unit b = true ->
  valid_binary (SF64add a b) = true ->
  SFeqb (SF64add a b) (S754_zero false) = false ->
  valid_binary (SF64div a (SF64add a b)) = true ->
  sf_in_unit (SF64div a (SF64add a b)) = true.
Proof.
  intros Hva Hvb Ha Hb.
  destruct (sf_in_unit_cases a Hva Ha) as [[sa ->]|(ma & ea & -> & Hba & _)];
  destruct (sf_in_unit_cases b Hvb Hb) as [[sb ->]|(mb & eb & -> & Hbb & _)].
  - intros _ Hz. destruct sa, sb; discriminate Hz.
  - intros _ _ _. destruct sa; reflexivity.
  - intros _ _. unfold SF64add, SFadd. apply SFdiv_in_unit; trivial.
    apply dyadic_le_refl.
  - destruct (SFadd_lower ma ea mb eb Hba) as [->|(mc & ec & -> & Hle)].
    + intros _ _ _. reflexivity.
    + intros Hvc _. now apply SFdiv_in_unit.
Qed.

(** *** From specification floats to primitive floats *)

Lemma float_in_unit_spec (x : float) :
  in_unit x = sf_in_unit (Prim2SF x).
Proof.
  unfold in_unit. cbn [num_le num_zero num_one float_number].
  rewrite !leb_spec. reflexivity.
Qed.

Lemma float_sub_in_unit (x : float) :
  in_unit x = true -> in_unit (1 - x)%py = true.
Proof.
  rewrite !float_in_unit_spec. cbn [num_sub num_one float_number].
  rewrite sub_spec. intros Hx. change (Prim2SF 1) with SF_one.
  apply SFsub_one_in_unit; trivial; try apply Prim2SF_valid.
  change SF_one with (Prim2SF 1). rewrite <- sub_spec. apply Prim2SF_valid.
Qed.

Lemma float_mul_in_unit (x y : float) :
  in_unit x = true -> in_unit y = true -> in_unit (x * y)%py = true.
Proof.
  rewrite !float_in_unit_spec. cbn [num_mul float_number].
  rewrite mul_spec. intros Hx Hy.
  apply SFmul_in_unit; trivial; try apply Prim2SF_valid.
  rewrite <- mul_spec. apply Prim2SF_valid.
Qed.

Lemma float_quot_in_unit (a b : float) :
  in_unit a = true -> in_unit b = true ->
  num_is_zero (a + b)%py = false ->
  in_unit (num_quot a (a + b)%py) = true.
Proof.
  rewrite !float_in_unit_spec.
  cbn [num_is_zero num_quot num_add float_number].
  rewrite eqb_spec, div_spec, add_spec. intros Ha Hb Hz.
  apply SFquot_in_unit; trivial; try apply Prim2SF_valid.
  - rewrite <- add_spec. apply Prim2SF_valid.
  - rewrite <- add_spec, <- div_spec. apply Prim2SF_valid.
Qed.

(** *** Rounding errors in the normal range *)

Lemma pow2_gt_0 (e : Z) : (0 < pow2 e)%R.
Proof. apply powerRZ_lt. lra. Qed.

Lemma pow2_add (a b : Z) : pow2 (a + b) = (pow2 a * pow2 b)%R.
Proof. apply powerRZ_add. lra. Qed.

Lemma pow2_IZR (n : Z) : 0 <= n -> IZR (2 ^ n) = pow2 n.
Proof.
  intros Hn. unfold pow2. rewrite <- (Z2Nat.id n Hn) at 1.
  rewrite <- pow_IZR. rewrite pow_powerRZ, Z2Nat.id by exact Hn. reflexivity.
Qed.

Lemma pow2_le (a b : Z) : a <= b -> (pow2 a <= pow2 b)%R.
Proof.
  intros H. replace b with (a + (b - a)) by lia. rewrite pow2_add.
  rewrite <- (Rmult_1_r (pow2 a)) at 1.
  apply Rmult_le_compat_l; [apply Rlt_le, pow2_gt_0|].
  rewrite <- pow2_IZR by lia. apply IZR_le.
  pose proof (pow2_pos (b - a) ltac:(lia)). lia.
Qed.

Lemma F2R_shift (m e n : Z) : 0 <= n -> F2R (m * 2 ^ n) e = F2R m (e + n).
Proof.
  intros Hn. unfold F2R. rewrite mult_IZR, pow2_IZR, pow2_add by exact Hn.
  ring.
Qed.

Lemma F2R_le (m1 m2 e : Z) : m1 <= m2 -> (F2R m1 e <= F2R m2 e)%R.
Proof.
  intros H. unfold F2R. apply Rmult_le_compat_r.
  - apply Rlt_le, pow2_gt_0.
  - now apply IZR_le.
Qed.

Lemma F2R_lt (m1 m2 e : Z) : m1 < m2 -> (F2R m1 e < F2R m2 e)%R.
Proof.
  intros H. unfold F2R. apply Rmult_lt_compat_r.
  - apply pow2_gt_0.
  - now apply IZR_lt.
Qed.

(** dropping [n] low bits: the bracket widens *)
Lemma floor_bracket (m e n : Z) (x : R) :
  0 <= m -> 0 <= n ->
  (F2R m e <= x < F2R (m + 1) e)%R ->
  (F2R (m / 2 ^ n) (e + n) <= x < F2R (m / 2 ^ n + 1) (e + n))%R.
Proof.
  intros Hm Hn [Hlo Hhi].
  pose proof (pow2_pos n Hn) as Hp.
  pose proof (Z.div_mod m (2 ^ n) ltac:(lia)) as Hdm.
  pose proof (Z.mod_pos_bound m (2 ^ n) Hp) as Hmod.
  rewrite <- !F2R_shift by exact Hn. split.
  - apply Rle_trans with (2 := Hlo). apply F2R_le. nia.
  - apply Rlt_le_trans with (1 := Hhi). apply F2R_le. nia.
Qed.

Lemma pow2_0 : pow2 0 = 1%R.
Proof. reflexivity. Qed.

Lemma pow2_1 : pow2 1 = 2%R.
Proof. unfold pow2. simpl. lra. Qed.

Lemma pow2_lt (a b : Z) : a < b -> (pow2 a < pow2 b)%R.
Proof.
  intros H. replace b with (a + (b - a)) by lia. rewrite pow2_add.
  rewrite <- (Rmult_1_r (pow2 a)) at 1.
  apply Rmult_lt_compat_l; [apply pow2_gt_0|].
  rewrite <- pow2_IZR by lia. apply IZR_lt.
  assert (2 ^ 1 <= 2 ^ (b - a)) by (apply Z.pow_le_mono_r; lia).
  change (2 ^ 1) with 2 in H0. lia.
Qed.

Lemma pow2_le_inv (a b : Z) : (pow2 a <= pow2 b)%R -> a <= b.
Proof.
  intros H. destruct (Z_le_gt_dec a b) as [|Hgt]; trivial.
  apply Z.gt_lt, pow2_lt in Hgt. lra.
Qed.

Lemma Zdigits2_unique (m d : Z) :
  0 < m -> 2 ^ (d - 1) <= m < 2 ^ d -> Zdigits2 m = d.
Proof.
  intros Hm [Hlo Hhi].
  destruct (Zdigits2_bounds m Hm) as [Dlo Dhi].
  assert (0 < Zdigits2 m) by (destruct m; simpl; lia).
  assert (0 < d).
  { destruct (Z_lt_le_dec 0 d); trivial.
    rewrite (Z.pow_neg_r 2 d) in Hhi; [lia|].
    destruct (Z.eq_dec d 0) as [->|]; [simpl in Hhi; lia|lia]. }
  assert (Zdigits2 m - 1 < d) by (apply pow2_lt_exp; lia).
  assert (d - 1 < Zdigits2 m) by (apply pow2_lt_exp; lia).
  lia.
Qed.

(** a mantissa below [2^52] at the smallest exponent is below the normal
    range *)
Lemma subnormal_bracket (m e : Z) (x : R) :
  0 <= m -> e <= -1074 ->
  (x < F2R (m + 1) e)%R -> (pow2 (-1022) <= x)%R -> 2 ^ 52 <= m.
Proof.
  intros Hm He Hhi Hx.
  assert (H : (pow2 52 < IZR (m + 1))%R).
  { unfold F2R in Hhi.
    replace (-1022) with (52 + -1074) in Hx by lia. rewrite pow2_add in Hx.
    apply Rmult_lt_reg_r with (pow2 (-1074)); [apply pow2_gt_0|].
    apply Rle_lt_trans with (1 := Hx), Rlt_le_trans with (1 := Hhi).
    apply Rmult_le_compat_l; [apply IZR_le; lia|now apply pow2_le]. }
  rewrite <- pow2_IZR in H by lia. apply lt_IZR in H. lia.
Qed.

(** the first shift of a normalised mantissa in the normal range leaves
    exactly 53 bits *)
Lemma shr_fexp_normal (m e : Z) (l : location) (x : R) :
  0 <= m ->
  (F2R m e <= x < F2R (m + 1) e)%R ->
  (pow2 (-1022) <= x)%R ->
  e <= fexp prec emax (Zdigits2 m + e) ->
  2 ^ 52 <= shr_m (fst (shr_fexp prec emax m e l)) < 2 ^ 53 /\
  -1074 <= snd (shr_fexp prec emax m e l) /\
  (F2R (shr_m (fst (shr_fexp prec emax m e l)))
       (snd (shr_fexp prec emax m e l)) <= x <
   F2R (shr_m (fst (shr_fexp prec emax m e l)) + 1)
       (snd (shr_fexp prec emax m e l)))%R.
Proof.
  intros Hm Hx Hn Hnorm. unfold shr_fexp, shr. rewrite fexp_eq in *.
  assert (Hmpos : 0 < m).
  { destruct (Z.eq_dec m 0) as [->|]; [|lia]. simpl Zdigits2 in Hnorm.
    pose proof (subnormal_bracket 0 e x ltac:(lia) ltac:(lia) (proj2 Hx) Hn).
    lia. }
  destruct (Zdigits2_bounds m Hmpos) as [Dlo Dhi].
  set (d := Zdigits2 m) in *.
  assert (Hd : 0 < d) by (unfold d; destruct m; simpl; lia).
  destruct (Z.max (d + e - 53) (-1074) - e) as [|p|p] eqn:En;
    simpl fst; simpl snd; rewrite ?shr_record_of_loc_m; try lia.
  - (* already canonical *)
    split; [|split; [lia|exact Hx]].
    split.
    + destruct (Z.eq_dec e (-1074)) as [->|Hne].
      * exact (subnormal_bracket m (-1074) x Hm ltac:(lia) (proj2 Hx) Hn).
      * replace (d - 1) with 52 in Dlo by lia. exact Dlo.
    + apply Z.lt_le_trans with (1 := Dhi). apply Z.pow_le_mono_r; lia.
  - (* [p] bits are dropped *)
    rewrite iter_shr_1_floor, shr_record_of_loc_m
      by (rewrite shr_record_of_loc_m; lia).
    pose proof (pow2_pos (Zpos p) ltac:(lia)) as Hp.
    assert (Hbr : (F2R (m / 2 ^ Zpos p) (e + Zpos p) <= x <
                   F2R (m / 2 ^ Zpos p + 1) (e + Zpos p))%R)
      by (apply floor_bracket; trivial; lia).
    split; [|split; [lia|exact Hbr]].
    split.
    + destruct (Z.eq_dec (e + Zpos p) (-1074)) as [E|Hne].
      * apply (subnormal_bracket _ (e + Zpos p) x); trivial; try lia.
        -- apply Z.div_pos; lia.
        -- apply Hbr.
      * apply Z.div_le_lower_bound; [lia|].
        rewrite <- Z.pow_add_r by lia.
        replace (Zpos p + 52) with (d - 1) by lia. exact Dlo.
    + apply Z.div_lt_upper_bound; [lia|].
      apply Z.lt_le_trans with (1 := Dhi).
      rewrite <- Z.pow_add_r by lia. apply Z.pow_le_mono_r; lia.
Qed.

(** after rounding, the second shift is exact *)
Lemma shr_fexp_after_round (m1 mr e1 : Z) :
  2 ^ 52 <= m1 < 2 ^ 53 -> m1 <= mr <= m1 + 1 -> -1074 <= e1 ->
  exists m2 : positive,
    shr_m (fst (shr_fexp prec emax mr e1 loc_Exact)) = Zpos m2 /\
    e1 <= snd (shr_fexp prec emax mr e1 loc_Exact) <= e1 + 1 /\
    Zpos m2 * 2 ^ (snd (shr_fexp prec emax mr e1 loc_Exact) - e1) = mr.
Proof.
  intros Hm1 Hmr He1. unfold shr_fexp, shr. rewrite fexp_eq.
  destruct (Z_lt_le_dec mr (2 ^ 53)) as [Hlt|Hge].
  - rewrite (Zdigits2_unique mr 53) by (simpl; lia).
    replace (Z.max (53 + e1 - 53) (-1074) - e1) with 0 by lia.
    simpl fst. simpl snd. destruct mr as [|mr|mr]; try lia.
    exists mr. rewrite Z.sub_diag. simpl. lia.
  - assert (mr = 2 ^ 53) as -> by lia.
    replace (Zdigits2 (2 ^ 53)) with 54 by reflexivity.
    replace (Z.max (54 + e1 - 53) (-1074) - e1) with 1 by lia.
    simpl fst. simpl snd. exists (4503599627370496)%positive.
    replace (e1 + 1 - e1) with 1 by lia. split; [reflexivity|]. split; [lia|].
    reflexivity.
Qed.

(** one rounding: in the normal range the result is within [2^-52] of the
    exact value, relatively *)
Lemma binary_round_aux_error (sx : bool) (mx ex : Z) (lx : location) (x : R) :
  0 <= mx ->
  (F2R mx ex <= x < F2R (mx + 1) ex)%R ->
  (lx = loc_Exact -> x = F2R mx ex) ->
  (pow2 (-1022) <= x <= 2)%R ->
  (lx = loc_Exact \/ ex <= fexp prec emax (Zdigits2 mx + ex)) ->
  exists (m : positive) (e : Z),
    binary_round_aux prec emax sx mx ex lx = S754_finite sx m e /\
    (Rabs (F2R (Zpos m) e - x) <= pow2 (-52) * x)%R.
Proof.
  intros Hm Hx Hexact [Hx1 Hx2] Hnorm.
  pose proof (pow2_gt_0 (-1022)) as Hpos.
  destruct (Z_le_gt_dec ex (fexp prec emax (Zdigits2 mx + ex))) as [Hn|Hn].
  - (* the mantissa is shifted to 53 bits, rounded, and shifted again *)
    unfold binary_round_aux.
    destruct (shr_fexp_normal mx ex lx x Hm Hx Hx1 Hn) as (Hm1 & He1 & Hbr).
    destruct (shr_fexp prec emax mx ex lx) as [mrs1 e1].
    simpl fst in *. simpl snd in *.
    destruct (round_nearest_even_bounds mrs1) as [Hr _].
    set (mr := round_nearest_even (shr_m mrs1) (loc_of_shr_record mrs1)) in *.
    destruct (shr_fexp_after_round (shr_m mrs1) mr e1 Hm1 Hr He1)
      as (m2 & Em2 & He2 & Eval).
    destruct (shr_fexp prec emax mr e1 loc_Exact) as [mrs2 e2].
    simpl fst in *. simpl snd in *. rewrite Em2.
    assert (Hlow : (pow2 52 * pow2 e1 <= x)%R).
    { apply Rle_trans with (2 := proj1 Hbr). unfold F2R.
      apply Rmult_le_compat_r; [apply Rlt_le, pow2_gt_0|].
      rewrite <- pow2_IZR by lia. apply IZR_le. lia. }
    assert (He1' : e1 <= -51).
    { assert (pow2 (52 + e1) <= pow2 1)%R.
      { rewrite pow2_add, pow2_1. lra. }
      apply pow2_le_inv in H. lia. }
    assert (Hov : (e2 <=? emax - prec) = true)
      by (apply Z.leb_le; change (emax - prec) with 971; lia).
    rewrite Hov. exists m2, e2. split; [reflexivity|].
    assert (EV : F2R (Zpos m2) e2 = F2R mr e1).
    { rewrite <- Eval. replace e2 with (e1 + (e2 - e1)) at 1 by lia.
      symmetry. apply F2R_shift. lia. }
    rewrite EV.
    assert (Hulp : (pow2 e1 <= pow2 (-52) * x)%R).
    { apply Rle_trans with (pow2 (-52) * (pow2 52 * pow2 e1))%R.
      - rewrite <- Rmult_assoc, <- pow2_add. simpl Z.add.
        rewrite pow2_0. lra.
      - apply Rmult_le_compat_l; [apply Rlt_le, pow2_gt_0|exact Hlow]. }
    assert (Hmr : (F2R (shr_m mrs1) e1 <= F2R mr e1 <=
                   F2R (shr_m mrs1) e1 + pow2 e1)%R).
    { split; [apply F2R_le; lia|].
      apply Rle_trans with (F2R (shr_m mrs1 + 1) e1); [apply F2R_le; lia|].
      unfold F2R. rewrite plus_IZR. lra. }
    assert (Hup : (F2R (shr_m mrs1 + 1) e1 = F2R (shr_m mrs1) e1 + pow2 e1)%R)
      by (unfold F2R; rewrite plus_IZR; lra).
    apply Rabs_le. lra.
  - (* an exact input that needs no shift is returned as it is *)
    destruct Hnorm as [-> | Hle]; [|lia].
    specialize (Hexact eq_refl). subst x.
    assert (Hmpos : 0 < mx).
    { destruct (Z.eq_dec mx 0) as [->|]; [|lia]. unfold F2R in Hx1. lra. }
    unfold binary_round_aux, shr_fexp, shr.
    destruct (fexp prec emax (Zdigits2 mx + ex) - ex) as [|p|p] eqn:En;
      try lia.
    simpl round_nearest_even. rewrite En. simpl shr_m.
    destruct mx as [|m|m]; try lia.
    assert (Hex : ex <= 1).
    { apply pow2_le_inv. rewrite pow2_1.
      apply Rle_trans with (2 := Hx2). unfold F2R.
      rewrite <- (Rmult_1_l (pow2 ex)) at 1.
      apply Rmult_le_compat_r; [apply Rlt_le, pow2_gt_0|].
      apply IZR_le. lia. }
    assert (Hov : (ex <=? emax - prec) = true)
      by (apply Z.leb_le; change (emax - prec) with 971; lia).
    rewrite Hov. exists m, ex. split; [reflexivity|].
    rewrite Rminus_diag, Rabs_R0.
    apply Rmult_le_pos; [apply Rlt_le, pow2_gt_0|lra].
Qed.

(** the same for [binary_round], which first aligns the mantissa *)
Lemma binary_round_error (sx : bool) (m : positive) (e : Z) :
  (pow2 (-1022) <= F2R (Zpos m) e <= 2)%R ->
  exists (m' : positive) (e' : Z),
    binary_round prec emax sx m e = S754_finite sx m' e' /\
    (Rabs (F2R (Zpos m') e' - F2R (Zpos m) e) <=
     pow2 (-52) * F2R (Zpos m) e)%R.
Proof.
  intros Hx. unfold binary_round.
  pose proof (shl_align_spec m e (fexp prec emax (Zpos (digits2_pos m) + e)))
    as Hal.
  destruct (shl_align m e _) as [mz ez]. destruct Hal as [Ez Em].
  assert (EV : F2R (Zpos mz) ez = F2R (Zpos m) e).
  { rewrite Em, F2R_shift by lia. f_equal. lia. }
  apply binary_round_aux_error; try lia.
  - rewrite EV. split; [lra|]. rewrite <- EV. apply F2R_lt. lia.
  - intros _. now symmetry.
  - exact Hx.
  - now left.
Qed.

(** *** The four operations, with their rounding errors *)

Lemma SFmul_error (mx : positive) (ex : Z) (my : positive) (ey : Z) :
  (pow2 (-1022) <= F2R (Zpos mx) ex * F2R (Zpos my) ey <= 2)%R ->
  exists (m : positive) (e : Z),
    SF64mul (S754_finite false mx ex) (S754_finite false my ey) =
      S754_finite false m e /\
    (Rabs (F2R (Zpos m) e - F2R (Zpos mx) ex * F2R (Zpos my) ey) <=
     pow2 (-52) * (F2R (Zpos mx) ex * F2R (Zpos my) ey))%R.
Proof.
  intros Hx. unfold SF64mul, SFmul. simpl xorb.
  assert (EV : F2R (Zpos (mx * my)) (ex + ey) =
               (F2R (Zpos mx) ex * F2R (Zpos my) ey)%R).
  { unfold F2R. rewrite Pos2Z.inj_mul, mult_IZR, pow2_add. ring. }
  rewrite <- EV in *.
  apply binary_round_aux_error; try lia.
  - split; [lra|]. apply F2R_lt. lia.
  - reflexivity.
  - exact Hx.
  - now left.
Qed.

Lemma SFadd_error (ma : positive) (ea : Z) (mb : positive) (eb : Z) :
  (pow2 (-1022) <= F2R (Zpos ma) ea + F2R (Zpos mb) eb <= 2)%R ->
  exists (m : positive) (e : Z),
    SF64add (S754_finite false ma ea) (S754_finite false mb eb) =
      S754_finite false m e /\
    (Rabs (F2R (Zpos m) e - (F2R (Zpos ma) ea + F2R (Zpos mb) eb)) <=
     pow2 (-52) * (F2R (Zpos ma) ea + F2R (Zpos mb) eb))%R.
Proof.
  intros Hx. unfold SF64add, SFadd. simpl cond_Zopp.
  set (ez := Z.min ea eb).
  pose proof (shl_align_spec ma ea ez) as H1.
  pose proof (shl_align_spec mb eb ez) as H2.
  destruct (shl_align ma ea ez) as [m1 e1].
  destruct (shl_align mb eb ez) as [m2 e2].
  destruct H1 as [E1 Em1], H2 as [E2 Em2]. simpl fst.
  change (Zpos m1 + Zpos m2) with (Zpos (m1 + m2)). unfold binary_normalize.
  assert (EV : F2R (Zpos (m1 + m2)) ez =
               (F2R (Zpos ma) ea + F2R (Zpos mb) eb)%R).
  { rewrite Pos2Z.inj_add, Em1, Em2. unfold F2R at 1.
    rewrite plus_IZR, Rmult_plus_distr_r.
    fold (F2R (Zpos ma * 2 ^ (ea - e1)) ez).
    fold (F2R (Zpos mb * 2 ^ (eb - e2)) ez).
    rewrite !F2R_shift by lia. f_equal; f_equal; lia. }
  rewrite <- EV in *. now apply binary_round_error.
Qed.

(** a canonical number below one has exponent at most [-53] *)
Lemma below_one_exponent (m : positive) (e : Z) :
  bounded prec emax m e = true -> (F2R (Zpos m) e < 1)%R -> e <= -53.
Proof.
  intros Hb Hlt. destruct (Z_le_gt_dec e (-53)) as [|Hgt]; trivial. exfalso.
  destruct (bounded_mantissa m e Hb) as (_ & Hn). specialize (Hn ltac:(lia)).
  assert (1 <= F2R (Zpos m) e)%R; [|lra].
  apply Rle_trans with (pow2 52 * pow2 (-52))%R.
  - rewrite <- pow2_add. simpl Z.add. rewrite pow2_0. lra.
  - unfold F2R. apply Rmult_le_compat.
    + apply Rlt_le, pow2_gt_0.
    + apply Rlt_le, pow2_gt_0.
    + rewrite <- pow2_IZR by lia. now apply IZR_le.
    + apply pow2_le. lia.
Qed.

Lemma SFsub_one_error (mp : positive) (ep : Z) :
  bounded prec emax mp ep = true ->
  (F2R (Zpos mp) ep < 1)%R ->
  exists (m : positive) (e : Z),
    SF64sub SF_one (S754_finite false mp ep) = S754_finite false m e /\
    (Rabs (F2R (Zpos m) e - (1 - F2R (Zpos mp) ep)) <=
     pow2 (-52) * (1 - F2R (Zpos mp) ep))%R /\
    (pow2 (-53) <= 1 - F2R (Zpos mp) ep)%R.
Proof.
  intros Hb Hlt. pose proof (below_one_exponent mp ep Hb Hlt) as Hep.
  destruct (bounded_mantissa mp ep Hb) as (Hmp & _).
  unfold SF64sub, SFsub, SF_one. simpl cond_Zopp.
  replace (Z.min (-52) ep) with ep by lia.
  pose proof (shl_align_spec 4503599627370496 (-52) ep) as H1.
  pose proof (shl_align_spec mp ep ep) as H2.
  destruct (shl_align 4503599627370496 (-52) ep) as [m1 e1].
  destruct (shl_align mp ep ep) as [m2 e2].
  destruct H1 as [E1 Em1], H2 as [E2 Em2]. simpl fst.
  assert (Hone : Zpos m1 = 2 ^ (- ep)).
  { rewrite Em1. change (Zpos 4503599627370496) with (2 ^ 52).
    rewrite <- Z.pow_add_r by lia. f_equal. lia. }
  assert (Hx2 : Zpos m2 = Zpos mp).
  { rewrite Em2. replace (ep - e2) with 0 by lia. simpl. lia. }
  assert (One : F2R (2 ^ (- ep)) ep = 1%R).
  { unfold F2R. rewrite pow2_IZR, <- pow2_add by lia.
    replace (- ep + ep) with 0 by lia. apply pow2_0. }
  assert (Hpos : Zpos mp < 2 ^ (- ep)).
  { apply lt_IZR. apply Rmult_lt_reg_r with (pow2 ep); [apply pow2_gt_0|].
    fold (F2R (Zpos mp) ep). fold (F2R (2 ^ (- ep)) ep). lra. }
  rewrite Hone, Hx2.
  destruct (2 ^ (- ep) - Zpos mp) as [|d|d] eqn:Ed; try lia.
  unfold binary_normalize.
  assert (EV : F2R (Zpos d) ep = (1 - F2R (Zpos mp) ep)%R).
  { rewrite <- Ed, <- One. unfold F2R. rewrite minus_IZR. ring. }
  assert (Hlow : (pow2 (-53) <= F2R (Zpos d) ep)%R).
  { destruct (Z.eq_dec ep (-53)) as [->|Hne].
    - unfold F2R. rewrite <- (Rmult_1_l (pow2 (-53))) at 1.
      apply Rmult_le_compat_r; [apply Rlt_le, pow2_gt_0|].
      apply IZR_le. lia.
    - (* the subtrahend is below one half *)
      apply Rle_trans with (pow2 (-1)); [apply pow2_le; lia|].
      assert (H53 : 2 ^ 53 * 2 <= 2 ^ (- ep)).
      { change (2 ^ 53 * 2) with (2 ^ 54). apply Z.pow_le_mono_r; lia. }
      assert (Hhalf : 2 ^ (- ep - 1) <= Zpos d).
      { assert (2 ^ (- ep) = 2 * 2 ^ (- ep - 1)).
        { rewrite <- Z.pow_succ_r by lia. f_equal. lia. }
        lia. }
      apply Rle_trans with (F2R (2 ^ (- ep - 1)) ep);
        [|apply F2R_le; exact Hhalf].
      unfold F2R. rewrite pow2_IZR, <- pow2_add by lia.
      apply pow2_le. lia. }
  destruct (binary_round_error false d ep) as (m & e & E & Herr).
  - split; [apply Rle_trans with (2 := Hlow); apply pow2_le; lia|].
    rewrite EV. unfold F2R. pose proof (pow2_gt_0 ep).
    assert (0 < IZR (Zpos mp))%R by (apply IZR_lt; lia). nra.
  - exists m, e. rewrite <- EV. repeat split; trivial.
Qed.

Lemma new_location_exact_r (nb_steps k : Z) :
  new_location nb_steps k = loc_Exact -> k = 0.
Proof.
  unfold new_location, new_location_even, new_location_odd.
  destruct (Z.even nb_steps); destruct (Z.eqb_spec k 0); trivial;
    discriminate.
Qed.

Lemma F2R_pos (m : positive) (e : Z) : (0 < F2R (Zpos m) e)%R.
Proof.
  unfold F2R. apply Rmult_lt_0_compat; [|apply pow2_gt_0].
  apply IZR_lt. lia.
Qed.

Lemma SFdiv_error (ma : positive) (ea : Z) (mc : positive) (ec : Z) :
  bounded prec emax ma ea = true ->
  (pow2 (-1022) <= F2R (Zpos ma) ea / F2R (Zpos mc) ec <= 2)%R ->
  exists (m : positive) (e : Z),
    SF64div (S754_finite false ma ea) (S754_finite false mc ec) =
      S754_finite false m e /\
    (Rabs (F2R (Zpos m) e - F2R (Zpos ma) ea / F2R (Zpos mc) ec) <=
     pow2 (-52) * (F2R (Zpos ma) ea / F2R (Zpos mc) ec))%R.
Proof.
  intros Hba Hx. unfold SF64div, SFdiv. simpl xorb.
  unfold SFdiv_core_binary. simpl Zdigits2. rewrite fexp_eq.
  destruct (bounded_facts ma ea Hba) as (_ & Hda & _).
  set (da := Zpos (digits2_pos ma)) in *.
  set (dc := Zpos (digits2_pos mc)) in *.
  assert (Hdc : 0 < dc) by (unfold dc; lia).
  set (e' := Z.min (Z.max (da + ea - (dc + ec) - 53) (-1074)) (ea - ec)).
  assert (Hs : 0 <= ea - ec - e') by (unfold e'; lia).
  set (m' := match ea - ec - e' with
             | 0 => Zpos ma
             | Zpos _ => Z.shiftl (Zpos ma) (ea - ec - e')
             | Zneg _ => 0
             end).
  assert (Em' : m' = Zpos ma * 2 ^ (ea - ec - e')).
  { unfold m'. destruct (ea - ec - e') as [|s|s] eqn:Es; try lia.
    apply Z.shiftl_mul_pow2. lia. }
  pose proof (pow2_pos (ea - ec - e') Hs) as Hp.
  assert (Hm'0 : 0 < m') by (rewrite Em'; lia).
  pose proof (Z.div_mod m' (Zpos mc) ltac:(lia)) as Hdm.
  pose proof (Z.mod_pos_bound m' (Zpos mc) ltac:(lia)) as Hmod.
  unfold Z.div, Z.modulo in Hdm, Hmod.
  destruct (Z.div_eucl m' (Zpos mc)) as [q r]. simpl fst in *. simpl snd in *.
  assert (Hq : 0 <= q) by nia.
  (* the exact quotient, on the exponent of the integer quotient *)
  assert (EQ : (F2R (Zpos ma) ea / F2R (Zpos mc) ec =
                IZR m' / IZR (Zpos mc) * pow2 e')%R).
  { rewrite Em', mult_IZR, pow2_IZR by lia. unfold F2R.
    replace ea with ((ea - ec - e') + e' + ec) at 1 by lia.
    rewrite !pow2_add. field.
    repeat split; apply Rgt_not_eq;
      (apply pow2_gt_0 || (apply IZR_lt; lia)). }
  assert (Hc : (0 < IZR (Zpos mc))%R) by (apply IZR_lt; lia).
  assert (Hqlo : (IZR q <= IZR m' / IZR (Zpos mc))%R).
  { apply Rmult_le_reg_r with (IZR (Zpos mc)); trivial.
    unfold Rdiv. rewrite Rmult_assoc, Rinv_l, Rmult_1_r by lra.
    rewrite <- mult_IZR. apply IZR_le. nia. }
  assert (Hqhi : (IZR m' / IZR (Zpos mc) < IZR (q + 1))%R).
  { apply Rmult_lt_reg_r with (IZR (Zpos mc)); trivial.
    unfold Rdiv. rewrite Rmult_assoc, Rinv_l, Rmult_1_r by lra.
    rewrite <- mult_IZR. apply IZR_lt. nia. }
  pose proof (pow2_gt_0 e') as He'pos.
  rewrite EQ in *.
  apply binary_round_aux_error; trivial.
  - unfold F2R. split.
    + now apply Rmult_le_compat_r; [apply Rlt_le|].
    + now apply Rmult_lt_compat_r.
  - intros Hl. apply new_location_exact_r in Hl. subst r.
    unfold F2R. f_equal. replace m' with (Zpos mc * q) by lia.
    rewrite mult_IZR. field. lra.
  - (* the quotient has enough bits *)
    right. rewrite fexp_eq.
    set (k := da + ea - (dc + ec) - e' - 1).
    assert (Hdq : da + ea - (dc + ec) <= Zdigits2 q + e').
    { destruct (Z_lt_le_dec k 0) as [Hk|Hk].
      - assert (0 <= Zdigits2 q) by (destruct q; simpl; lia). lia.
      - destruct (digits2_pos_bounds ma) as [Halo _]. fold da in Halo.
        destruct (digits2_pos_bounds mc) as [_ Hchi]. fold dc in Hchi.
        assert (Hpow : 2 ^ (da - 1) * 2 ^ (ea - ec - e') = 2 ^ k * 2 ^ dc).
        { rewrite <- !Z.pow_add_r by lia. f_equal. lia. }
        pose proof (pow2_pos k Hk) as Hkpos.
        assert (Hqk : 2 ^ k <= q).
        { assert (Zpos mc * 2 ^ k <= m') by (rewrite Em'; nia).
          assert (Zpos mc * 2 ^ k < Zpos mc * (q + 1)) by lia.
          apply Z.mul_lt_mono_pos_l in H0; lia. }
        assert (Hqpos : 0 < q) by lia.
        destruct (Zdigits2_bounds q Hqpos) as [_ Hqhi'].
        assert (k < Zdigits2 q).
        { apply pow2_lt_exp; [destruct q; simpl; lia|lia]. }
        lia. }
    unfold e'. lia.
Qed.

Lemma positive_float_value (x : float) (X : R) :
  positive_float x X -> float_value x = X /\ (0 < X)%R.
Proof.
  intros (m & e & E & ->). unfold float_value. rewrite E. simpl.
  split; [reflexivity|apply F2R_pos].
Qed.

Lemma positive_float_bounded (x : float) (m : positive) (e : Z) :
  Prim2SF x = S754_finite false m e -> bounded prec emax m e = true.
Proof. intros E. pose proof (Prim2SF_valid x) as Hv. now rewrite E in Hv. Qed.

Lemma SFltb_finite (m1 : positive) (e1 : Z) (m2 : positive) (e2 : Z) :
  SFltb (S754_finite false m1 e1) (S754_finite false m2 e2) = true <->
  e1 < e2 \/ (e1 = e2 /\ Zpos m1 < Zpos m2).
Proof.
  unfold SFltb. simpl.
  change (Pos.compare_cont Eq m1 m2) with (Pos.compare m1 m2).
  destruct (Z.compare_spec e1 e2) as [->|Hlt|Hgt].
  - destruct (Pos.compare_spec m1 m2) as [->|Hlt|Hgt].
    + split; [discriminate|intros [?|[_ ?]]; lia].
    + split; [intros _; right; split; [reflexivity|lia]|reflexivity].
    + split; [discriminate|intros [?|[_ ?]]; lia].
  - split; [intros _; now left|reflexivity].
  - split; [discriminate|intros [?|[? _]]; lia].
Qed.

(** on canonical mantissas a smaller exponent is a smaller value *)
Lemma canonical_exponent_lt (m1 : positive) (e1 : Z) (m2 : positive) (e2 : Z) :
  bounded prec emax m1 e1 = true -> bounded prec emax m2 e2 = true ->
  e1 < e2 -> (F2R (Zpos m1) e1 < F2R (Zpos m2) e2)%R.
Proof.
  intros Hb1 Hb2 Hlt.
  destruct (bounded_facts m1 e1 Hb1) as ((Hmin & _) & _).
  destruct (bounded_mantissa m1 e1 Hb1) as (Hm1 & _).
  destruct (bounded_mantissa m2 e2 Hb2) as (_ & Hn2).
  specialize (Hn2 ltac:(lia)).
  apply Rlt_le_trans with (F2R (2 ^ 53) e1); [apply F2R_lt; exact Hm1|].
  apply Rle_trans with (F2R (2 ^ 52) e2); [|apply F2R_le; exact Hn2].
  unfold F2R. rewrite !pow2_IZR, <- !pow2_add by lia. apply pow2_le. lia.
Qed.

Lemma SFleb_F2R (m1 : positive) (e1 : Z) (m2 : positive) (e2 : Z) :
  bounded prec emax m1 e1 = true -> bounded prec emax m2 e2 = true ->
  SFleb (S754_finite false m1 e1) (S754_finite false m2 e2) = true ->
  (F2R (Zpos m1) e1 <= F2R (Zpos m2) e2)%R.
Proof.
  intros Hb1 Hb2 H. apply SFleb_finite in H. destruct H as [Hlt|[-> Hle]].
  - now apply Rlt_le, canonical_exponent_lt.
  - now apply F2R_le.
Qed.

Lemma SFltb_F2R (m1 : positive) (e1 : Z) (m2 : positive) (e2 : Z) :
  bounded prec emax m1 e1 = true -> bounded prec emax m2 e2 = true ->
  SFltb (S754_finite false m1 e1) (S754_finite false m2 e2) = true ->
  (F2R (Zpos m1) e1 < F2R (Zpos m2) e2)%R.
Proof.
  intros Hb1 Hb2 H. apply SFltb_finite in H. destruct H as [Hlt|[-> Hle]].
  - now apply canonical_exponent_lt.
  - now apply F2R_lt.
Qed.

Lemma F2R_one : F2R (Zpos 4503599627370496) (-52) = 1%R.
Proof.
  change (Zpos 4503599627370496) with (2 ^ 52). unfold F2R.
  rewrite pow2_IZR, <- pow2_add by lia. apply pow2_0.
Qed.

Lemma positive_float_one : positive_float 1%float 1%R.
Proof.
  exists 4503599627370496%positive, (-52). split; [reflexivity|].
  symmetry. apply F2R_one.
Qed.

(** a float of [[2^-500, 1]] is a positive finite number of that range *)
Lemma positive_float_of_range (x : float) :
  PrimFloat.leb 0x1p-500%float x = true -> PrimFloat.leb x 1%float = true ->
  exists X : R, positive_float x X /\ (pow2 (-500) <= X <= 1)%R.
Proof.
  rewrite !leb_spec.
  change (Prim2SF 0x1p-500) with (S754_finite false 4503599627370496 (-552)).
  change (Prim2SF 1) with (S754_finite false 4503599627370496 (-52)).
  pose proof (Prim2SF_valid x) as Hv.
  destruct (Prim2SF x) as [s|s| |s m e] eqn:E; intros Hlo Hhi;
    try discriminate Hlo.
  - destruct s; discriminate.
  - destruct s; [discriminate Hlo|].
    exists (F2R (Zpos m) e). split; [exists m, e; now split|].
    simpl in Hv. split.
    + apply SFleb_F2R in Hlo; trivial.
      replace (pow2 (-500)) with (F2R (Zpos 4503599627370496) (-552)); trivial.
      change (Zpos 4503599627370496) with (2 ^ 52). unfold F2R.
      rewrite pow2_IZR, <- pow2_add by lia. reflexivity.
    + apply SFleb_F2R in Hhi; trivial. now rewrite F2R_one in Hhi.
Qed.

Lemma positive_float_below_one (x : float) (X : R) :
  positive_float x X -> PrimFloat.ltb x 1%float = true -> (X < 1)%R.
Proof.
  intros (m & e & E & ->). rewrite ltb_spec, E.
  change (Prim2SF 1) with (S754_finite false 4503599627370496 (-52)).
  intros H. apply SFltb_F2R in H; trivial.
  - now rewrite F2R_one in H.
  - now apply (positive_float_bounded x).
Qed.

(** *** The operations on primitive floats *)

Lemma float_mul_error (x y : float) (X Y : R) :
  positive_float x X -> positive_float y Y ->
  (pow2 (-1022) <= X * Y <= 2)%R ->
  exists Z : R,
    positive_float (x * y)%float Z /\
    (Rabs (Z - X * Y) <= pow2 (-52) * (X * Y))%R.
Proof.
  intros (mx & ex & Ex & ->) (my & ey & Ey & ->) Hr.
  destruct (SFmul_error mx ex my ey Hr) as (m & e & E & Herr).
  exists (F2R (Zpos m) e). split; trivial.
  exists m, e. split; trivial. now rewrite mul_spec, Ex, Ey.
Qed.

Lemma float_add_error (x y : float) (X Y : R) :
  positive_float x X -> positive_float y Y ->
  (pow2 (-1022) <= X + Y <= 2)%R ->
  exists Z : R,
    positive_float (x + y)%float Z /\
    (Rabs (Z - (X + Y)) <= pow2 (-52) * (X + Y))%R.
Proof.
  intros (mx & ex & Ex & ->) (my & ey & Ey & ->) Hr.
  destruct (SFadd_error mx ex my ey Hr) as (m & e & E & Herr).
  exists (F2R (Zpos m) e). split; trivial.
  exists m, e. split; trivial. now rewrite add_spec, Ex, Ey.
Qed.

Lemma float_sub_one_error (x : float) (X : R) :
  positive_float x X -> (X < 1)%R ->
  exists Z : R,
    positive_float (1 - x)%float Z /\
    (Rabs (Z - (1 - X)) <= pow2 (-52) * (1 - X))%R /\
    (pow2 (-53) <= 1 - X)%R.
Proof.
  intros (mx & ex & Ex & ->) Hlt.
  destruct (SFsub_one_error mx ex (positive_float_bounded x mx ex Ex) Hlt)
    as (m & e & E & Herr & Hlow).
  exists (F2R (Zpos m) e). split; [|now split].
  exists m, e. split; trivial. rewrite sub_spec, Ex. exact E.
Qed.

Lemma float_div_error (x y : float) (X Y : R) :
  positive_float x X -> positive_float y Y ->
  (pow2 (-1022) <= X / Y <= 2)%R ->
  exists Z : R,
    positive_float (x / y)%float Z /\
    (Rabs (Z - X / Y) <= pow2 (-52) * (X / Y))%R.
Proof.
  intros (mx & ex & Ex & ->) (my & ey & Ey & ->) Hr.
  destruct (SFdiv_error mx ex my ey (positive_float_bounded x mx ex Ex) Hr)
    as (m & e & E & Herr).
  exists (F2R (Zpos m) e). split; trivial.
  exists m, e. split; trivial. now rewrite div_spec, Ex, Ey.
Qed.

Lemma positive_float_not_zero (x : float) (X : R) :
  positive_float x X -> PrimFloat.eqb x 0%float = false.
Proof. intros (m & e & E & _). rewrite eqb_spec, E. reflexivity. Qed.

(** *** Relative closeness of positive reals *)

Local Open Scope R_scope.

Lemma pow2_m52 : pow2 (-52) = / 4503599627370496.
Proof.
  apply Rmult_eq_reg_r with (pow2 52); [|apply Rgt_not_eq, pow2_gt_0].
  rewrite <- pow2_add. simpl Z.add. rewrite pow2_0, <- pow2_IZR by lia.
  change (2 ^ 52)%Z with 4503599627370496%Z. field.
Qed.

Lemma Rabs_le_bounds (a b : R) : Rabs a <= b -> - b <= a <= b.
Proof. unfold Rabs. destruct (Rcase_abs a); lra. Qed.

Lemma within_factor_round (a x : R) :
  0 < x -> Rabs (a - x) <= pow2 (-52) * x -> within_factor kappa a x.
Proof.
  intros Hx H. rewrite pow2_m52 in H. apply Rabs_le_bounds in H.
  unfold within_factor, kappa. repeat split; try lra; nra.
Qed.

Lemma within_factor_refl (x : R) : 0 < x -> within_factor 1 x x.
Proof. intros. unfold within_factor. lra. Qed.

Lemma within_factor_weaken (k k' a x : R) :
  k <= k' -> within_factor k a x -> within_factor k' a x.
Proof.
  intros Hk (Hx & Ha & H1 & H2). unfold within_factor. repeat split; nra.
Qed.

Lemma within_factor_pos (k a x : R) : within_factor k a x -> 0 < k.
Proof. intros (Hx & Ha & H1 & H2). nra. Qed.

Lemma within_factor_mul (k1 k2 a b x y : R) :
  within_factor k1 a x -> within_factor k2 b y ->
  within_factor (k1 * k2) (a * b) (x * y).
Proof.
  intros H1 H2. pose proof (within_factor_pos _ _ _ H1) as Hk1.
  pose proof (within_factor_pos _ _ _ H2) as Hk2.
  destruct H1 as (Hx & Ha & A1 & A2), H2 as (Hy & Hb & B1 & B2).
  unfold within_factor. repeat split; try nra.
Qed.

Lemma within_factor_trans (k1 k2 a b c : R) :
  within_factor k1 a b -> within_factor k2 b c ->
  within_factor (k1 * k2) a c.
Proof.
  intros H1 H2. pose proof (within_factor_pos _ _ _ H1) as Hk1.
  pose proof (within_factor_pos _ _ _ H2) as Hk2.
  destruct H1 as (Hb & Ha & A1 & A2), H2 as (Hc & _ & B1 & B2).
  unfold within_factor. repeat split; trivial.
  - apply Rle_trans with (1 := B1).
    replace (k1 * k2 * a) with (k2 * (k1 * a)) by ring.
    apply Rmult_le_compat_l; lra.
  - apply Rle_trans with (1 := A2).
    rewrite Rmult_assoc. apply Rmult_le_compat_l; lra.
Qed.

Lemma within_factor_add (k a b x y : R) :
  within_factor k a x -> within_factor k b y ->
  within_factor k (a + b) (x + y).
Proof.
  intros (Hx & Ha & A1 & A2) (Hy & Hb & B1 & B2).
  unfold within_factor. repeat split; lra.
Qed.

Lemma within_factor_div (k1 k2 a b x y : R) :
  within_factor k1 a x -> within_factor k2 b y ->
  within_factor (k1 * k2) (a / b) (x / y).
Proof.
  intros H1 H2.
  assert (H3 : within_factor k2 (/ b) (/ y)).
  { destruct H2 as (Hy & Hb & B1 & B2).
    assert (0 < / y) by now apply Rinv_0_lt_compat.
    assert (0 < / b) by now apply Rinv_0_lt_compat.
    unfold within_factor. repeat split; trivial.
    - apply Rmult_le_reg_r with (y * b); [nra|]. field_simplify; lra.
    - apply Rmult_le_reg_r with (y * b); [nra|]. field_simplify; lra. }
  exact (within_factor_mul _ _ _ _ _ _ H1 H3).
Qed.

Lemma within_factor_bounds (k a x : R) :
  within_factor k a x -> k <= 2 -> x / 2 <= a /\ a <= 2 * x.
Proof. intros (Hx & Ha & H1 & H2) Hk. split; nra. Qed.

Lemma range_within_factor (k a x : R) (lo : Z) :
  within_factor k a x -> k <= 2 -> pow2 lo <= x <= 1 -> (-1021 <= lo)%Z ->
  pow2 (-1022) <= a <= 2.
Proof.
  intros Hc Hk [Hlo Hhi] Hz.
  destruct (within_factor_bounds k a x Hc Hk) as [H1 H2].
  split; [|lra].
  apply Rle_trans with (pow2 (lo - 1)); [apply pow2_le; lia|].
  assert (pow2 lo = 2 * pow2 (lo - 1)).
  { rewrite <- pow2_1, <- pow2_add. f_equal. lia. }
  lra.
Qed.

Lemma pow2_mul_le (a b : Z) (x y : R) :
  pow2 a <= x -> pow2 b <= y -> pow2 (a + b) <= x * y.
Proof.
  intros Hx Hy. rewrite pow2_add.
  pose proof (pow2_gt_0 a). pose proof (pow2_gt_0 b).
  apply Rmult_le_compat; lra.
Qed.

(** *** One call and two calls on floats *)

(** the range of Bayes' rule *)
Lemma bayes_range (P D N : R) (lo : Z) :
  pow2 lo <= P * D -> 0 < P < 1 -> 0 < D <= 1 -> 0 < N <= 1 ->
  0 < P * D + (1 - P) * N <= 1 /\ pow2 lo <= bayes P D N <= 1.
Proof.
  intros Hlo HP HD HN.
  assert (Ha : 0 < P * D) by nra.
  assert (Hb : 0 < (1 - P) * N) by nra.
  assert (Hs : P * D + (1 - P) * N <= 1) by nra.
  split; [lra|]. unfold bayes.
  set (S := P * D + (1 - P) * N) in *.
  assert (HS : 0 < S) by (unfold S; lra).
  assert (HPS : P * D <= S) by (unfold S; lra).
  assert (E : P * D / S * S = P * D) by (field; lra).
  assert (Hr : 0 < P * D / S) by (apply Rdiv_lt_0_compat; lra).
  set (r := P * D / S) in *. clearbody r S.
  split; nra.
Qed.

(** the rule is as stable as its three arguments are accurate *)
Lemma within_factor_bayes (k kq a q x d n d' n' : R) :
  within_factor k a x -> within_factor kq q (1 - x) ->
  within_factor k d d' -> within_factor k n n' ->
  k <= kq ->
  within_factor (k * k * (kq * k)) (a * d / (a * d + q * n)) (bayes x d' n').
Proof.
  intros Ha Hq Hd Hn Hk. unfold bayes.
  apply within_factor_div.
  - now apply within_factor_mul.
  - apply within_factor_add.
    + apply within_factor_weaken with (k * k).
      * pose proof (within_factor_pos _ _ _ Ha). nra.
      * now apply within_factor_mul.
    + now apply within_factor_mul.
Qed.


Lemma positive_float_in_unit (x : float) (X : R) :
  positive_float x X -> in_unit x = true -> X <= 1.
Proof.
  intros (m & e & E & ->) H. rewrite float_in_unit_spec, E in H.
  unfold sf_in_unit in H. apply andb_true_iff in H. destruct H as [_ H].
  unfold SF_one in H. apply SFleb_F2R in H.
  - now rewrite F2R_one in H.
  - now apply (positive_float_bounded x).
  - reflexivity.
Qed.

(** one more factor of a likelihood: [acc * d] *)
Lemma float_likelihood_step (acc d : float) (A D I k : R) (lo : Z) :
  positive_float acc A -> in_unit acc = true ->
  positive_float d D -> in_unit d = true ->
  within_factor k A I -> k <= call_factor ->
  pow2 lo <= I * D -> (-1021 <= lo)%Z -> I <= 1 ->
  exists L : R,
    positive_float (acc * d)%float L /\ in_unit (acc * d)%float = true /\
    within_factor (kappa * k) L (I * D).
Proof.
  intros Hacc Uacc Hd Ud Hk Hkc Hlo Hz HI.
  pose proof (positive_float_in_unit d D Hd Ud) as HD1.
  destruct (positive_float_value d D Hd) as [_ HDpos].
  assert (C0 : within_factor (k * 1) (A * D) (I * D))
    by (apply within_factor_mul; [exact Hk|now apply within_factor_refl]).
  destruct (float_mul_error acc d A D Hacc Hd) as (L & HL & EL).
  { apply (range_within_factor _ _ _ lo C0); trivial.
    - unfold call_factor in Hkc. lra.
    - destruct Hk as (HIpos & _). split; [exact Hlo|nra]. }
  exists L. split; [exact HL|]. split.
  - now apply (float_mul_in_unit acc d).
  - apply within_factor_round in EL; [|apply C0].
    pose proof (within_factor_trans _ _ _ _ _ EL C0) as H.
    replace (kappa * k) with (kappa * (k * 1)) by ring. exact H.
Qed.

(** one call on floats: from a belief [p] and the two likelihoods [ld] and
    [ln], the posterior is Bayes' rule on their values up to six
    roundings *)
Lemma posterior_floats (p ld ln : float) (P Ld Ln : R) :
  positive_float p P -> pow2 (-500) <= P < 1 ->
  positive_float ld Ld -> pow2 (-501) <= Ld <= 1 ->
  positive_float ln Ln -> pow2 (-501) <= Ln <= 1 ->
  PrimFloat.eqb (p * ld + (1 - p) * ln)%float 0%float = false /\
  exists Rr : R,
    positive_float (p * ld / (p * ld + (1 - p) * ln))%float Rr /\
    within_factor call_factor Rr (bayes P Ld Ln).
Proof.
  intros Hp [HP1 HP2] Hld [HD1 HD2] Hln [HN1 HN2].
  pose proof (pow2_gt_0 (-500)) as H500.
  pose proof (pow2_gt_0 (-501)) as H501.
  assert (HPpos : 0 < P) by lra.
  assert (Hprod : pow2 (-1001) <= P * Ld)
    by now apply (pow2_mul_le (-500) (-501)).
  destruct (bayes_range P Ld Ln (-1001) Hprod) as [[HS0 HS1] HB]; try lra.
  (* p * ld *)
  destruct (float_mul_error p ld P Ld Hp Hld) as (A & HA & EA).
  { split; [|nra]. apply Rle_trans with (2 := Hprod). apply pow2_le. lia. }
  apply within_factor_round in EA; [|nra].
  (* 1 - p *)
  destruct (float_sub_one_error p P Hp HP2) as (Q & HQ & EQ & HQlow).
  apply within_factor_round in EQ; [|lra].
  (* (1 - p) * ln *)
  assert (CB0 : within_factor (kappa * 1) (Q * Ln) ((1 - P) * Ln))
    by (apply within_factor_mul; [exact EQ|apply within_factor_refl; lra]).
  destruct (float_mul_error (1 - p) ln Q Ln HQ Hln) as (B & HB' & EB).
  { apply (range_within_factor _ _ _ (-554) CB0); [unfold kappa; lra| |lia].
    split; [now apply (pow2_mul_le (-53) (-501))|nra]. }
  apply within_factor_round in EB; [|apply CB0].
  pose proof (within_factor_trans _ _ _ _ _ EB CB0) as CB.
  (* the sum *)
  assert (CS : within_factor (kappa * (kappa * 1)) (A + B)
                 (P * Ld + (1 - P) * Ln)).
  { apply within_factor_add; trivial.
    apply within_factor_weaken with (2 := EA). unfold kappa. lra. }
  destruct (float_add_error _ _ A B HA HB') as (C & HC & EC).
  { apply (range_within_factor _ _ _ (-1001) CS); [unfold kappa; lra| |lia].
    split; [nra|exact HS1]. }
  apply within_factor_round in EC; [|apply CS].
  pose proof (within_factor_trans _ _ _ _ _ EC CS) as CC.
  split; [exact (positive_float_not_zero _ C HC)|].
  (* the quotient *)
  assert (CD : within_factor (kappa * (kappa * (kappa * (kappa * 1))))
                 (A / C) (bayes P Ld Ln))
    by (unfold bayes; apply within_factor_div; assumption).
  destruct (float_div_error _ _ A C HA HC) as (Rr & HRr & ER).
  { apply (range_within_factor _ _ _ (-1001) CD); [unfold kappa; lra| |lia].
    exact HB. }
  apply within_factor_round in ER; [|apply CD].
  pose proof (within_factor_trans _ _ _ _ _ ER CD) as CR.
  exists Rr. split; [exact HRr|].
  apply within_factor_weaken with (2 := CR). unfold call_factor, kappa. lra.
Qed.


Lemma positive_float_leb (x y : float) (X Y : R) :
  positive_float x X -> positive_float y Y ->
  PrimFloat.leb x y = true -> X <= Y.
Proof.
  intros (m1 & e1 & E1 & ->) (m2 & e2 & E2 & ->). rewrite leb_spec, E1, E2.
  apply SFleb_F2R.
  - now apply (positive_float_bounded x).
  - now apply (positive_float_bounded y).
Qed.

(** a float between a positive float and one is a positive finite number *)
Lemma positive_float_above (lo x : float) (Lo : R) :
  positive_float lo Lo ->
  PrimFloat.leb lo x = true -> PrimFloat.leb x 1%float = true ->
  exists X : R, positive_float x X.
Proof.
  intros (m0 & e0 & E0 & _). rewrite !leb_spec, E0.
  change (Prim2SF 1) with (S754_finite false 4503599627370496 (-52)).
  destruct (Prim2SF x) as [s|s| |s m e] eqn:E; intros Hlo Hhi;
    try discriminate Hlo.
  - destruct s; discriminate.
  - destruct s; [discriminate Hlo|].
    exists (F2R (Zpos m) e), m, e. now split.
Qed.

Lemma positive_float_in_unit_intro (x : float) (X : R) :
  positive_float x X -> PrimFloat.leb x 1%float = true -> in_unit x = true.
Proof.
  intros (m & e & E & _) H. rewrite leb_spec, E in H.
  rewrite float_in_unit_spec, E. unfold sf_in_unit.
  apply andb_true_iff. split; [reflexivity|exact H].
Qed.




Lemma within_factor_lower (k a x : R) (lo : Z) :
  within_factor k a x -> k <= 2 -> pow2 lo <= x -> pow2 (lo - 1) <= a.
Proof.
  intros Hc Hk Hlo.
  destruct (within_factor_bounds k a x Hc Hk) as [H1 _].
  assert (pow2 lo = 2 * pow2 (lo - 1)).
  { rewrite <- pow2_1, <- pow2_add. f_equal. lia. }
  lra.
Qed.






(** one call on floats, against Bayes' rule on the exact likelihoods *)
Lemma posterior_floats_exact (p ld ln : float) (k P Ld Ln D N : R) :
  positive_float p P -> pow2 (-500) <= P < 1 ->
  positive_float ld Ld -> pow2 (-501) <= Ld <= 1 ->
  positive_float ln Ln -> pow2 (-501) <= Ln <= 1 ->
  within_factor k Ld D -> within_factor k Ln N -> 1 <= k ->
  PrimFloat.eqb (p * ld + (1 - p) * ln)%float 0%float = false /\
  exists Rr : R,
    positive_float (p * ld / (p * ld + (1 - p) * ln))%float Rr /\
    within_factor (call_factor * (k * k * (k * k))) Rr (bayes P D N).
Proof.
  intros Hp HP Hld HLd Hln HLn Cd Cn Hk.
  destruct (posterior_floats p ld ln P Ld Ln Hp HP Hld HLd Hln HLn)
    as (Hnz & Rr & HRr & CR).
  split; [exact Hnz|]. exists Rr. split; [exact HRr|].
  apply within_factor_trans with (1 := CR).
  pose proof (pow2_gt_0 (-500)) as H500.
  apply (within_factor_bayes k k P (1 - P) P Ld Ln D N); trivial.
  - apply within_factor_weaken with 1; [exact Hk|].
    apply within_factor_refl. lra.
  - apply within_factor_weaken with 1; [exact Hk|].
    apply within_factor_refl. lra.
  - lra.
Qed.



End Binary64.

(** Rounding to nearest keeps every operation of [update] inside
    [[0,1]]. *)
#[export] Instance float_unit_laws : UnitIntervalLaws float.
Proof.
  split.
  - reflexivity.
  - exact Binary64.float_sub_in_unit.
  - exact Binary64.float_mul_in_unit.
  - exact Binary64.float_quot_in_unit.
Qed.

(** ** The null test on floats *)

Section NullTest.

Local Open Scope float_scope.

Lemma float_ltb_leb (x y : float) :
  PrimFloat.ltb x y = true -> PrimFloat.leb x y = true.
Proof.
  rewrite ltb_spec, leb_spec. unfold SFltb, SFleb.
  destruct (SFcompare (Prim2SF x) (Prim2SF y)) as [[| |]|]; trivial;
    discriminate.
Qed.



End NullTest.

(** ** Two tests on floats *)

Section TwoTests.

Local Open Scope float_scope.


End TwoTests.

(** ** Concrete runs *)

(** *** On floats, as the script runs the class *)

Section FloatRuns.

Local Open Scope float_scope.

(** C1 at the first test of the script: prior [0.001], rates
    [(0.95, 0.02)], positive. *)
Lemma update_returns_bayes_posterior_witness :
  update {| prior := 0.001; posterior_history := [0.001] |}
         [(0.95, 0.02)] [true] =
  (Return (bayes_posterior 0.001 (evidence_list [(0.95, 0.02)] [true])),
   append_posterior {| prior := 0.001; posterior_history := [0.001] |}
     (bayes_posterior 0.001 (evidence_list [(0.95, 0.02)] [true]))).
Proof.
  apply (update_returns_bayes_posterior
           {| prior := 0.001; posterior_history := [0.001] |}
           [(0.95, 0.02)] [true] 0.001); reflexivity.
Defined.

(** C2 as stated fails: a test that cannot come out positive under either
    hypothesis, observed positive, makes the evidence probability zero, and
    what [update] raises is not [DegenerateEvidenceError]. *)
Lemma degenerate_evidence_error_not_raised :
  exists self : BayesianDiagnosis float,
    __init__ 0.001 = Return self /\
    num_is_zero (p_evidence 0.001 (evidence_list [(0, 0)] [true])) = true /\
    fst (update self [(0, 0)] [true]) <> Raise DegenerateEvidenceError.
Proof.
  eexists. split; [reflexivity|]. split; [reflexivity|].
  vm_compute. discriminate.
Qed.

Lemma zero_evidence_raises_ZeroDivisionError_witness :
  update {| prior := 0.001; posterior_history := [0.001] |} [(0, 0)] [true] =
  (Raise ZeroDivisionError,
   {| prior := 0.001; posterior_history := [0.001] |}).
Proof.
  apply (zero_evidence_raises_ZeroDivisionError
           {| prior := 0.001; posterior_history := [0.001] |}
           [(0, 0)] [true] 0.001); reflexivity.
Defined.

(** C6 as stated fails: a call with no evidence returns a value and
    appends it. *)
Lemma empty_evidence_is_accepted :
  exists self : BayesianDiagnosis float,
    __init__ 0.001 = Return self /\
    update self [] [] =
    (Return 0.001, {| prior := 0.001; posterior_history := [0.001; 0.001] |}) /\
    fst (update self [] []) <> Raise EmptyEvidenceError /\
    length (posterior_history (snd (update self [] []))) =
    S (length (posterior_history self)).
Proof.
  eexists. split; [reflexivity|]. split; [reflexivity|].
  split; [vm_compute; discriminate|reflexivity].
Qed.

Lemma update_empty_evidence_witness :
  update {| prior := 0.001; posterior_history := [0.001] |} [] [] =
  (Return 0.001, {| prior := 0.001; posterior_history := [0.001; 0.001] |}).
Proof.
  rewrite (update_empty_evidence
             {| prior := 0.001; posterior_history := [0.001] |}
             [] [] 0.001 eq_refl (or_introl eq_refl)).
  reflexivity.
Defined.

(** C7 as stated fails: a prior of [1.5] is accepted at construction, and a
    sensitivity of [1.5] is accepted by [update]. *)
Lemma out_of_range_values_are_accepted :
  __init__ 1.5 = Return {| prior := 1.5; posterior_history := [1.5] |} /\
  __init__ 1.5 <>
    Raise (A := BayesianDiagnosis float) InvalidProbabilityError /\
  exists posterior : float,
    fst (update {| prior := 0.5; posterior_history := [0.5] |}
                [(1.5, 0.5)] [true]) = Return posterior.
Proof.
  split; [reflexivity|]. split; [discriminate|].
  eexists. vm_compute. reflexivity.
Qed.

(** C9 as stated fails: the posterior of the first scenario is not within
    [1e-4] of [0.04566]. *)
Lemma scenario_1_is_not_0_04566 :
  exists (self : BayesianDiagnosis float) (posterior : float),
    __init__ 0.001 = Return self /\
    fst (update self [(0.95, 0.02)] [true]) = Return posterior /\
    close_to posterior 0.04566 1e-4 = false.
Proof.
  eexists. eexists. split; [reflexivity|].
  split; [vm_compute; reflexivity|reflexivity].
Qed.

(** C9, amended.  From the prior [0.001], one positive test with
    sensitivity [0.95] and false-positive rate [0.02] returns
    [0.045389393215480169], which is [0.04539] within [1e-4]. *)
Theorem scenario_1_posterior :
  exists self : BayesianDiagnosis float,
    __init__ 0.001 = Return self /\
    update self [(0.95, 0.02)] [true] =
    (Return 0.045389393215480169,
     append_posterior self 0.045389393215480169) /\
    close_to 0.045389393215480169 0.04539 1e-4 = true.
Proof.
  eexists. split; [reflexivity|]. split; reflexivity.
Qed.

(** C10 as stated fails: with two tests and one result only the first pair
    is fused, and when that pair has evidence probability zero the call
    raises and appends nothing. *)
Lemma length_mismatch_can_raise :
  exists self : BayesianDiagnosis float,
    __init__ 0.001 = Return self /\
    length [(0, 0); (0.5, 0.5)] <> length [true] /\
    update self [(0, 0); (0.5, 0.5)] [true] = (Raise ZeroDivisionError, self).
Proof.
  eexists. split; [reflexivity|]. split; [discriminate|reflexivity].
Qed.

Lemma update_truncates_to_shorter_witness :
  update {| prior := 0.001; posterior_history := [0.001] |}
         [(0.95, 0.02); (0.9, 0.05)] [true] =
  update {| prior := 0.001; posterior_history := [0.001] |}
         [(0.95, 0.02)] [true].
Proof.
  apply (update_truncates_to_shorter
           {| prior := 0.001; posterior_history := [0.001] |}
           [(0.95, 0.02); (0.9, 0.05)] [true] 0.001 eq_refl).
Defined.




(** C3 on the session of the script: three tests applied one call at a
    time. *)
Lemma history_stays_in_unit_interval_witness :
  Forall (fun x : float => in_unit x = true)
    (posterior_history
       (run_updates
          {| prior := 0.001; posterior_history := [0.001] |}
          [([(0.95, 0.02)], [true]);
           ([(0.90, 0.05)], [true]);
           ([(0.92, 0.03)], [false])])).
Proof.
  apply (history_stays_in_unit_interval 0.001).
  - reflexivity.
  - reflexivity.
  - repeat constructor.
Defined.

End FloatRuns.

(** *** On exact rationals *)

Section FractionRuns.

Local Open Scope Qc_scope.

(** The first scenario in exact arithmetic: [95/2093]. *)
Lemma scenario_1_exact :
  update {| prior := Q2Qc (1 # 1000);
            posterior_history := [Q2Qc (1 # 1000)] |}
         [(Q2Qc (95 # 100), Q2Qc (2 # 100))] [true] =
  (Return (Q2Qc (95 # 2093)),
   {| prior := Q2Qc (1 # 1000);
      posterior_history := [Q2Qc (1 # 1000); Q2Qc (95 # 2093)] |}).
Proof.
  erewrite update_cases by reflexivity. cbv zeta.
  assert (E : bayes_posterior (Q2Qc (1 # 1000))
                (evidence_list [(Q2Qc (95 # 100), Q2Qc (2 # 100))] [true]) =
              Q2Qc (95 # 2093))
    by (apply Qc_is_canon; reflexivity).
  rewrite E. reflexivity.
Qed.

Lemma batched_equals_sequential_exact_witness :
  exists p1 p2 : Qc,
    update {| prior := Q2Qc (1 # 1000);
              posterior_history := [Q2Qc (1 # 1000)] |}
           [(Q2Qc (95 # 100), Q2Qc (2 # 100))] [true] =
      (Return p1,
       append_posterior
         {| prior := Q2Qc (1 # 1000);
            posterior_history := [Q2Qc (1 # 1000)] |} p1) /\
    update (append_posterior
              {| prior := Q2Qc (1 # 1000);
                 posterior_history := [Q2Qc (1 # 1000)] |} p1)
           [(Q2Qc (9 # 10), Q2Qc (5 # 100))] [true] =
      (Return p2,
       append_posterior
         (append_posterior
            {| prior := Q2Qc (1 # 1000);
               posterior_history := [Q2Qc (1 # 1000)] |} p1) p2) /\
    update {| prior := Q2Qc (1 # 1000);
              posterior_history := [Q2Qc (1 # 1000)] |}
           [(Q2Qc (95 # 100), Q2Qc (2 # 100));
            (Q2Qc (9 # 10), Q2Qc (5 # 100))] [true; true] =
      (Return p2,
       append_posterior
         {| prior := Q2Qc (1 # 1000);
            posterior_history := [Q2Qc (1 # 1000)] |} p2).
Proof.
  apply (batched_equals_sequential_exact
           {| prior := Q2Qc (1 # 1000);
              posterior_history := [Q2Qc (1 # 1000)] |}
           (Q2Qc (95 # 100), Q2Qc (2 # 100))
           (Q2Qc (9 # 10), Q2Qc (5 # 100)) true true
           (Q2Qc (1 # 1000)) eq_refl);
    apply fraction_not_zero; reflexivity.
Defined.

End FractionRuns.

(** * Sessions, callers and special values *)

(** ** Sessions *)

Section Sessions.
Context {T : Type} `{PyNumber T}.
Local Open Scope py_scope.

Lemma update_appends (self : BayesianDiagnosis T)
    (tests : list (T * T)) (results : list bool) :
  prior (snd (update self tests results)) = prior self /\
  posterior_history (snd (update self tests results)) =
  posterior_history self ++
  match fst (update self tests results) with
  | Return posterior => [posterior]
  | Raise _ => []
  end.
Proof.
  destruct (update_outcome self tests results) as [(e & _ & ->)|(q & ->)];
    simpl; [now rewrite app_nil_r|split; reflexivity].
Qed.

Lemma session_history (self : BayesianDiagnosis T)
    (calls : list (list (T * T) * list bool)) :
  posterior_history (run_updates self calls) =
  posterior_history self ++ returned_posteriors self calls.
Proof.
  revert self. induction calls as [|[tests results] calls IH]; intros self.
  - simpl. now rewrite app_nil_r.
  - simpl run_updates. simpl returned_posteriors. rewrite IH.
    destruct (update_appends self tests results) as [_ Eh]. rewrite Eh.
    destruct (update self tests results) as [[q|e] self']; simpl.
    + now rewrite <- app_assoc.
    + now rewrite app_nil_r.
Qed.

(** X1. The history is a log: after any session it is the history the
    session started from followed by the posteriors its calls returned, in
    call order.  A call that raises leaves no trace, no entry is ever
    rewritten or dropped, and the attribute [prior] never changes. *)
Theorem history_is_append_only (self : BayesianDiagnosis T)
    (calls : list (list (T * T) * list bool)) :
  posterior_history (run_updates self calls) =
    posterior_history self ++ returned_posteriors self calls /\
  prior (run_updates self calls) = prior self.
Proof.
  split; [apply session_history|].
  revert self. induction calls as [|[tests results] calls IH]; intros self.
  - reflexivity.
  - simpl run_updates. rewrite IH.
    now destruct (update_appends self tests results) as [Ep _].
Qed.

Lemma update_keeps_head (self : BayesianDiagnosis T)
    (tests : list (T * T)) (results : list bool) (x : T) :
  hd_error (posterior_history self) = Some x ->
  hd_error (posterior_history (snd (update self tests results))) = Some x.
Proof.
  intros Hx. destruct (update_appends self tests results) as [_ ->].
  destruct (posterior_history self); [discriminate|exact Hx].
Qed.

(** X2. In a session started by the constructor the history is never
    empty and its first entry stays the prior, so [history[-1]] never
    raises: whatever the arguments, a call either raises
    [ZeroDivisionError] and changes nothing, or returns a posterior and
    appends it. *)
Theorem session_raises_only_ZeroDivisionError (prior0 : T)
    (self : BayesianDiagnosis T)
    (calls : list (list (T * T) * list bool))
    (tests : list (T * T)) (results : list bool) :
  __init__ prior0 = Return self ->
  hd_error (posterior_history (run_updates self calls)) = Some prior0 /\
  (update (run_updates self calls) tests results =
     (Raise ZeroDivisionError, run_updates self calls) \/
   exists posterior,
     update (run_updates self calls) tests results =
     (Return posterior, append_posterior (run_updates self calls) posterior)).
Proof.
  intros Hinit.
  assert (Hhd : hd_error (posterior_history (run_updates self calls))
                = Some prior0).
  { assert (H0 : hd_error (posterior_history self) = Some prior0)
      by (injection Hinit as <-; reflexivity).
    clear Hinit. revert self H0.
    induction calls as [|[t r] calls IH]; intros self H0; [exact H0|].
    simpl. apply IH. now apply update_keeps_head. }
  split; [exact Hhd|].
  destruct (update_outcome (run_updates self calls) tests results)
    as [(e & [->| ->] & E)|Hret].
  - now left.
  - exfalso.
    destruct (getitem_last_cases (posterior_history (run_updates self calls)))
      as [[Enil _]|(p & Ep & _)].
    + rewrite Enil in Hhd. discriminate.
    + rewrite (update_cases _ _ _ _ Ep) in E. cbv zeta in E.
      destruct (num_is_zero _); discriminate.
  - now right.
Qed.

End Sessions.

(** ** Fusion in exact arithmetic *)

Section ExactFusion.

Local Open Scope Qc_scope.

(** *** From canonical rationals to rationals *)

Lemma this_add (x y : Qc) : (this (x + y) == this x + this y)%Q.
Proof. apply Qred_correct. Qed.

Lemma this_mul (x y : Qc) : (this (x * y) == this x * this y)%Q.
Proof. apply Qred_correct. Qed.

Lemma this_opp (x : Qc) : (this (- x) == - this x)%Q.
Proof. apply Qred_correct. Qed.

Lemma this_sub (x y : Qc) : (this (x - y) == this x - this y)%Q.
Proof. unfold Qcminus. rewrite this_add, this_opp. reflexivity. Qed.

Lemma this_eq (x y : Qc) : x = y <-> (this x == this y)%Q.
Proof. split; [now intros ->|apply Qc_is_canon]. Qed.

(** Orders and equations on canonical rationals, read on the rationals
    they stand for. *)
Ltac to_Q :=
  unfold Qclt, Qcle in *; rewrite ?this_eq in *;
  repeat (rewrite ?this_add, ?this_mul, ?this_sub, ?this_opp in * );
  change (this 0) with 0%Q in *; change (this 1) with 1%Q in *.

(** *** Products *)

Lemma fold_mul_acc (l : list Qc) (a : Qc) :
  fold_left Qcmult l a = a * fold_left Qcmult l 1.
Proof.
  revert a. induction l as [|x l IH]; intros a; simpl; [ring|].
  rewrite (IH (a * x)), (IH (1 * x)). ring.
Qed.

Lemma product_app (l1 l2 : list Qc) :
  product (l1 ++ l2) = product l1 * product l2.
Proof.
  unfold product. simpl. rewrite fold_left_app. apply fold_mul_acc.
Qed.

Lemma product_Permutation (l1 l2 : list Qc) :
  Permutation l1 l2 -> product l1 = product l2.
Proof.
  unfold product. simpl. generalize (1 : Qc).
  intros a Hp. revert a.
  induction Hp as [|x l1 l2 _ IH|x y l|l1 l2 l3 _ IH1 _ IH2]; intros a; simpl.
  - reflexivity.
  - apply IH.
  - f_equal. ring.
  - now rewrite IH1.
Qed.

Lemma product_positive (l : list Qc) :
  Forall (fun x => 0 < x) l -> 0 < product l.
Proof.
  unfold product. simpl. assert (H1 : 0 < (1 : Qc)) by reflexivity.
  revert H1. generalize (1 : Qc). intros a Ha Hl. revert a Ha.
  induction Hl as [|x l Hx _ IH]; intros a Ha; simpl; trivial.
  apply IH. to_Q. Lqa.nra.
Qed.

Lemma product_nonnegative (l : list Qc) :
  Forall (fun x => 0 <= x) l -> 0 <= product l.
Proof.
  unfold product. simpl. assert (H1 : 0 <= (1 : Qc)) by discriminate.
  revert H1. generalize (1 : Qc). intros a Ha Hl. revert a Ha.
  induction Hl as [|x l Hx _ IH]; intros a Ha; simpl; trivial.
  apply IH. to_Q. Lqa.nra.
Qed.

(** *** The evidence of two batches *)

Lemma zip_app {A B : Type} (xs xs' : list A) (ys ys' : list B) :
  length xs = length ys ->
  zip (xs ++ xs') (ys ++ ys') = zip xs ys ++ zip xs' ys'.
Proof.
  revert ys. induction xs as [|x xs IH]; intros [|y ys] Hlen;
    try discriminate Hlen; simpl; trivial.
  f_equal. apply IH. now injection Hlen.
Qed.

Lemma evidence_list_app (tests1 tests2 : list (Qc * Qc))
    (results1 results2 : list bool) :
  length tests1 = length results1 ->
  evidence_list (tests1 ++ tests2) (results1 ++ results2) =
  evidence_list tests1 results1 ++ evidence_list tests2 results2.
Proof.
  intros Hlen. unfold evidence_list. now rewrite zip_app, map_app.
Qed.

Lemma likelihood_d_app (ev1 ev2 : list (Evidence Qc)) :
  likelihood_d (ev1 ++ ev2) = likelihood_d ev1 * likelihood_d ev2.
Proof. unfold likelihood_d. now rewrite map_app, product_app. Qed.

Lemma likelihood_not_d_app (ev1 ev2 : list (Evidence Qc)) :
  likelihood_not_d (ev1 ++ ev2) = likelihood_not_d ev1 * likelihood_not_d ev2.
Proof. unfold likelihood_not_d. now rewrite map_app, product_app. Qed.

(** Bayes' rule after Bayes' rule is Bayes' rule on the products. *)
Lemma fusion_algebra (p d1 n1 d2 n2 : Qc) :
  p * d1 + (1 - p) * n1 <> 0 ->
  p * (d1 * d2) + (1 - p) * (n1 * n2) <> 0 ->
  let p1 := p * d1 / (p * d1 + (1 - p) * n1) in
  p1 * d2 + (1 - p1) * n2 <> 0 /\
  p1 * d2 / (p1 * d2 + (1 - p1) * n2) =
  p * (d1 * d2) / (p * (d1 * d2) + (1 - p) * (n1 * n2)).
Proof.
  intros H1 H12 p1.
  assert (HE2 : p1 * d2 + (1 - p1) * n2 =
                (p * (d1 * d2) + (1 - p) * (n1 * n2)) /
                (p * d1 + (1 - p) * n1))
    by (unfold p1; field; exact H1).
  rewrite HE2. split.
  - intros Hq. apply H12.
    rewrite <- (Qcmult_div_r (p * (d1 * d2) + (1 - p) * (n1 * n2))
                  (p * d1 + (1 - p) * n1) H1), Hq.
    ring.
  - unfold p1. field. split; assumption.
Qed.

Lemma posterior_compose (p : Qc) (ev1 ev2 : list (Evidence Qc)) :
  p_evidence p ev1 <> 0 ->
  p_evidence p (ev1 ++ ev2) <> 0 ->
  p_evidence (bayes_posterior p ev1) ev2 <> 0 /\
  bayes_posterior (bayes_posterior p ev1) ev2 = bayes_posterior p (ev1 ++ ev2).
Proof.
  unfold bayes_posterior, p_evidence.
  rewrite likelihood_d_app, likelihood_not_d_app. simpl.
  apply fusion_algebra.
Qed.

(** X3. In exact arithmetic two calls in a row are one call on the
    concatenated evidence: when the first batch pairs every test with a
    result and neither the first batch nor the two together have evidence
    probability zero, all three calls return and the second call ends on
    the posterior of the single call. *)
Theorem consecutive_calls_fuse_exact (self : BayesianDiagnosis Qc)
    (tests1 tests2 : list (Qc * Qc)) (results1 results2 : list bool)
    (p_d : Qc) :
  getitem_last (posterior_history self) = Return p_d ->
  length tests1 = length results1 ->
  p_evidence p_d (evidence_list tests1 results1) <> 0 ->
  p_evidence p_d
    (evidence_list (tests1 ++ tests2) (results1 ++ results2)) <> 0 ->
  exists p1 p2 : Qc,
    update self tests1 results1 = (Return p1, append_posterior self p1) /\
    update (append_posterior self p1) tests2 results2 =
      (Return p2, append_posterior (append_posterior self p1) p2) /\
    update self (tests1 ++ tests2) (results1 ++ results2) =
      (Return p2, append_posterior self p2).
Proof.
  intros Hlast Hlen H1 H12.
  rewrite evidence_list_app in H12 by exact Hlen.
  destruct (posterior_compose p_d _ _ H1 H12) as [H2 E2].
  exists (bayes_posterior p_d (evidence_list tests1 results1)),
    (bayes_posterior p_d
       (evidence_list tests1 results1 ++ evidence_list tests2 results2)).
  rewrite !(update_cases _ _ _ _ Hlast),
    (update_cases (append_posterior self _) _ _ _
       (getitem_last_app (posterior_history self) _)).
  cbv zeta. rewrite evidence_list_app by exact Hlen.
  apply fraction_not_zero in H1, H12, H2.
  rewrite H1, H12, H2, E2. repeat split; reflexivity.
Qed.

(** *** One test per call *)

Lemma evidence_positive (p : Qc) (ev : list (Evidence Qc)) :
  0 < p -> p <= 1 ->
  Forall (fun e => 0 < factor_d e /\ 0 <= factor_not_d e) ev ->
  0 < p_evidence p ev.
Proof.
  intros Hp Hp1 Hev.
  assert (Hd : 0 < likelihood_d ev).
  { apply product_positive, Forall_map.
    apply Forall_impl with (2 := Hev). now intros e [He _]. }
  assert (Hn : 0 <= likelihood_not_d ev).
  { apply product_nonnegative, Forall_map.
    apply Forall_impl with (2 := Hev). now intros e [_ He]. }
  unfold p_evidence. simpl.
  set (a := likelihood_d ev) in *. set (b := likelihood_not_d ev) in *.
  clearbody a b. to_Q. Lqa.nra.
Qed.

Lemma Qclt_not_zero (x : Qc) : 0 < x -> x <> 0.
Proof. intros Hx ->. discriminate Hx. Qed.

Lemma posterior_positive (p : Qc) (ev : list (Evidence Qc)) :
  0 < p -> p <= 1 ->
  Forall (fun e => 0 < factor_d e /\ 0 <= factor_not_d e) ev ->
  0 < bayes_posterior p ev /\ bayes_posterior p ev <= 1.
Proof.
  intros Hp Hp1 Hev.
  pose proof (evidence_positive p ev Hp Hp1 Hev) as HE.
  assert (Hd : 0 < likelihood_d ev).
  { apply product_positive, Forall_map.
    apply Forall_impl with (2 := Hev). now intros e [He _]. }
  assert (Hn : 0 <= likelihood_not_d ev).
  { apply product_nonnegative, Forall_map.
    apply Forall_impl with (2 := Hev). now intros e [_ He]. }
  assert (Eq : bayes_posterior p ev * p_evidence p ev = p * likelihood_d ev).
  { unfold bayes_posterior. simpl. field. now apply Qclt_not_zero. }
  unfold p_evidence in *. simpl in *.
  set (q := bayes_posterior p ev) in *.
  set (a := likelihood_d ev) in *. set (b := likelihood_not_d ev) in *.
  clearbody q a b. to_Q. split; Lqa.nra.
Qed.

Lemma one_by_one_items (items : list ((Qc * Qc) * bool))
    (self : BayesianDiagnosis Qc) (p : Qc) :
  let ev := map (fun item : (Qc * Qc) * bool =>
                   {| sensitivity := fst (fst item);
                      false_positive_rate := snd (fst item);
                      outcome_positive := snd item |}) items in
  let calls := map (fun item : (Qc * Qc) * bool =>
                      ([fst item], [snd item])) items in
  getitem_last (posterior_history self) = Return p ->
  0 < p -> p <= 1 ->
  Forall (fun e => 0 < factor_d e /\ 0 <= factor_not_d e) ev ->
  getitem_last (posterior_history (run_updates self calls)) =
    Return (bayes_posterior p ev) /\
  length (posterior_history (run_updates self calls)) =
    (length (posterior_history self) + length items)%nat.
Proof.
  cbv zeta. revert self p.
  induction items as [|[[s f] r] items IH]; intros self p Hlast Hp Hp1 Hev.
  - simpl map. simpl run_updates. split; [|now rewrite Nat.add_0_r].
    rewrite Hlast. f_equal.
    unfold bayes_posterior, p_evidence, likelihood_d, likelihood_not_d,
      product.
    simpl. replace (p * 1 + (1 - p) * 1) with (1 : Qc) by ring.
    field. discriminate.
  - simpl map in *. simpl run_updates.
    set (e := {| sensitivity := s; false_positive_rate := f;
                 outcome_positive := r |}) in *.
    set (ev := map _ items) in *.
    pose proof (Forall_inv Hev) as He. pose proof (Forall_inv_tail Hev) as Ht.
    assert (He1 : Forall (fun e => 0 < factor_d e /\ 0 <= factor_not_d e) [e])
      by (constructor; [exact He|constructor]).
    pose proof (evidence_positive p [e] Hp Hp1 He1) as HE1.
    pose proof (evidence_positive p (e :: ev) Hp Hp1 Hev) as HE.
    destruct (posterior_positive p [e] Hp Hp1 He1) as [Hq Hq1].
    apply Qclt_not_zero in HE1, HE.
    destruct (posterior_compose p [e] ev HE1 HE) as [_ Ec].
    rewrite (update_cases _ _ _ _ Hlast). cbv zeta.
    change (evidence_list [(s, f)] [r]) with [e].
    apply fraction_not_zero in HE1. rewrite HE1.
    cbn [snd].
    destruct (IH (append_posterior self (bayes_posterior p [e]))
                (bayes_posterior p [e]) (getitem_last_app _ _) Hq Hq1 Ht)
      as [IHlast IHlen].
    split.
    + rewrite IHlast. f_equal. exact Ec.
    + rewrite IHlen. simpl. rewrite length_app. simpl. lia.
Qed.

(** X4. In exact arithmetic it does not matter whether a caller passes
    the tests one call at a time or all in one call.  From a belief in
    (0,1] and observed outcomes that are possible under the hypothesis (and
    of non-negative likelihood under its negation), the single call
    returns, every one of the single-test calls returns, and the last of
    them ends on the posterior of the single call. *)
Theorem one_by_one_equals_batch_exact (self : BayesianDiagnosis Qc)
    (tests : list (Qc * Qc)) (results : list bool) (p_d : Qc) :
  getitem_last (posterior_history self) = Return p_d ->
  0 < p_d -> p_d <= 1 ->
  Forall (fun e => 0 < factor_d e /\ 0 <= factor_not_d e)
    (evidence_list tests results) ->
  exists posterior : Qc,
    update self tests results =
      (Return posterior, append_posterior self posterior) /\
    getitem_last
      (posterior_history (run_updates self (one_by_one tests results))) =
      Return posterior /\
    length (posterior_history (run_updates self (one_by_one tests results))) =
      (length (posterior_history self) + length (zip tests results))%nat.
Proof.
  intros Hlast Hp Hp1 Hev.
  exists (bayes_posterior p_d (evidence_list tests results)). split.
  - rewrite (update_cases _ _ _ _ Hlast). cbv zeta.
    pose proof (evidence_positive p_d _ Hp Hp1 Hev) as HE.
    apply Qclt_not_zero, fraction_not_zero in HE. now rewrite HE.
  - exact (one_by_one_items (zip tests results) self p_d Hlast Hp Hp1 Hev).
Qed.

(** *** The order of the tests *)

(** X5. In exact arithmetic the order of the tests inside one call does
    not matter: two calls whose (test, result) pairs are permutations of
    each other do the same thing. *)
Theorem update_order_irrelevant_exact (self : BayesianDiagnosis Qc)
    (tests tests' : list (Qc * Qc)) (results results' : list bool) :
  Permutation (zip tests results) (zip tests' results') ->
  update self tests results = update self tests' results'.
Proof.
  intros Hperm. unfold update.
  destruct (getitem_last (posterior_history self)) as [p|e]; [|reflexivity].
  rewrite !likelihoods_products.
  assert (Hev : Permutation (evidence_list tests results)
                  (evidence_list tests' results'))
    by (unfold evidence_list; now apply Permutation_map).
  assert (Ed : likelihood_d (evidence_list tests results) =
               likelihood_d (evidence_list tests' results'))
    by (unfold likelihood_d; now apply product_Permutation, Permutation_map).
  assert (En : likelihood_not_d (evidence_list tests results) =
               likelihood_not_d (evidence_list tests' results'))
    by (unfold likelihood_not_d;
        now apply product_Permutation, Permutation_map).
  now rewrite Ed, En.
Qed.

(** *** Which way the belief moves *)

(** X6. In exact arithmetic, from a belief strictly between 0 and 1 and
    test rates in [[0,1]], a call that returns moves the belief up exactly
    when the evidence is at least as likely under the hypothesis as under
    its negation, and leaves it where it was exactly when the two
    likelihoods are equal. *)
Theorem posterior_follows_likelihood_ratio (self : BayesianDiagnosis Qc)
    (tests : list (Qc * Qc)) (results : list bool) (p_d posterior : Qc) :
  getitem_last (posterior_history self) = Return p_d ->
  0 < p_d -> p_d < 1 ->
  valid_tests tests ->
  fst (update self tests results) = Return posterior ->
  (p_d <= posterior <->
   likelihood_not_d (evidence_list tests results) <=
   likelihood_d (evidence_list tests results)) /\
  (posterior = p_d <->
   likelihood_d (evidence_list tests results) =
   likelihood_not_d (evidence_list tests results)).
Proof.
  intros Hlast Hp Hp1 Hv Hret.
  rewrite (update_cases _ _ _ _ Hlast) in Hret. cbv zeta in Hret.
  destruct (num_is_zero _) eqn:Hz; [discriminate Hret|].
  assert (Eq0 : bayes_posterior p_d (evidence_list tests results) = posterior)
    by (cbn [fst] in Hret; congruence).
  clear Hret. apply fraction_not_zero in Hz.
  destruct (factors_in_unit tests results Hv) as [Hfd Hfn].
  assert (Hd : in_unit (likelihood_d (evidence_list tests results)) = true)
    by (apply product_in_unit; trivial; apply unit_one).
  assert (Hn : in_unit (likelihood_not_d (evidence_list tests results)) = true)
    by (apply product_in_unit; trivial; apply unit_one).
  apply fraction_in_unit in Hd, Hn. destruct Hd as [Hd _], Hn as [Hn _].
  assert (Eq : posterior * p_evidence p_d (evidence_list tests results) =
               p_d * likelihood_d (evidence_list tests results))
    by (rewrite <- Eq0; unfold bayes_posterior; simpl; field; exact Hz).
  clear Eq0. unfold p_evidence in Hz, Eq.
  set (a := likelihood_d (evidence_list tests results)) in *.
  set (b := likelihood_not_d (evidence_list tests results)) in *.
  clearbody a b. simpl in *. to_Q.
  assert (HE : (0 < this p_d * this a + (1 - this p_d) * this b)%Q).
  { destruct (Qlt_le_dec 0 (this p_d * this a + (1 - this p_d) * this b))
      as [Hlt|Hle]; trivial.
    exfalso. apply Hz. Lqa.nra. }
  assert (Hc : (0 < this p_d * (1 - this p_d))%Q) by Lqa.nra.
  assert (K : ((this posterior - this p_d) *
               (this p_d * this a + (1 - this p_d) * this b) ==
               this p_d * (1 - this p_d) * (this a - this b))%Q) by Lqa.nra.
  set (E := (this p_d * this a + (1 - this p_d) * this b)%Q) in *.
  set (c := (this p_d * (1 - this p_d))%Q) in *.
  clearbody E c. clear Eq Hz.
  split; split; intros Hcmp; Lqa.nra.
Qed.

(** *** Certainty is never reached *)

Lemma posterior_below_one (p : Qc) (ev : list (Evidence Qc)) :
  0 < p -> p < 1 ->
  Forall (fun e => 0 < factor_d e /\ 0 < factor_not_d e) ev ->
  p_evidence p ev <> 0 /\
  0 < bayes_posterior p ev /\ bayes_posterior p ev < 1.
Proof.
  intros Hp Hp1 Hev.
  assert (Hd : 0 < likelihood_d ev).
  { apply product_positive, Forall_map.
    apply Forall_impl with (2 := Hev). now intros e [He _]. }
  assert (Hn : 0 < likelihood_not_d ev).
  { apply product_positive, Forall_map.
    apply Forall_impl with (2 := Hev). now intros e [_ He]. }
  assert (HE : 0 < p_evidence p ev).
  { unfold p_evidence. simpl.
    set (a := likelihood_d ev) in *. set (b := likelihood_not_d ev) in *.
    clearbody a b. to_Q. Lqa.nra. }
  split; [now apply Qclt_not_zero|].
  assert (Eq : bayes_posterior p ev * p_evidence p ev = p * likelihood_d ev).
  { unfold bayes_posterior. simpl. field. now apply Qclt_not_zero. }
  unfold p_evidence in *. simpl in *.
  set (q := bayes_posterior p ev) in *.
  set (a := likelihood_d ev) in *. set (b := likelihood_not_d ev) in *.
  clearbody q a b. to_Q. split; Lqa.nra.
Qed.

(** X7. In exact arithmetic a session never reaches certainty by
    itself.  Started by the constructor from a prior strictly between 0
    and 1, and given only observed outcomes of positive likelihood under
    the hypothesis and under its negation, no call raises and every entry
    of the history lies strictly between 0 and 1. *)
Theorem belief_stays_uncertain_exact (prior0 : Qc)
    (self : BayesianDiagnosis Qc)
    (calls : list (list (Qc * Qc) * list bool)) :
  __init__ prior0 = Return self ->
  0 < prior0 -> prior0 < 1 ->
  Forall (fun call =>
            Forall (fun e => 0 < factor_d e /\ 0 < factor_not_d e)
                   (evidence_list (fst call) (snd call))) calls ->
  Forall (fun x => 0 < x /\ x < 1)
         (posterior_history (run_updates self calls)) /\
  length (posterior_history (run_updates self calls)) = S (length calls).
Proof.
  intros Hinit Hp Hp1 Hcalls.
  assert (Hall : Forall (fun x => 0 < x /\ x < 1) (posterior_history self))
    by (injection Hinit as <-; simpl; constructor; [now split|constructor]).
  assert (Hlen : length (posterior_history self) = 1%nat)
    by (injection Hinit as <-; reflexivity).
  replace (S (length calls))
    with (length (posterior_history self) + length calls)%nat by lia.
  assert (Hne : posterior_history self <> [])
    by (destruct (posterior_history self); [discriminate Hlen|discriminate]).
  clear Hinit Hlen. revert self Hall Hne.
  induction Hcalls as [|[tests results] calls Hev _ IH]; intros self Hall Hne.
  - simpl. split; [exact Hall|lia].
  - simpl run_updates. simpl fst in Hev. simpl snd in Hev.
    destruct (getitem_last_cases (posterior_history self))
      as [[Enil _]|(p & Elast & Hin)]; [now elim Hne|].
    rewrite Forall_forall in Hall. destruct (Hall p Hin) as [Hp0 Hp1'].
    destruct (posterior_below_one p _ Hp0 Hp1' Hev) as (HE & Hq0 & Hq1).
    rewrite (update_cases _ _ _ _ Elast). cbv zeta.
    apply fraction_not_zero in HE. rewrite HE. cbn [snd].
    destruct (IH (append_posterior self
                    (bayes_posterior p (evidence_list tests results))))
      as [IH1 IH2].
    + simpl. apply Forall_app. split.
      * now apply Forall_forall.
      * constructor; [now split|constructor].
    + simpl. destruct (posterior_history self); discriminate.
    + split; [exact IH1|]. rewrite IH2. simpl.
      rewrite length_app. simpl. lia.
Qed.

(** *** The two hypotheses *)

Lemma zip_map_l {A A' B : Type} (f : A -> A') (xs : list A) (ys : list B) :
  zip (map f xs) ys = map (fun item => (f (fst item), snd item)) (zip xs ys).
Proof.
  revert ys. induction xs as [|x xs IH]; intros [|y ys]; simpl; trivial.
  now rewrite IH.
Qed.

Lemma likelihoods_swapped (tests : list (Qc * Qc)) (results : list bool) :
  likelihood_d
    (evidence_list (map (fun t => (snd t, fst t)) tests) results) =
  likelihood_not_d (evidence_list tests results) /\
  likelihood_not_d
    (evidence_list (map (fun t => (snd t, fst t)) tests) results) =
  likelihood_d (evidence_list tests results).
Proof.
  unfold likelihood_d, likelihood_not_d, evidence_list.
  rewrite zip_map_l, !map_map. split; reflexivity.
Qed.

(** X8. In exact arithmetic the code treats the hypothesis and its
    negation alike: started from the complementary belief [1 - p_d] and
    given the same tests with the two rates of each exchanged, a call
    returns the complement of what the original call returns. *)
Theorem complementary_hypothesis_exact (self self' : BayesianDiagnosis Qc)
    (tests : list (Qc * Qc)) (results : list bool) (p_d posterior : Qc) :
  getitem_last (posterior_history self) = Return p_d ->
  getitem_last (posterior_history self') = Return (1 - p_d) ->
  update self tests results =
    (Return posterior, append_posterior self posterior) ->
  update self' (map (fun t => (snd t, fst t)) tests) results =
    (Return (1 - posterior), append_posterior self' (1 - posterior)).
Proof.
  intros Hlast Hlast' Hret.
  rewrite (update_cases _ _ _ _ Hlast) in Hret.
  rewrite (update_cases _ _ _ _ Hlast'). cbv zeta in *.
  destruct (num_is_zero _) eqn:Hzb in Hret; [discriminate Hret|].
  assert (Eq0 : bayes_posterior p_d (evidence_list tests results) = posterior)
    by congruence.
  clear Hret. pose proof (proj1 (fraction_not_zero _) Hzb) as Hz.
  destruct (likelihoods_swapped tests results) as [Ed En].
  unfold bayes_posterior, p_evidence in *. rewrite Ed, En.
  set (a := likelihood_d (evidence_list tests results)) in *.
  set (b := likelihood_not_d (evidence_list tests results)) in *.
  clearbody a b. simpl in *.
  assert (E' : (1 - p_d) * b + (1 - (1 - p_d)) * a = p_d * a + (1 - p_d) * b)
    by ring.
  assert (Eq : (1 - p_d) * b / (p_d * a + (1 - p_d) * b) = 1 - posterior)
    by (rewrite <- Eq0; field; exact Hz).
  now rewrite E', Hzb, Eq.
Qed.

End ExactFusion.

(** ** Special values on floats: NaN, zero and one *)

Module SpecialValues.

Local Open Scope Z_scope.

(** *** NaN *)

Lemma SFeqb_refl (x : spec_float) : x <> S754_nan -> SFeqb x x = true.
Proof.
  destruct x as [s|s| |s m e]; intros Hx; try reflexivity.
  - now destruct s.
  - now elim Hx.
  - unfold SFeqb, SFcompare.
    change (Pos.compare_cont Eq m m) with (Pos.compare m m).
    rewrite Z.compare_refl, Pos.compare_refl. now destruct s.
Qed.

Lemma is_nan_spec (x : float) :
  PrimFloat.is_nan x = true <-> Prim2SF x = S754_nan.
Proof.
  unfold PrimFloat.is_nan. rewrite eqb_spec, negb_true_iff. split.
  - intros H. destruct (Prim2SF x) eqn:E; trivial;
      rewrite SFeqb_refl in H by discriminate; discriminate H.
  - now intros ->.
Qed.

Lemma nan_mul_l (x y : float) :
  PrimFloat.is_nan x = true -> PrimFloat.is_nan (x * y) = true.
Proof. rewrite !is_nan_spec, mul_spec. now intros ->. Qed.

Lemma nan_mul_r (x y : float) :
  PrimFloat.is_nan y = true -> PrimFloat.is_nan (x * y) = true.
Proof.
  rewrite !is_nan_spec, mul_spec. intros ->. now destruct (Prim2SF x).
Qed.

Lemma nan_add_l (x y : float) :
  PrimFloat.is_nan x = true -> PrimFloat.is_nan (x + y) = true.
Proof. rewrite !is_nan_spec, add_spec. now intros ->. Qed.

Lemma nan_add_r (x y : float) :
  PrimFloat.is_nan y = true -> PrimFloat.is_nan (x + y) = true.
Proof.
  rewrite !is_nan_spec, add_spec. intros ->. now destruct (Prim2SF x).
Qed.

Lemma nan_sub_r (x y : float) :
  PrimFloat.is_nan y = true -> PrimFloat.is_nan (x - y) = true.
Proof.
  rewrite !is_nan_spec, sub_spec. intros ->. now destruct (Prim2SF x).
Qed.

Lemma nan_div_r (x y : float) :
  PrimFloat.is_nan y = true -> PrimFloat.is_nan (x / y) = true.
Proof.
  rewrite !is_nan_spec, div_spec. intros ->. now destruct (Prim2SF x).
Qed.

Lemma nan_not_zero (x : float) :
  PrimFloat.is_nan x = true -> PrimFloat.eqb x 0 = false.
Proof. rewrite is_nan_spec, eqb_spec. now intros ->. Qed.

(** a product that meets a NaN is NaN *)
Lemma nan_product_acc (l : list float) (a : float) :
  PrimFloat.is_nan a = true ->
  PrimFloat.is_nan (fold_left PrimFloat.mul l a) = true.
Proof.
  revert a. induction l as [|x l IH]; intros a Ha; simpl; trivial.
  now apply IH, nan_mul_l.
Qed.

Lemma nan_product (l : list float) (a : float) :
  Exists (fun x => PrimFloat.is_nan x = true) l ->
  PrimFloat.is_nan (fold_left PrimFloat.mul l a) = true.
Proof.
  intros Hl. revert a. induction Hl as [x l Hx|x l _ IH]; intros a; simpl.
  - now apply nan_product_acc, nan_mul_r.
  - apply IH.
Qed.

(** *** Zero and one *)

Lemma is_zero_spec (x : float) :
  PrimFloat.is_zero x = true <-> exists s, Prim2SF x = S754_zero s.
Proof.
  unfold PrimFloat.is_zero. rewrite eqb_spec.
  change (Prim2SF zero) with (S754_zero false). split.
  - destruct (Prim2SF x) as [s|s| |s m e]; intros H; try discriminate H.
    + now exists s.
    + destruct s; discriminate H.
    + destruct s; discriminate H.
  - now intros [s ->].
Qed.

Lemma not_zero_finite (x : float) (s : bool) (m : positive) (e : Z) :
  Prim2SF x = S754_finite s m e -> PrimFloat.is_zero x = false.
Proof.
  intros E. unfold PrimFloat.is_zero. rewrite eqb_spec, E.
  now destruct s.
Qed.

(** a float of [[0,1]] is a zero or a positive finite number *)
Lemma in_unit_cases (x : float) :
  in_unit x = true ->
  PrimFloat.is_zero x = true \/
  exists m e, Prim2SF x = S754_finite false m e.
Proof.
  rewrite Binary64.float_in_unit_spec. intros H.
  destruct (Binary64.sf_in_unit_cases _ (Prim2SF_valid x) H)
    as [[s E]|(m & e & E & _)].
  - left. apply is_zero_spec. now exists s.
  - right. now exists m, e.
Qed.

Lemma zero_in_unit (x : float) :
  PrimFloat.is_zero x = true -> in_unit x = true.
Proof.
  rewrite is_zero_spec, Binary64.float_in_unit_spec. now intros [s ->].
Qed.

Lemma zero_mul_l (x y : float) :
  PrimFloat.is_zero x = true -> in_unit y = true ->
  PrimFloat.is_zero (x * y) = true.
Proof.
  intros Hx Hy. apply is_zero_spec in Hx. destruct Hx as [s Ex].
  apply is_zero_spec. rewrite mul_spec, Ex.
  destruct (in_unit_cases y Hy) as [Hz|(m & e & ->)].
  - apply is_zero_spec in Hz. destruct Hz as [s' ->]. now eexists.
  - now eexists.
Qed.

Lemma zero_mul_r (x y : float) :
  in_unit x = true -> PrimFloat.is_zero y = true ->
  PrimFloat.is_zero (x * y) = true.
Proof.
  intros Hx Hy. apply is_zero_spec in Hy. destruct Hy as [s Ey].
  apply is_zero_spec. rewrite mul_spec, Ey.
  destruct (in_unit_cases x Hx) as [Hz|(m & e & ->)].
  - apply is_zero_spec in Hz. destruct Hz as [s' ->]. now eexists.
  - now eexists.
Qed.

(** a product of floats of [[0,1]] that meets a zero is zero *)
Lemma zero_product_acc (l : list float) (a : float) :
  PrimFloat.is_zero a = true ->
  Forall (fun x => in_unit x = true) l ->
  PrimFloat.is_zero (fold_left PrimFloat.mul l a) = true.
Proof.
  intros Ha Hl. revert a Ha.
  induction Hl as [|x l Hx _ IH]; intros a Ha; simpl; trivial.
  now apply IH, zero_mul_l.
Qed.

Lemma zero_product (l : list float) (a : float) :
  in_unit a = true ->
  Forall (fun x => in_unit x = true) l ->
  Exists (fun x => PrimFloat.is_zero x = true) l ->
  PrimFloat.is_zero (fold_left PrimFloat.mul l a) = true.
Proof.
  intros Ha Hl Hz. revert a Ha Hl.
  induction Hz as [x l Hx|x l _ IH]; intros a Ha Hl; simpl.
  - apply zero_product_acc; [|exact (Forall_inv_tail Hl)].
    now apply zero_mul_r.
  - apply IH; [|exact (Forall_inv_tail Hl)].
    apply Binary64.float_mul_in_unit; trivial. exact (Forall_inv Hl).
Qed.

(** [0 / (0 + b)]: zero, unless [b] is zero too *)
Lemma zero_quotient (a b : float) :
  PrimFloat.is_zero a = true -> in_unit b = true ->
  PrimFloat.is_zero (a + b) = PrimFloat.is_zero b /\
  (PrimFloat.is_zero b = false -> PrimFloat.is_zero (a / (a + b)) = true).
Proof.
  intros Ha Hb. apply is_zero_spec in Ha. destruct Ha as [sa Ea].
  destruct (in_unit_cases b Hb) as [Hz|(m & e & Eb)].
  - rewrite Hz. split; [|discriminate].
    apply is_zero_spec in Hz. destruct Hz as [sb Eb].
    apply is_zero_spec. rewrite add_spec, Ea, Eb.
    destruct sa, sb; now eexists.
  - assert (Es : Prim2SF (a + b) = S754_finite false m e)
      by now rewrite add_spec, Ea, Eb.
    rewrite (not_zero_finite _ _ _ _ Eb), (not_zero_finite _ _ _ _ Es).
    split; [reflexivity|intros _].
    apply is_zero_spec. rewrite div_spec, Ea, Es. now eexists.
Qed.

(** a finite number divided by itself *)
Lemma SFdiv_self (m : positive) (e : Z) :
  SFdiv prec emax (S754_finite false m e) (S754_finite false m e) = SF_one.
Proof.
  unfold SFdiv, SFdiv_core_binary.
  rewrite Z.sub_diag, Z.sub_diag.
  change (Z.min (fexp prec emax 0) 0) with (-53).
  change (0 - -53) with 53.
  cbv beta iota zeta.
  rewrite Z.shiftl_mul_pow2 by lia.
  assert (Hdiv : Z.div_eucl (Zpos m * 2 ^ 53) (Zpos m) = (2 ^ 53, 0)).
  { pose proof (Z.div_eucl_eq (Zpos m * 2 ^ 53) (Zpos m) ltac:(lia)) as Heq.
    pose proof (Z.mod_pos_bound (Zpos m * 2 ^ 53) (Zpos m) ltac:(lia)) as Hb.
    unfold Z.modulo in Hb.
    destruct (Z.div_eucl (Zpos m * 2 ^ 53) (Zpos m)) as [q r].
    assert (q = 2 ^ 53) by nia. subst q. f_equal. lia. }
  rewrite Hdiv.
  replace (new_location (Zpos m) 0) with loc_Exact.
  - vm_compute. reflexivity.
  - unfold new_location, new_location_even, new_location_odd.
    destruct (Z.even (Zpos m)); reflexivity.
Qed.

(** [a / (a + 0)]: exactly one, unless [a] is zero too *)
Lemma one_quotient (a b : float) :
  in_unit a = true -> PrimFloat.is_zero b = true ->
  PrimFloat.is_zero (a + b) = PrimFloat.is_zero a /\
  (PrimFloat.is_zero a = false -> (a / (a + b))%float = 1%float).
Proof.
  intros Ha Hb. apply is_zero_spec in Hb. destruct Hb as [sb Eb].
  destruct (in_unit_cases a Ha) as [Hz|(m & e & Ea)].
  - rewrite Hz. split; [|discriminate].
    apply is_zero_spec in Hz. destruct Hz as [sa Ea].
    apply is_zero_spec. rewrite add_spec, Ea, Eb.
    destruct sa, sb; now eexists.
  - assert (Es : Prim2SF (a + b) = S754_finite false m e)
      by now rewrite add_spec, Ea, Eb.
    rewrite (not_zero_finite _ _ _ _ Ea), (not_zero_finite _ _ _ _ Es).
    split; [reflexivity|intros _].
    apply Prim2SF_inj. rewrite div_spec, Ea, Es. apply SFdiv_self.
Qed.

(** [1 - 1] *)
Lemma one_minus_one : PrimFloat.is_zero (1 - 1) = true.
Proof. reflexivity. Qed.

End SpecialValues.

Section NaN.

Local Open Scope float_scope.

(** X9. NaN is never rejected and never raises: when the current belief
    is NaN, or a rate of one of the tests the call pairs with a result is
    NaN, [update] returns NaN and appends it to the history. *)
Theorem nan_is_propagated (self : BayesianDiagnosis float)
    (tests : list (float * float)) (results : list bool) (p_d : float) :
  getitem_last (posterior_history self) = Return p_d ->
  PrimFloat.is_nan p_d = true \/
  Exists (fun item : (float * float) * bool =>
            PrimFloat.is_nan (fst (fst item)) = true \/
            PrimFloat.is_nan (snd (fst item)) = true)
         (zip tests results) ->
  exists posterior : float,
    update self tests results =
      (Return posterior, append_posterior self posterior) /\
    PrimFloat.is_nan posterior = true.
Proof.
  intros Hlast Hnan.
  rewrite (update_cases _ _ _ _ Hlast). cbv zeta.
  set (ev := evidence_list tests results).
  assert (Hall : PrimFloat.is_nan (p_evidence p_d ev) = true).
  { unfold p_evidence. cbn [num_add num_mul num_sub num_one float_number].
    destruct Hnan as [Hp|Hitem].
    - now apply SpecialValues.nan_add_l, SpecialValues.nan_mul_l.
    - assert (Hl : PrimFloat.is_nan (likelihood_d ev) = true \/
                   PrimFloat.is_nan (likelihood_not_d ev) = true).
      { unfold likelihood_d, likelihood_not_d, product, ev, evidence_list.
        cbn [num_mul num_one float_number]. rewrite !map_map.
        apply Exists_exists in Hitem.
        destruct Hitem as ([[s f] r] & Hin & [Hs|Hf]); cbn [fst snd] in *.
        - left. apply SpecialValues.nan_product, Exists_exists.
          exists (if r then s else 1 - s). split.
          + apply in_map_iff. exists (s, f, r). split; [|exact Hin].
            reflexivity.
          + destruct r; [exact Hs|now apply SpecialValues.nan_sub_r].
        - right. apply SpecialValues.nan_product, Exists_exists.
          exists (if r then f else 1 - f). split.
          + apply in_map_iff. exists (s, f, r). split; [|exact Hin].
            reflexivity.
          + destruct r; [exact Hf|now apply SpecialValues.nan_sub_r]. }
      destruct Hl as [Hd|Hn].
      + now apply SpecialValues.nan_add_l, SpecialValues.nan_mul_r.
      + now apply SpecialValues.nan_add_r, SpecialValues.nan_mul_r. }
  cbn [num_is_zero float_number].
  rewrite (SpecialValues.nan_not_zero _ Hall).
  eexists. split; [reflexivity|].
  unfold bayes_posterior. cbn [num_quot float_number].
  now apply SpecialValues.nan_div_r.
Qed.

End NaN.

Section Certainty.

Local Open Scope float_scope.

Lemma float_likelihoods_in_unit (tests : list (float * float))
    (results : list bool) :
  valid_tests tests ->
  in_unit (likelihood_d (evidence_list tests results)) = true /\
  in_unit (likelihood_not_d (evidence_list tests results)) = true.
Proof.
  intros Hv. destruct (factors_in_unit tests results Hv) as [Hd Hn].
  split; apply product_in_unit; trivial; apply unit_one.
Qed.

(** X10. Certain absence on floats.  With the belief and the rates in
    [[0,1]], when the belief is zero or an observed outcome has likelihood
    zero under the hypothesis (a test of sensitivity 1 that comes out
    negative, say), the call returns a zero; it raises
    [ZeroDivisionError] instead exactly when [(1 - p_d) * likelihood_not_d]
    is zero too. *)
Theorem impossible_evidence_gives_zero (self : BayesianDiagnosis float)
    (tests : list (float * float)) (results : list bool) (p_d : float) :
  getitem_last (posterior_history self) = Return p_d ->
  in_unit p_d = true ->
  valid_tests tests ->
  PrimFloat.is_zero p_d = true \/
  Exists (fun e => PrimFloat.is_zero (factor_d e) = true)
         (evidence_list tests results) ->
  if PrimFloat.is_zero
       ((1 - p_d) * likelihood_not_d (evidence_list tests results))
  then update self tests results = (Raise ZeroDivisionError, self)
  else exists posterior : float,
         update self tests results =
           (Return posterior, append_posterior self posterior) /\
         PrimFloat.is_zero posterior = true.
Proof.
  intros Hlast Hp Hv Hzero.
  destruct (float_likelihoods_in_unit tests results Hv) as [Hd Hn].
  destruct (factors_in_unit tests results Hv) as [Hfd _].
  set (ev := evidence_list tests results) in *.
  assert (Ha : PrimFloat.is_zero (p_d * likelihood_d ev) = true).
  { destruct Hzero as [Hz|Hz].
    - now apply SpecialValues.zero_mul_l.
    - apply SpecialValues.zero_mul_r; trivial.
      apply SpecialValues.zero_product; trivial.
      now apply Exists_map. }
  assert (Hb : in_unit ((1 - p_d) * likelihood_not_d ev) = true)
    by (apply Binary64.float_mul_in_unit; trivial;
        now apply Binary64.float_sub_in_unit).
  destruct (SpecialValues.zero_quotient _ _ Ha Hb) as [Esum Hq].
  rewrite (update_cases _ _ _ _ Hlast). cbv zeta. fold ev.
  unfold bayes_posterior, p_evidence.
  cbn [num_is_zero num_quot num_add num_sub num_mul num_one float_number].
  change (PrimFloat.eqb ?x 0) with (PrimFloat.is_zero x).
  rewrite Esum.
  destruct (PrimFloat.is_zero ((1 - p_d) * likelihood_not_d ev));
    [reflexivity|].
  eexists. split; [reflexivity|]. now apply Hq.
Qed.

(** X11. Certain presence on floats.  With the belief and the rates in
    [[0,1]], when the belief is [1.0] or an observed outcome has likelihood
    zero under the negation of the hypothesis (a test that never gives a
    false positive and comes out positive, say), the call returns exactly
    [1.0]; it raises [ZeroDivisionError] instead exactly when
    [p_d * likelihood_d] is zero too. *)
Theorem impossible_alternative_gives_one (self : BayesianDiagnosis float)
    (tests : list (float * float)) (results : list bool) (p_d : float) :
  getitem_last (posterior_history self) = Return p_d ->
  in_unit p_d = true ->
  valid_tests tests ->
  p_d = 1 \/
  Exists (fun e => PrimFloat.is_zero (factor_not_d e) = true)
         (evidence_list tests results) ->
  if PrimFloat.is_zero (p_d * likelihood_d (evidence_list tests results))
  then update self tests results = (Raise ZeroDivisionError, self)
  else update self tests results = (Return 1, append_posterior self 1).
Proof.
  intros Hlast Hp Hv Hone.
  destruct (float_likelihoods_in_unit tests results Hv) as [Hd Hn].
  destruct (factors_in_unit tests results Hv) as [_ Hfn].
  set (ev := evidence_list tests results) in *.
  assert (Hb : PrimFloat.is_zero ((1 - p_d) * likelihood_not_d ev) = true).
  { destruct Hone as [->|Hz].
    - apply SpecialValues.zero_mul_l;
        [apply SpecialValues.one_minus_one|exact Hn].
    - apply SpecialValues.zero_mul_r.
      + now apply Binary64.float_sub_in_unit.
      + apply SpecialValues.zero_product; trivial.
        now apply Exists_map. }
  assert (Ha : in_unit (p_d * likelihood_d ev) = true)
    by now apply Binary64.float_mul_in_unit.
  destruct (SpecialValues.one_quotient _ _ Ha Hb) as [Esum Hq].
  rewrite (update_cases _ _ _ _ Hlast). cbv zeta. fold ev.
  unfold bayes_posterior, p_evidence.
  cbn [num_is_zero num_quot num_add num_sub num_mul num_one float_number].
  change (PrimFloat.eqb ?x 0) with (PrimFloat.is_zero x).
  rewrite Esum.
  destruct (PrimFloat.is_zero (p_d * likelihood_d ev));
    [reflexivity|].
  now rewrite Hq.
Qed.

End Certainty.

(** ** The accuracy of one call *)

Module Accuracy.

Import Binary64.
Local Open Scope R_scope.

Lemma positive_float_m40 : positive_float 0x1p-40%float (pow2 (-40)).
Proof.
  exists 4503599627370496%positive, (-92)%Z. split; [reflexivity|].
  change (Zpos 4503599627370496) with (2 ^ 52)%Z. unfold F2R.
  rewrite pow2_IZR, <- pow2_add by lia. reflexivity.
Qed.

Lemma plausible_positive (x : float) :
  plausible x = true ->
  exists X : R,
    positive_float x X /\ in_unit x = true /\ pow2 (-40) <= X.
Proof.
  unfold plausible. rewrite andb_true_iff. intros [Hlo Hhi].
  destruct (positive_float_above _ x _ positive_float_m40 Hlo Hhi)
    as (X & HX).
  exists X. split; [exact HX|]. split.
  - now apply (positive_float_in_unit_intro x X).
  - exact (positive_float_leb _ _ _ _ positive_float_m40 HX Hlo).
Qed.

(** a positive float of [[0,1]] is below one or is one *)
Lemma unit_below_or_one (x : float) (X : R) :
  positive_float x X -> in_unit x = true -> X < 1 \/ x = 1%float.
Proof.
  intros (m & e & E & ->) H. rewrite float_in_unit_spec, E in H.
  unfold sf_in_unit in H. apply andb_true_iff in H. destruct H as [_ H].
  unfold SF_one in H. apply SFleb_finite in H.
  destruct (Z.eq_dec e (-52)) as [He|He];
    [destruct (Pos.eq_dec m 4503599627370496) as [Hm|Hm]|].
  - right. apply Prim2SF_inj. rewrite E, He, Hm. reflexivity.
  - left. apply (positive_float_below_one x); [exists m, e; now split|].
    rewrite ltb_spec, E.
    change (Prim2SF 1) with (S754_finite false 4503599627370496 (-52)).
    apply SFltb_finite. right. split; [exact He|].
    destruct H as [Hlt|[_ Hle]]; [lia|].
    assert (Zpos m <> Zpos 4503599627370496) by congruence. lia.
  - left. apply (positive_float_below_one x); [exists m, e; now split|].
    rewrite ltb_spec, E.
    change (Prim2SF 1) with (S754_finite false 4503599627370496 (-52)).
    apply SFltb_finite. left. destruct H as [Hlt|[Heq _]]; [exact Hlt|].
    now elim He.
Qed.

Lemma within_factor_sym (k a x : R) :
  within_factor k a x -> within_factor k x a.
Proof. intros (Hx & Ha & H1 & H2). unfold within_factor. tauto. Qed.

Section Factors.

Variable rate : Evidence float -> float.

(** one factor: a positive float, one rounding away from the real factor *)
Lemma float_factor_accurate (e : Evidence float) :
  in_unit (rate e) = true -> plausible (factor_of rate e) = true ->
  exists Q : R,
    positive_float (factor_of rate e) Q /\
    in_unit (factor_of rate e) = true /\
    pow2 (-40) <= Q /\
    within_factor kappa Q (real_factor rate e) /\ real_factor rate e <= 1.
Proof.
  intros Hu Hpl.
  destruct (plausible_positive _ Hpl) as (Q & HQ & UQ & LQ).
  destruct (positive_float_value _ _ HQ) as [EQ HQpos].
  pose proof (positive_float_in_unit _ _ HQ UQ) as HQ1.
  assert (Hk : 1 <= kappa) by (unfold kappa; lra).
  exists Q. split; [exact HQ|]. split; [exact UQ|]. split; [exact LQ|].
  unfold real_factor, factor_of in *. destruct (outcome_positive e).
  - rewrite EQ. split; [|exact HQ1].
    apply within_factor_weaken with 1; [exact Hk|].
    now apply within_factor_refl.
  - destruct (SpecialValues.in_unit_cases _ Hu) as [Hz|(m & x & E)].
    + apply SpecialValues.is_zero_spec in Hz. destruct Hz as [s Ez].
      assert (E1 : Prim2SF (1 - rate e) = Prim2SF 1)
        by (rewrite sub_spec, Ez; reflexivity).
      apply Prim2SF_inj in E1. rewrite E1 in EQ.
      assert (Ev : float_value (rate e) = 0)
        by (unfold float_value; now rewrite Ez).
      destruct (positive_float_value _ _ positive_float_one) as [E1' _].
      rewrite Ev, Rminus_0_r. split; [|lra].
      apply within_factor_weaken with 1; [exact Hk|].
      rewrite <- EQ, E1'. apply within_factor_refl. lra.
    + assert (HS : positive_float (rate e) (F2R (Zpos m) x))
        by (exists m, x; now split).
      destruct (positive_float_value _ _ HS) as [ES HSpos].
      rewrite ES.
      destruct (unit_below_or_one _ _ HS Hu) as [Hlt|Heq].
      * destruct (float_sub_one_error _ _ HS Hlt) as (Z & HZ & Herr & _).
        destruct (positive_float_value _ _ HZ) as [EZ _].
        rewrite EQ in EZ. subst Z. split; [|lra].
        apply within_factor_round; [lra|exact Herr].
      * exfalso. rewrite Heq in HQ. destruct HQ as (m' & x' & E' & _).
        discriminate E'.
Qed.

(** the running product: after [i] factors it is [2 i] roundings away
    from the real product, and [n] more factors add [2 n] more *)
Lemma float_likelihood_accurate (ev : list (Evidence float)) :
  forall (acc : float) (A I : R) (i : nat),
    positive_float acc A -> in_unit acc = true ->
    within_factor (kappa ^ (2 * i)) A I ->
    pow2 (-41 * Z.of_nat i) <= I -> I <= 1 ->
    (i + length ev <= 10)%nat ->
    Forall (fun e => in_unit (rate e) = true /\
                     plausible (factor_of rate e) = true) ev ->
    exists L : R,
      positive_float
        (fold_left PrimFloat.mul (map (factor_of rate) ev) acc) L /\
      in_unit (fold_left PrimFloat.mul (map (factor_of rate) ev) acc) = true /\
      within_factor (kappa ^ (2 * (i + length ev))) L
        (I * real_product (map (real_factor rate) ev)) /\
      pow2 (-41 * Z.of_nat (i + length ev)) <=
        I * real_product (map (real_factor rate) ev) <= 1.
Proof.
  induction ev as [|e ev IH]; intros acc A I i HA UA CA HI HI1 Hn Hev.
  - simpl. rewrite Nat.add_0_r, Rmult_1_r.
    exists A. split; [exact HA|]. split; [exact UA|]. split; [exact CA|].
    now split.
  - simpl length in *. simpl map. simpl fold_left. simpl real_product.
    destruct (Forall_inv Hev) as [Hu Hpl].
    pose proof (Forall_inv_tail Hev) as Hev'.
    destruct (float_factor_accurate e Hu Hpl)
      as (Q & HQ & UQ & LQ & CQ & HD1).
    set (D := real_factor rate e) in *.
    assert (Hkappa : 1 <= kappa <= 2) by (unfold kappa; lra).
    assert (LD : pow2 (-41) <= D).
    { apply (within_factor_lower kappa D Q (-40));
        [now apply within_factor_sym|lra|exact LQ]. }
    assert (Hk : kappa ^ (2 * i) <= call_factor).
    { apply Rle_trans with (kappa ^ 20).
      - apply Rle_pow; [lra|lia].
      - unfold call_factor, kappa. simpl pow. lra. }
    assert (HIpos : 0 < I) by apply CA.
    assert (HDpos : 0 < D) by apply CQ.
    assert (HQpos : 0 < Q) by apply CQ.
    destruct (float_likelihood_step acc (factor_of rate e) A Q I
                (kappa ^ (2 * i)) (-41 * Z.of_nat i + -40) HA UA HQ UQ CA Hk)
      as (L & HL & UL & CL).
    + now apply pow2_mul_le.
    + lia.
    + exact HI1.
    + assert (CL' : within_factor (kappa ^ (2 * S i)) L (I * D)).
      { replace (kappa ^ (2 * S i))
          with (kappa * kappa ^ (2 * i) * (1 * kappa)).
        - apply within_factor_trans with (1 := CL).
          apply within_factor_mul; [now apply within_factor_refl|exact CQ].
        - replace (2 * S i)%nat with (S (S (2 * i))) by lia. simpl pow. ring. }
      destruct (IH _ L (I * D) (S i) HL UL CL') as (L' & HL' & UL' & CL2 & HR);
        trivial.
      * replace (-41 * Z.of_nat (S i))%Z with (-41 * Z.of_nat i + -41)%Z
          by lia.
        now apply pow2_mul_le.
      * nra.
      * lia.
      * replace (i + S (length ev))%nat with (S i + length ev)%nat by lia.
        rewrite <- Rmult_assoc.
        exists L'. split; [exact HL'|]. split; [exact UL'|].
        split; [exact CL2|exact HR].
Qed.

End Factors.

Lemma evidence_rates_in_unit (tests : list (float * float))
    (results : list bool) :
  valid_tests tests ->
  Forall (fun e => in_unit (sensitivity e) = true /\
                   in_unit (false_positive_rate e) = true)
         (evidence_list tests results).
Proof.
  intros Hv. revert results.
  induction Hv as [|[s f] tests Hsf _ IH]; intros [|r results];
    try constructor; [exact Hsf|apply IH].
Qed.

(** one call on floats against Bayes' rule on the reals *)
Lemma update_floats_accurate (p_d : float) (ev : list (Evidence float))
    (P : R) :
  positive_float p_d P -> pow2 (-500) <= P < 1 ->
  (length ev <= 10)%nat ->
  Forall (fun e => in_unit (sensitivity e) = true /\
                   in_unit (false_positive_rate e) = true) ev ->
  Forall (fun e => plausible (factor_d e) = true /\
                   plausible (factor_not_d e) = true) ev ->
  PrimFloat.eqb (p_evidence p_d ev) 0 = false /\
  exists Q : R,
    positive_float (bayes_posterior p_d ev) Q /\
    Rabs (Q - exact_posterior p_d ev) <=
      exact_posterior p_d ev / 10000000000000.
Proof.
  intros HP HPr Hlen Hu Hpl.
  assert (H1 : within_factor (kappa ^ (2 * 0)) 1 1)
    by (simpl; apply within_factor_refl; lra).
  assert (H0 : pow2 (-41 * Z.of_nat 0) <= 1)
    by (change (pow2 0 <= 1); rewrite pow2_0; lra).
  assert (Hk20 : 1 <= kappa ^ 20 <= 1 + / 110000000000000)
    by (unfold kappa; simpl pow; lra).
  assert (Hmono : kappa ^ (2 * (0 + length ev)) <= kappa ^ 20)
    by (apply Rle_pow; [unfold kappa; lra|lia]).
  destruct (float_likelihood_accurate sensitivity ev 1%float 1 1 0%nat
              positive_float_one eq_refl H1 H0 (Rle_refl 1) Hlen)
    as (Ld & HLd & ULd & CLd & RD).
  { apply Forall_forall. intros e He. rewrite Forall_forall in Hu, Hpl.
    split; [apply (Hu e He)|apply (Hpl e He)]. }
  destruct (float_likelihood_accurate false_positive_rate ev 1%float 1 1
              0%nat positive_float_one eq_refl H1 H0 (Rle_refl 1) Hlen)
    as (Ln & HLn & ULn & CLn & RN).
  { apply Forall_forall. intros e He. rewrite Forall_forall in Hu, Hpl.
    split; [apply (Hu e He)|apply (Hpl e He)]. }
  rewrite Rmult_1_l in CLd, RD, CLn, RN.
  set (D := real_product (map (real_factor sensitivity) ev)) in *.
  set (N := real_product (map (real_factor false_positive_rate) ev)) in *.
  apply within_factor_weaken with (1 := Hmono) in CLd, CLn.
  assert (Hlo : forall X, pow2 (-41 * Z.of_nat (0 + length ev)) <= X ->
                          pow2 (-410) <= X).
  { intros X HX. apply Rle_trans with (2 := HX). apply pow2_le. lia. }
  assert (RLd : pow2 (-501) <= Ld <= 1).
  { split; [|now apply (positive_float_in_unit _ _ HLd)].
    apply Rle_trans with (pow2 (-410 - 1)); [apply pow2_le; lia|].
    apply (within_factor_lower (kappa ^ 20) Ld D); trivial; [lra|].
    apply Hlo, RD. }
  assert (RLn : pow2 (-501) <= Ln <= 1).
  { split; [|now apply (positive_float_in_unit _ _ HLn)].
    apply Rle_trans with (pow2 (-410 - 1)); [apply pow2_le; lia|].
    apply (within_factor_lower (kappa ^ 20) Ln N); trivial; [lra|].
    apply Hlo, RN. }
  destruct (posterior_floats_exact p_d _ _ (kappa ^ 20) P Ld Ln D N
              HP HPr HLd RLd HLn RLn CLd CLn (proj1 Hk20))
    as (Hnz & Q & HQ & CQ).
  split; [exact Hnz|]. exists Q. split; [exact HQ|].
  destruct (positive_float_value _ _ HP) as [EP _].
  unfold exact_posterior. fold D N. rewrite EP.
  set (X := bayes P D N) in *.
  set (K := call_factor * (kappa ^ 20 * kappa ^ 20 *
                           (kappa ^ 20 * kappa ^ 20))) in *.
  assert (HK : 1 <= K <= 1 + / 20000000000000).
  { unfold K, call_factor. set (c := kappa ^ 20) in *. clearbody c.
    assert (Hc2 : 1 <= c * c <= 1 + / 54000000000000) by (split; nra).
    set (c2 := c * c) in *. clearbody c2.
    assert (Hc4 : 1 <= c2 * c2 <= 1 + / 26500000000000) by (split; nra).
    set (c4 := c2 * c2) in *. clearbody c4. lra. }
  destruct CQ as (HXpos & HQpos & C1 & C2).
  assert (C1' : X <= (1 + / 20000000000000) * Q)
    by (apply Rle_trans with (1 := C1); apply Rmult_le_compat_r; lra).
  assert (C2' : Q <= (1 + / 20000000000000) * X)
    by (apply Rle_trans with (1 := C2); apply Rmult_le_compat_r; lra).
  clearbody X K. apply Rabs_le. split; lra.
Qed.

End Accuracy.

Section AccuracyOfUpdate.

Local Open Scope float_scope.

(** X12. One call on floats is accurate.  From a belief [p_d] with
    [2^-500 <= p_d < 1], at most ten tests paired with results, rates in
    [[0,1]] and factors for the observed outcomes in [[2^-40, 1]], the
    call returns, and the value it returns is within a relative error of
    [1e-13] of Bayes' rule worked out in real arithmetic on the values of
    the belief and of the rates. *)
Theorem update_is_accurate (self : BayesianDiagnosis float)
    (tests : list (float * float)) (results : list bool) (p_d : float) :
  getitem_last (posterior_history self) = Return p_d ->
  PrimFloat.leb 0x1p-500 p_d = true ->
  PrimFloat.ltb p_d 1 = true ->
  valid_tests tests ->
  (length (zip tests results) <= 10)%nat ->
  forallb plausible_evidence (evidence_list tests results) = true ->
  exists posterior : float,
    update self tests results =
      (Return posterior, append_posterior self posterior) /\
    (Rabs (float_value posterior -
           exact_posterior p_d (evidence_list tests results)) <=
     exact_posterior p_d (evidence_list tests results) / 10000000000000)%R.
Proof.
  intros Hlast Hp1 Hp2 Hv Hlen Hpl.
  destruct (Binary64.positive_float_of_range p_d Hp1 (float_ltb_leb _ _ Hp2))
    as (P & HP & HPlo & _).
  pose proof (Binary64.positive_float_below_one p_d P HP Hp2) as HPhi.
  assert (Hlen' : (length (evidence_list tests results) <= 10)%nat)
    by (unfold evidence_list; now rewrite length_map).
  assert (Hpl' : Forall (fun e => plausible (factor_d e) = true /\
                                  plausible (factor_not_d e) = true)
                   (evidence_list tests results)).
  { apply Forall_forall. intros e He.
    rewrite forallb_forall in Hpl. specialize (Hpl e He).
    unfold plausible_evidence in Hpl. now apply andb_true_iff in Hpl. }
  destruct (Accuracy.update_floats_accurate p_d _ P HP (conj HPlo HPhi) Hlen'
              (Accuracy.evidence_rates_in_unit tests results Hv) Hpl')
    as (Hnz & Q & HQ & Hclose).
  rewrite (update_cases _ _ _ _ Hlast). cbv zeta.
  cbn [num_is_zero float_number]. rewrite Hnz.
  eexists. split; [reflexivity|].
  destruct (Binary64.positive_float_value _ _ HQ) as [-> _].
  exact Hclose.
Qed.

End AccuracyOfUpdate.

(** ** The plot *)

Section Plot.

Context {T : Type} `{PyNumber T} `{!UnitIntervalLaws T}.

Lemma session_in_unit (self : BayesianDiagnosis T)
    (calls : list (list (T * T) * list bool)) :
  Forall (fun x => in_unit x = true) (posterior_history self) ->
  Forall (fun call => valid_tests (fst call)) calls ->
  Forall (fun x => in_unit x = true)
         (posterior_history (run_updates self calls)).
Proof.
  intros Hself Hcalls. revert self Hself.
  induction Hcalls as [|[tests results] calls Hv _ IH]; intros self Hself.
  - exact Hself.
  - simpl. apply IH. now apply update_keeps_range.
Qed.

(** X13. What [plot_convergence] draws after a session started by the
    constructor: one marker per history entry, the prior at [x = 0] and
    the posterior returned by the [i]-th call that returned at [x = i].
    With the prior and the rates in [[0,1]] every marker lies inside the
    limits [0] and [1] the plot sets on its vertical axis. *)
Theorem plot_shows_the_session (prior0 : T) (self : BayesianDiagnosis T)
    (calls : list (list (T * T) * list bool)) :
  in_unit prior0 = true ->
  __init__ prior0 = Return self ->
  Forall (fun call => valid_tests (fst call)) calls ->
  let ys := prior0 :: returned_posteriors self calls in
  (exists fmt color,
     In (Printing.plt_plot (seq 0 (length ys)) ys fmt color)
        (Printing.plot_convergence (run_updates self calls))) /\
  In (Printing.plt_ylim 0 1)
     (Printing.plot_convergence (run_updates self calls)) /\
  Forall (fun y => in_unit y = true) ys.
Proof.
  intros Hp Hinit Hcalls ys.
  assert (Hself : posterior_history self = [prior0])
    by (injection Hinit as <-; reflexivity).
  assert (Eh : posterior_history (run_updates self calls) = ys)
    by (rewrite session_history, Hself; reflexivity).
  split; [|split].
  - eexists. eexists. unfold Printing.plot_convergence. rewrite Eh.
    right. left. reflexivity.
  - unfold Printing.plot_convergence. simpl. tauto.
  - rewrite <- Eh. apply session_in_unit; trivial.
    rewrite Hself. now constructor.
Qed.

End Plot.

(** ** The script *)

Section Script.

Import Printing.
Local Open Scope nat_scope.

Lemma getitem_app_middle {A : Type} (l1 l2 : list A) (x : A) :
  getitem (l1 ++ x :: l2) (length l1) = Return x.
Proof.
  unfold getitem. rewrite nth_error_app2 by lia.
  now rewrite Nat.sub_diag.
Qed.

Lemma getitem_end {A : Type} (l : list A) :
  getitem l (length l) = Raise IndexError.
Proof.
  unfold getitem.
  destruct (nth_error l (length l)) eqn:E; trivial.
  assert (nth_error l (length l) <> None) by congruence.
  apply nth_error_Some in H. lia.
Qed.

Lemma getitem_app_l {A : Type} (l1 l2 : list A) (i : nat) :
  i < length l1 -> getitem (l1 ++ l2) i = getitem l1 i.
Proof. intros Hi. unfold getitem. now rewrite nth_error_app1. Qed.

(** the loop only looks at the indices it is given *)
Lemma script_loop_prefix (tests1 tests2 : list (float * float))
    (results1 results2 : list bool) (indices : list nat) :
  Forall (fun i => i < length tests1 /\ i < length results1) indices ->
  forall diagnosis out,
    script_loop (tests1 ++ tests2) (results1 ++ results2) indices
      diagnosis out =
    script_loop tests1 results1 indices diagnosis out.
Proof.
  induction 1 as [|i indices [Ht Hr] _ IH]; intros diagnosis out;
    [reflexivity|].
  simpl. rewrite !getitem_app_l by assumption.
  destruct (getitem tests1 i) as [t|e]; trivial.
  destruct (getitem results1 i) as [r|e]; trivial.
  destruct (update diagnosis [t] [r]) as [[q|e] d']; trivial.
Qed.

Lemma script_loop_app (tests : list (float * float)) (results : list bool)
    (indices1 indices2 : list nat) :
  forall diagnosis out,
    script_loop tests results (indices1 ++ indices2) diagnosis out =
    match script_loop tests results indices1 diagnosis out with
    | (Return _, out', diagnosis') =>
        script_loop tests results indices2 diagnosis' out'
    | stopped => stopped
    end.
Proof.
  induction indices1 as [|i indices1 IH]; intros diagnosis out;
    [reflexivity|].
  simpl.
  destruct (getitem tests i) as [t|e]; trivial.
  destruct (getitem results i) as [r|e]; trivial.
  destruct (update diagnosis [t] [r]) as [[q|e] d']; trivial.
Qed.

Lemma returned_posteriors_length (self : BayesianDiagnosis float)
    (calls : list (list (float * float) * list bool)) :
  length (returned_posteriors self calls) <= length calls.
Proof.
  revert self. induction calls as [|[t r] calls IH]; intros self;
    [reflexivity|].
  simpl. destruct (update self t r) as [[q|e] self']; simpl.
  - specialize (IH self'). lia.
  - specialize (IH self'). lia.
Qed.

Lemma one_by_one_length (tests : list (float * float))
    (results : list bool) :
  length tests <= length results ->
  length (one_by_one tests results) = length tests.
Proof.
  intros Hlen. unfold one_by_one. rewrite length_map, zip_length. lia.
Qed.

(** the loop over the tests still to come, when each has a result and no
    call raises *)
Lemma script_loop_returns (tests2 : list (float * float)) :
  forall (tests1 : list (float * float)) (results1 results2 : list bool)
         (diagnosis : BayesianDiagnosis float) (out : list String.string),
    length tests1 = length results1 ->
    length tests2 <= length results2 ->
    length (returned_posteriors diagnosis (one_by_one tests2 results2)) =
      length tests2 ->
    script_loop (tests1 ++ tests2) (results1 ++ results2)
      (seq (length tests1) (length tests2)) diagnosis out =
    (Return tt,
     out ++ map (fun item => print_line (fst item) (fst (snd item))
                               (snd (snd item)))
                (zip (seq (length tests1) (length tests2))
                     (zip results2
                        (returned_posteriors diagnosis
                           (one_by_one tests2 results2)))),
     run_updates diagnosis (one_by_one tests2 results2)).
Proof.
  induction tests2 as [|t tests2 IH];
    intros tests1 results1 results2 diagnosis out Hlen1 Hlen2 Hret.
  - simpl. now rewrite app_nil_r.
  - destruct results2 as [|r results2]; [simpl in Hlen2; lia|].
    simpl in Hlen2. simpl seq. simpl script_loop.
    rewrite getitem_app_middle, Hlen1, getitem_app_middle.
    unfold one_by_one in *. simpl zip in *. simpl map in *.
    simpl returned_posteriors in *. simpl run_updates.
    destruct (update diagnosis [t] [r]) as [[q|e] d'] eqn:Eu.
    + simpl in Hret. simpl snd.
      replace (tests1 ++ t :: tests2) with ((tests1 ++ [t]) ++ tests2)
        by now rewrite <- app_assoc.
      replace (results1 ++ r :: results2)
        with ((results1 ++ [r]) ++ results2) by now rewrite <- app_assoc.
      replace (S (length results1)) with (length (tests1 ++ [t]))
        by (rewrite length_app; simpl; lia).
      rewrite IH.
      * rewrite <- app_assoc. simpl.
        replace (length (tests1 ++ [t])) with (S (length results1))
          by (rewrite length_app; simpl; lia).
        reflexivity.
      * rewrite !length_app. simpl. lia.
      * lia.
      * now injection Hret.
    + exfalso.
      pose proof (returned_posteriors_length d'
                    (map (fun item : float * float * bool =>
                            ([fst item], [snd item]))
                         (zip tests2 results2))) as Hle.
      rewrite length_map, zip_length in Hle. simpl in Hret. lia.
Qed.

(** X14. The script makes one call per test.  When every test has a
    result and no call raises, it prints one line per test, with the
    number of the test, the word for its result and the posterior the
    call returned, rounded to four decimals; it ends on the instance the
    calls leave and draws its history. *)
Theorem script_prints_every_posterior (prior : float)
    (tests : list (float * float)) (results : list bool) :
  let diagnosis0 := {| prior := prior; posterior_history := [prior] |} in
  let posteriors :=
    returned_posteriors diagnosis0 (one_by_one tests results) in
  length tests <= length results ->
  length posteriors = length tests ->
  example_usage prior tests results =
  Return
    {| stdout :=
         map (fun item => print_line (fst item) (fst (snd item))
                            (snd (snd item)))
             (zip (seq 0 (length tests)) (zip results posteriors));
       figure :=
         plot_convergence (run_updates diagnosis0 (one_by_one tests results));
       raised := None;
       diagnosis := run_updates diagnosis0 (one_by_one tests results) |}.
Proof.
  intros diagnosis0 posteriors Hlen Hret.
  unfold example_usage, __init__. fold diagnosis0.
  pose proof (script_loop_returns tests [] [] results diagnosis0 []
                eq_refl Hlen Hret) as Eloop.
  cbn [app length] in Eloop. rewrite Eloop. reflexivity.
Qed.

(** X15. The script stops at the first error.  After a run on
    [tests1] and [results1] that ended without an exception, the script
    started with one more test (and any number after it) ends on
    [IndexError] when there is no result for that test, and on the
    exception of [update] when the call for that test raises.  Either way
    it has printed the lines of the shorter run, it leaves the instance
    as the shorter run left it, and it draws nothing. *)
Theorem script_stops_at_first_error (prior : float)
    (tests1 tests2 : list (float * float)) (results1 results2 : list bool)
    (test : float * float) (res : bool) (run1 : script_run) (e : exception) :
  length tests1 = length results1 ->
  example_usage prior tests1 results1 = Return run1 ->
  raised run1 = None ->
  example_usage prior (tests1 ++ test :: tests2) results1 =
    Return {| stdout := stdout run1; figure := [];
              raised := Some IndexError; diagnosis := diagnosis run1 |} /\
  (fst (update (diagnosis run1) [test] [res]) = Raise e ->
   example_usage prior (tests1 ++ test :: tests2)
     (results1 ++ res :: results2) =
     Return {| stdout := stdout run1; figure := [];
               raised := Some e; diagnosis := diagnosis run1 |}).
Proof.
  intros Hlen Hrun Hnone.
  unfold example_usage, __init__ in *.
  set (d0 := {| prior := prior; posterior_history := [prior] |}) in *.
  destruct (script_loop tests1 results1 (seq 0 (length tests1)) d0 [])
    as [[res1 out1] d1] eqn:Eloop.
  destruct res1 as [[]|e1];
    [|injection Hrun as <-; discriminate Hnone].
  injection Hrun as <-. simpl stdout. simpl diagnosis.
  assert (Hidx : Forall (fun i => i < length tests1 /\ i < length results1)
                   (seq 0 (length tests1))).
  { apply Forall_forall. intros i Hi. apply in_seq in Hi. lia. }
  rewrite length_app. simpl length. rewrite seq_app. simpl seq.
  split; [|intros Hraise].
  - rewrite script_loop_app.
    rewrite <- (app_nil_r results1) at 1.
    rewrite script_loop_prefix by exact Hidx.
    rewrite Eloop. simpl script_loop.
    rewrite getitem_app_middle, Hlen, getitem_end. reflexivity.
  - rewrite script_loop_app, script_loop_prefix by exact Hidx.
    rewrite Eloop. simpl script_loop.
    rewrite getitem_app_middle, Hlen, getitem_app_middle.
    destruct (update_outcome d1 [test] [res]) as [(e' & _ & Eu)|(q & Eu)];
      rewrite Eu in Hraise |- *; simpl in Hraise.
    + injection Hraise as ->. reflexivity.
    + discriminate Hraise.
Qed.

End Script.

(** ** More runs *)

Section MoreFloatRuns.

Local Open Scope float_scope.

(** A session of the script's first test and a test that raises. *)
Lemma session_raises_only_ZeroDivisionError_witness :
  hd_error
    (posterior_history
       (run_updates {| prior := 0.001; posterior_history := [0.001] |}
          [([(0.95, 0.02)], [true]); ([(0, 0)], [true])])) = Some 0.001 /\
  (update
     (run_updates {| prior := 0.001; posterior_history := [0.001] |}
        [([(0.95, 0.02)], [true]); ([(0, 0)], [true])])
     [(0.90, 0.05)] [true] =
   (Raise ZeroDivisionError,
    run_updates {| prior := 0.001; posterior_history := [0.001] |}
      [([(0.95, 0.02)], [true]); ([(0, 0)], [true])]) \/
   exists posterior,
     update
       (run_updates {| prior := 0.001; posterior_history := [0.001] |}
          [([(0.95, 0.02)], [true]); ([(0, 0)], [true])])
       [(0.90, 0.05)] [true] =
     (Return posterior,
      append_posterior
        (run_updates {| prior := 0.001; posterior_history := [0.001] |}
           [([(0.95, 0.02)], [true]); ([(0, 0)], [true])])
        posterior)).
Proof.
  apply (session_raises_only_ZeroDivisionError 0.001
           {| prior := 0.001; posterior_history := [0.001] |}).
  reflexivity.
Defined.

(** A NaN rate in the second of two tests. *)
Lemma nan_is_propagated_witness :
  exists posterior : float,
    update {| prior := 0.001; posterior_history := [0.001] |}
           [(0.95, 0.02); (nan, 0.05)] [true; false] =
      (Return posterior,
       append_posterior {| prior := 0.001; posterior_history := [0.001] |}
         posterior) /\
    PrimFloat.is_nan posterior = true.
Proof.
  apply (nan_is_propagated
           {| prior := 0.001; posterior_history := [0.001] |}
           [(0.95, 0.02); (nan, 0.05)] [true; false] 0.001).
  - reflexivity.
  - right. apply Exists_cons_tl, Exists_cons_hd. left. reflexivity.
Defined.

(** A test of sensitivity [1] that comes out negative. *)
Lemma impossible_evidence_gives_zero_witness :
  if PrimFloat.is_zero
       ((1 - 0.3) * likelihood_not_d (evidence_list [(1, 0.1)] [false]))
  then update {| prior := 0.3; posterior_history := [0.3] |}
              [(1, 0.1)] [false] =
       (Raise ZeroDivisionError,
        {| prior := 0.3; posterior_history := [0.3] |})
  else exists posterior : float,
         update {| prior := 0.3; posterior_history := [0.3] |}
                [(1, 0.1)] [false] =
           (Return posterior,
            append_posterior {| prior := 0.3; posterior_history := [0.3] |}
              posterior) /\
         PrimFloat.is_zero posterior = true.
Proof.
  apply (impossible_evidence_gives_zero
           {| prior := 0.3; posterior_history := [0.3] |}
           [(1, 0.1)] [false] 0.3).
  - reflexivity.
  - reflexivity.
  - repeat constructor.
  - right. constructor. reflexivity.
Defined.

(** A test that never gives a false positive and comes out positive. *)
Lemma impossible_alternative_gives_one_witness :
  if PrimFloat.is_zero (0.3 * likelihood_d (evidence_list [(0.9, 0)] [true]))
  then update {| prior := 0.3; posterior_history := [0.3] |}
              [(0.9, 0)] [true] =
       (Raise ZeroDivisionError,
        {| prior := 0.3; posterior_history := [0.3] |})
  else update {| prior := 0.3; posterior_history := [0.3] |}
              [(0.9, 0)] [true] =
       (Return 1,
        append_posterior {| prior := 0.3; posterior_history := [0.3] |} 1).
Proof.
  apply (impossible_alternative_gives_one
           {| prior := 0.3; posterior_history := [0.3] |}
           [(0.9, 0)] [true] 0.3).
  - reflexivity.
  - reflexivity.
  - repeat constructor.
  - right. constructor. reflexivity.
Defined.

(** The three tests of the script in one call. *)
Lemma update_is_accurate_witness :
  exists posterior : float,
    update {| prior := 0.001; posterior_history := [0.001] |}
           [(0.95, 0.02); (0.90, 0.05); (0.92, 0.03)] [true; true; false] =
      (Return posterior,
       append_posterior {| prior := 0.001; posterior_history := [0.001] |}
         posterior) /\
    (Rabs (float_value posterior -
           exact_posterior 0.001%float
             (evidence_list
                [(0.95, 0.02); (0.90, 0.05); (0.92, 0.03)]%float
                [true; true; false])) <=
     exact_posterior 0.001%float
       (evidence_list [(0.95, 0.02); (0.90, 0.05); (0.92, 0.03)]%float
                      [true; true; false]) / 10000000000000)%R.
Proof.
  apply (update_is_accurate
           {| prior := 0.001; posterior_history := [0.001] |}
           [(0.95, 0.02); (0.90, 0.05); (0.92, 0.03)] [true; true; false]
           0.001).
  - reflexivity.
  - reflexivity.
  - reflexivity.
  - repeat constructor.
  - simpl. lia.
  - reflexivity.
Defined.

(** The plot of the script's session. *)
Lemma plot_shows_the_session_witness :
  (exists fmt color,
     In (Printing.plt_plot
           (seq 0 (length
              (0.001 ::
               returned_posteriors
                 {| prior := 0.001; posterior_history := [0.001] |}
                 [([(0.95, 0.02)], [true]);
                  ([(0.90, 0.05)], [true]);
                  ([(0.92, 0.03)], [false])])))
           (0.001 ::
            returned_posteriors
              {| prior := 0.001; posterior_history := [0.001] |}
              [([(0.95, 0.02)], [true]);
               ([(0.90, 0.05)], [true]);
               ([(0.92, 0.03)], [false])])
           fmt color)
        (Printing.plot_convergence
           (run_updates {| prior := 0.001; posterior_history := [0.001] |}
              [([(0.95, 0.02)], [true]);
               ([(0.90, 0.05)], [true]);
               ([(0.92, 0.03)], [false])]))) /\
  In (Printing.plt_ylim 0 1)
     (Printing.plot_convergence
        (run_updates {| prior := 0.001; posterior_history := [0.001] |}
           [([(0.95, 0.02)], [true]);
            ([(0.90, 0.05)], [true]);
            ([(0.92, 0.03)], [false])])) /\
  Forall (fun y : float => in_unit y = true)
    (0.001 ::
     returned_posteriors
       {| prior := 0.001; posterior_history := [0.001] |}
       [([(0.95, 0.02)], [true]);
        ([(0.90, 0.05)], [true]);
        ([(0.92, 0.03)], [false])]).
Proof.
  apply (plot_shows_the_session 0.001
           {| prior := 0.001; posterior_history := [0.001] |}).
  - reflexivity.
  - reflexivity.
  - repeat constructor.
Defined.

End MoreFloatRuns.

(** *** The script *)

Section ScriptRuns.

Import Stdlib.Strings.String.
Local Open Scope float_scope.

(** The script as it is written: its three lines, its plot and its
    history. *)
Lemma script_prints_every_posterior_witness :
  Printing.script =
  Return
    {| Printing.stdout :=
         ["After Test 1 (Positive): Posterior = 0.0454"%string;
          "After Test 2 (Positive): Posterior = 0.4612"%string;
          "After Test 3 (Negative): Posterior = 0.0659"%string];
       Printing.figure :=
         Printing.plot_convergence
           {| prior := 0.001;
              posterior_history :=
                [0.001; 0.045389393215480169; 0.46116504854368928;
                 0.065932159278216329] |};
       Printing.raised := None;
       Printing.diagnosis :=
         {| prior := 0.001;
            posterior_history :=
              [0.001; 0.045389393215480169; 0.46116504854368928;
               0.065932159278216329] |} |}.
Proof.
  unfold Printing.script.
  rewrite (script_prints_every_posterior 0.001
             [(0.95, 0.02); (0.90, 0.05); (0.92, 0.03)]
             [true; true; false]).
  - vm_compute. reflexivity.
  - simpl. lia.
  - reflexivity.
Defined.

(** The script with a third test that cannot come out positive, and the
    script with no result for its third test. *)
Lemma script_stops_at_first_error_witness :
  Printing.example_usage 0.001
    ([(0.95, 0.02); (0.90, 0.05)] ++ (0, 0) :: []) [true; true] =
    Return
      {| Printing.stdout :=
           ["After Test 1 (Positive): Posterior = 0.0454"%string;
            "After Test 2 (Positive): Posterior = 0.4612"%string];
         Printing.figure := [];
         Printing.raised := Some IndexError;
         Printing.diagnosis :=
           {| prior := 0.001;
              posterior_history :=
                [0.001; 0.045389393215480169; 0.46116504854368928] |} |} /\
  Printing.example_usage 0.001
    ([(0.95, 0.02); (0.90, 0.05)] ++ (0, 0) :: [])
    ([true; true] ++ true :: []) =
    Return
      {| Printing.stdout :=
           ["After Test 1 (Positive): Posterior = 0.0454"%string;
            "After Test 2 (Positive): Posterior = 0.4612"%string];
         Printing.figure := [];
         Printing.raised := Some ZeroDivisionError;
         Printing.diagnosis :=
           {| prior := 0.001;
              posterior_history :=
                [0.001; 0.045389393215480169; 0.46116504854368928] |} |}.
Proof.
  destruct (script_stops_at_first_error 0.001
              [(0.95, 0.02); (0.90, 0.05)] [] [true; true] [] (0, 0) true
              {| Printing.stdout :=
                   ["After Test 1 (Positive): Posterior = 0.0454"%string;
                    "After Test 2 (Positive): Posterior = 0.4612"%string];
                 Printing.figure :=
                   Printing.plot_convergence
                     {| prior := 0.001;
                        posterior_history :=
                          [0.001; 0.045389393215480169;
                           0.46116504854368928] |};
                 Printing.raised := None;
                 Printing.diagnosis :=
                   {| prior := 0.001;
                      posterior_history :=
                        [0.001; 0.045389393215480169;
                         0.46116504854368928] |} |}
              ZeroDivisionError) as [Hshort Hraise].
  - reflexivity.
  - vm_compute. reflexivity.
  - reflexivity.
  - split; [exact Hshort|]. apply Hraise. reflexivity.
Defined.

End ScriptRuns.

Section MoreFractionRuns.

Local Open Scope Qc_scope.

(** The first two tests of the script, then the third. *)
Lemma consecutive_calls_fuse_exact_witness :
  exists p1 p2 : Qc,
    update {| prior := Q2Qc (1 # 1000);
              posterior_history := [Q2Qc (1 # 1000)] |}
           [(Q2Qc (95 # 100), Q2Qc (2 # 100));
            (Q2Qc (9 # 10), Q2Qc (5 # 100))] [true; true] =
      (Return p1,
       append_posterior
         {| prior := Q2Qc (1 # 1000);
            posterior_history := [Q2Qc (1 # 1000)] |} p1) /\
    update (append_posterior
              {| prior := Q2Qc (1 # 1000);
                 posterior_history := [Q2Qc (1 # 1000)] |} p1)
           [(Q2Qc (92 # 100), Q2Qc (3 # 100))] [false] =
      (Return p2,
       append_posterior
         (append_posterior
            {| prior := Q2Qc (1 # 1000);
               posterior_history := [Q2Qc (1 # 1000)] |} p1) p2) /\
    update {| prior := Q2Qc (1 # 1000);
              posterior_history := [Q2Qc (1 # 1000)] |}
           ([(Q2Qc (95 # 100), Q2Qc (2 # 100));
             (Q2Qc (9 # 10), Q2Qc (5 # 100))] ++
            [(Q2Qc (92 # 100), Q2Qc (3 # 100))])
           ([true; true] ++ [false]) =
      (Return p2,
       append_posterior
         {| prior := Q2Qc (1 # 1000);
            posterior_history := [Q2Qc (1 # 1000)] |} p2).
Proof.
  apply (consecutive_calls_fuse_exact
           {| prior := Q2Qc (1 # 1000);
              posterior_history := [Q2Qc (1 # 1000)] |}
           [(Q2Qc (95 # 100), Q2Qc (2 # 100));
            (Q2Qc (9 # 10), Q2Qc (5 # 100))]
           [(Q2Qc (92 # 100), Q2Qc (3 # 100))]
           [true; true] [false] (Q2Qc (1 # 1000)) eq_refl eq_refl);
    apply fraction_not_zero; reflexivity.
Defined.

(** The script's session in exact arithmetic. *)
Lemma one_by_one_equals_batch_exact_witness :
  exists posterior : Qc,
    update {| prior := Q2Qc (1 # 1000);
              posterior_history := [Q2Qc (1 # 1000)] |}
           [(Q2Qc (95 # 100), Q2Qc (2 # 100));
            (Q2Qc (9 # 10), Q2Qc (5 # 100));
            (Q2Qc (92 # 100), Q2Qc (3 # 100))] [true; true; false] =
      (Return posterior,
       append_posterior
         {| prior := Q2Qc (1 # 1000);
            posterior_history := [Q2Qc (1 # 1000)] |} posterior) /\
    getitem_last
      (posterior_history
         (run_updates
            {| prior := Q2Qc (1 # 1000);
               posterior_history := [Q2Qc (1 # 1000)] |}
            (one_by_one
               [(Q2Qc (95 # 100), Q2Qc (2 # 100));
                (Q2Qc (9 # 10), Q2Qc (5 # 100));
                (Q2Qc (92 # 100), Q2Qc (3 # 100))] [true; true; false]))) =
      Return posterior /\
    length
      (posterior_history
         (run_updates
            {| prior := Q2Qc (1 # 1000);
               posterior_history := [Q2Qc (1 # 1000)] |}
            (one_by_one
               [(Q2Qc (95 # 100), Q2Qc (2 # 100));
                (Q2Qc (9 # 10), Q2Qc (5 # 100));
                (Q2Qc (92 # 100), Q2Qc (3 # 100))] [true; true; false]))) =
      (length [Q2Qc (1 # 1000)] +
       length (zip [(Q2Qc (95 # 100), Q2Qc (2 # 100));
                    (Q2Qc (9 # 10), Q2Qc (5 # 100));
                    (Q2Qc (92 # 100), Q2Qc (3 # 100))]
                   [true; true; false]))%nat.
Proof.
  apply (one_by_one_equals_batch_exact
           {| prior := Q2Qc (1 # 1000);
              posterior_history := [Q2Qc (1 # 1000)] |}
           [(Q2Qc (95 # 100), Q2Qc (2 # 100));
            (Q2Qc (9 # 10), Q2Qc (5 # 100));
            (Q2Qc (92 # 100), Q2Qc (3 # 100))] [true; true; false]
           (Q2Qc (1 # 1000)) eq_refl).
  - reflexivity.
  - discriminate.
  - repeat constructor; discriminate.
Defined.

(** Two tests, in either order. *)
Lemma update_order_irrelevant_exact_witness :
  update {| prior := Q2Qc (1 # 1000);
            posterior_history := [Q2Qc (1 # 1000)] |}
         [(Q2Qc (95 # 100), Q2Qc (2 # 100));
          (Q2Qc (92 # 100), Q2Qc (3 # 100))] [true; false] =
  update {| prior := Q2Qc (1 # 1000);
            posterior_history := [Q2Qc (1 # 1000)] |}
         [(Q2Qc (92 # 100), Q2Qc (3 # 100));
          (Q2Qc (95 # 100), Q2Qc (2 # 100))] [false; true].
Proof.
  apply (update_order_irrelevant_exact
           {| prior := Q2Qc (1 # 1000);
              posterior_history := [Q2Qc (1 # 1000)] |}).
  apply perm_swap.
Defined.

(** The first test of the script: a positive result of a test that is
    more often positive with the disease than without. *)
Lemma posterior_follows_likelihood_ratio_witness :
  (Q2Qc (1 # 1000) <= Q2Qc (95 # 2093) <->
   likelihood_not_d
     (evidence_list [(Q2Qc (95 # 100), Q2Qc (2 # 100))] [true]) <=
   likelihood_d
     (evidence_list [(Q2Qc (95 # 100), Q2Qc (2 # 100))] [true])) /\
  (Q2Qc (95 # 2093) = Q2Qc (1 # 1000) <->
   likelihood_d
     (evidence_list [(Q2Qc (95 # 100), Q2Qc (2 # 100))] [true]) =
   likelihood_not_d
     (evidence_list [(Q2Qc (95 # 100), Q2Qc (2 # 100))] [true])).
Proof.
  apply (posterior_follows_likelihood_ratio
           {| prior := Q2Qc (1 # 1000);
              posterior_history := [Q2Qc (1 # 1000)] |}
           [(Q2Qc (95 # 100), Q2Qc (2 # 100))] [true]
           (Q2Qc (1 # 1000)) (Q2Qc (95 # 2093)) eq_refl).
  - reflexivity.
  - reflexivity.
  - repeat constructor.
  - rewrite scenario_1_exact. reflexivity.
Defined.

(** The first test of the script, read for the absence of the disease. *)
Lemma complementary_hypothesis_exact_witness :
  update {| prior := 1 - Q2Qc (1 # 1000);
            posterior_history := [1 - Q2Qc (1 # 1000)] |}
         (map (fun t => (snd t, fst t))
              [(Q2Qc (95 # 100), Q2Qc (2 # 100))]) [true] =
  (Return (1 - Q2Qc (95 # 2093)),
   append_posterior
     {| prior := 1 - Q2Qc (1 # 1000);
        posterior_history := [1 - Q2Qc (1 # 1000)] |}
     (1 - Q2Qc (95 # 2093))).
Proof.
  apply (complementary_hypothesis_exact
           {| prior := Q2Qc (1 # 1000);
              posterior_history := [Q2Qc (1 # 1000)] |}
           {| prior := 1 - Q2Qc (1 # 1000);
              posterior_history := [1 - Q2Qc (1 # 1000)] |}
           [(Q2Qc (95 # 100), Q2Qc (2 # 100))] [true]
           (Q2Qc (1 # 1000)) (Q2Qc (95 # 2093))).
  - reflexivity.
  - reflexivity.
  - exact scenario_1_exact.
Defined.

(** The script's session in exact arithmetic. *)
Lemma belief_stays_uncertain_exact_witness :
  Forall (fun x => 0 < x /\ x < 1)
    (posterior_history
       (run_updates
          {| prior := Q2Qc (1 # 1000);
             posterior_history := [Q2Qc (1 # 1000)] |}
          [([(Q2Qc (95 # 100), Q2Qc (2 # 100))], [true]);
           ([(Q2Qc (9 # 10), Q2Qc (5 # 100))], [true]);
           ([(Q2Qc (92 # 100), Q2Qc (3 # 100))], [false])])) /\
  length
    (posterior_history
       (run_updates
          {| prior := Q2Qc (1 # 1000);
             posterior_history := [Q2Qc (1 # 1000)] |}
          [([(Q2Qc (95 # 100), Q2Qc (2 # 100))], [true]);
           ([(Q2Qc (9 # 10), Q2Qc (5 # 100))], [true]);
           ([(Q2Qc (92 # 100), Q2Qc (3 # 100))], [false])])) =
  S (length
       [([(Q2Qc (95 # 100), Q2Qc (2 # 100))], [true]);
        ([(Q2Qc (9 # 10), Q2Qc (5 # 100))], [true]);
        ([(Q2Qc (92 # 100), Q2Qc (3 # 100))], [false])]).
Proof.
  apply (belief_stays_uncertain_exact (Q2Qc (1 # 1000))
           {| prior := Q2Qc (1 # 1000);
              posterior_history := [Q2Qc (1 # 1000)] |}).
  - reflexivity.
  - reflexivity.
  - reflexivity.
  - repeat constructor.
Defined.

End MoreFractionRuns.
